(** * Citation-aware chunking and citation aggregation

    A shallow embedding of [src/ingestion.py] (class
    [UniversalDocumentProcessor]) and [src/citation_handler.py] (class
    [CitationManager]), and the properties of the tagging loop, the citation
    parser and the citation aggregator.

    Python strings are sequences of Unicode code points, so a string is a
    list of code points here.  The regular expressions of the source are
    kept as syntax trees and run by a backtracking matcher with the
    priorities of Python's [re] module (greedy repetition, ordered
    alternation, leftmost match for [re.search]). *)

From Stdlib Require Import ZArith NArith Strings.String Strings.Ascii.
From stdpp Require Import gmap list sorting.

(** ** Strings and the character database *)

Module Unicode.

Local Open Scope N_scope.

(** A code point, and a Python [str]. *)
Abbreviation char := N (only parsing).
Abbreviation str := (list N) (only parsing).

(** String literals of this file are written as UTF-8 text and decoded to
    their code points. *)
Fixpoint utf8_decode (bs : list N) : str :=
  match bs with
  | [] => []
  | b :: r =>
      if b <? 0x80 then b :: utf8_decode r
      else if b <? 0xE0 then
        match r with
        | b1 :: r' => ((b - 0xC0) * 64 + (b1 - 0x80)) :: utf8_decode r'
        | _ => []
        end
      else if b <? 0xF0 then
        match r with
        | b1 :: b2 :: r' =>
            ((b - 0xE0) * 4096 + (b1 - 0x80) * 64 + (b2 - 0x80)) :: utf8_decode r'
        | _ => []
        end
      else
        match r with
        | b1 :: b2 :: b3 :: r' =>
            ((b - 0xF0) * 262144 + (b1 - 0x80) * 4096 + (b2 - 0x80) * 64 + (b3 - 0x80))
              :: utf8_decode r'
        | _ => []
        end
  end.

Definition py (s : string) : str :=
  utf8_decode (List.map N_of_ascii (list_ascii_of_string s)).

(** What the source observes of a character's class: [str.isspace] / [\s];
    a decimal digit with its value ([\d], [int]); a digit that is not decimal
    (superscripts and the like: [str.isdigit] holds, [int] refuses it); any
    other alphanumeric character; anything else.  The five classes are
    disjoint in the Unicode database. *)
Inductive ckind : Type :=
  | KSpace
  | KDecimal (v : N)
  | KDigit
  | KAlnum
  | KOther.

(** Whitespace and digits have no case: no case mapping and no case
    equivalent. *)
Definition caseless (k : ckind) : bool :=
  match k with
  | KSpace | KDecimal _ | KDigit => true
  | KAlnum | KOther => false
  end.

(** The part of the character database written out here: Basic Latin,
    Latin-1 Supplement, and the Cyrillic letters U+0400..U+045F. *)
Definition in_table (c : char) : bool :=
  (c <? 0x100) || ((0x400 <=? c) && (c <? 0x460)).

Definition between (lo hi c : N) : bool := (lo <=? c) && (c <=? hi).

Definition table_kind (c : char) : ckind :=
  if between 0x30 0x39 c then KDecimal (c - 0x30)
  else if between 0x41 0x5A c || between 0x61 0x7A c then KAlnum
  else if between 0x09 0x0D c || between 0x1C 0x20 c || (c =? 0x85) || (c =? 0xA0)
  then KSpace
  else if (c =? 0xB2) || (c =? 0xB3) || (c =? 0xB9) then KDigit
  else if (c =? 0xAA) || (c =? 0xB5) || (c =? 0xBA) || between 0xBC 0xBE c
          || (between 0xC0 0xFF c && negb (c =? 0xD7) && negb (c =? 0xF7))
          || between 0x400 0x45F c
  then KAlnum
  else KOther.

Definition table_lower (c : char) : char :=
  if between 0x41 0x5A c then c + 0x20
  else if between 0xC0 0xDE c && negb (c =? 0xD7) then c + 0x20
  else if between 0x400 0x40F c then c + 0x50
  else if between 0x410 0x42F c then c + 0x20
  else c.

(** Everything the interpreter brings that the source does not fix: the
    character database outside the table above, the extra case equivalences
    of the regex compiler, [str.lower] on strings that leave the table, the
    iteration order of a [set], and the digit limit of [int] (0: no limit;
    the interpreter accepts no other value below 640). *)
Record Runtime : Type := {
  ext_kind : char -> ckind;
  ext_lower : char -> char;
  ext_casefix : char -> char -> bool;
  ext_str_lower : str -> str;
  set_order : list str -> list str;
  set_order_perm : forall l, set_order l ≡ₚ l;
  int_max_str_digits : nat;
  int_max_str_digits_ok : int_max_str_digits = 0%nat \/ (640 <= int_max_str_digits)%nat
}.

Definition py_default : Runtime := {|
  ext_kind := fun _ => KOther;
  ext_lower := fun c => c;
  ext_casefix := fun _ _ => false;
  ext_str_lower := fun s => s;
  set_order := fun l => l;
  set_order_perm := fun l => reflexivity l;
  int_max_str_digits := 4300;
  int_max_str_digits_ok := ltac:(right; lia)
|}.

Section Classes.
Variable rt : Runtime.

Definition kind (c : char) : ckind :=
  if in_table c then table_kind c else ext_kind rt c.

(** The simple lowercase mapping ([Py_UNICODE_TOLOWER]). *)
Definition tolower (c : char) : char :=
  if in_table c then table_lower c
  else if caseless (ext_kind rt c) then c
  else ext_lower rt c.

Definition isspace (c : char) : bool :=
  match kind c with KSpace => true | _ => false end.

Definition isdecimal (c : char) : bool :=
  match kind c with KDecimal _ => true | _ => false end.

Definition isdigit (c : char) : bool :=
  match kind c with KDecimal _ | KDigit => true | _ => false end.

Definition isalnum (c : char) : bool :=
  match kind c with KDecimal _ | KDigit | KAlnum => true | _ => false end.

(** [\w] *)
Definition isword (c : char) : bool := isalnum c || (c =? 0x5F).

(** [str.isdigit()]: every character is a digit and there is at least one. *)
Definition str_isdigit (s : str) : bool :=
  forallb isdigit s && negb (bool_decide (s = [])).

(** [str.lower()] *)
Definition str_lower (s : str) : str :=
  if forallb in_table s then List.map table_lower s else ext_str_lower rt s.

(** [str.strip()] *)
Fixpoint lstrip (s : str) : str :=
  match s with
  | c :: r => if isspace c then lstrip r else s
  | [] => []
  end.

Definition rstrip (s : str) : str := rev (lstrip (rev s)).

Definition strip (s : str) : str := rstrip (lstrip s).

(** A literal under [re.IGNORECASE]: the compiler stores the lowercase
    [lo] of a cased literal, and a character matches when its lowercase is
    [lo] or one of the compiler's extra equivalents of [lo].  No two
    characters of the table are equivalent in that sense. *)
Definition ci_eq (lo c : char) : bool :=
  let l := tolower c in
  (l =? lo) ||
  (negb (caseless (kind c)) && negb (in_table lo && in_table l) && ext_casefix rt lo l).
End Classes.

(** The line feed. *)
Definition LF : char := 0x0A.

(** [old in s] for strings. *)
Fixpoint starts_with (p s : str) : bool :=
  match p, s with
  | [], _ => true
  | a :: p', b :: s' => (a =? b) && starts_with p' s'
  | _ :: _, [] => false
  end.

Fixpoint contains (p s : str) : bool :=
  starts_with p s ||
  match s with
  | [] => false
  | _ :: s' => contains p s'
  end.

(** [s.replace(old, new)] for one-character [old] and [new]. *)
Definition replace_char (old new : char) (s : str) : str :=
  List.map (fun c => if c =? old then new else c) s.

(** [sep.join(l)] *)
Fixpoint join (sep : str) (l : list str) : str :=
  match l with
  | [] => []
  | [x] => x
  | x :: r => x ++ sep ++ join sep r
  end.

(** [str(n)] for an [int]. *)
Definition digit_char (d : N) : char := 0x30 + d.

Fixpoint digits_of (fuel : nat) (n : N) (acc : str) : str :=
  match fuel with
  | O => acc
  | S f =>
      let acc' := digit_char (n mod 10) :: acc in
      if n <? 10 then acc' else digits_of f (n / 10) acc'
  end.

Definition str_of_N (n : N) : str := digits_of (S (N.to_nat (N.log2 n))) n [].

Definition str_of_Z (z : Z) : str :=
  match z with
  | Zneg p => 0x2D :: str_of_N (Npos p)
  | _ => str_of_N (Z.to_N z)
  end.

End Unicode.
Export Unicode.

(** ** Regular expressions *)

Module Regex.

(** One-character classes: [.] (anything but a line feed), [\s], [\w], [\d],
    an exact literal, and a cased literal under [re.IGNORECASE], kept as its
    lowercase. *)
Inductive cls : Type :=
  | CAny
  | CSpace
  | CWord
  | CDigit
  | CLit (c : char)
  | CLitI (lo : char).

(** The patterns of the source repeat single characters only, so [Star]
    takes a class. *)
Inductive regex : Type :=
  | Eps
  | Bol
  | One (c : cls)
  | Star (c : cls)
  | Seq (r1 r2 : regex)
  | Alt (r1 r2 : regex)
  | Group (n : nat) (r : regex).

Declare Scope regex_scope.
Delimit Scope regex_scope with re.
Bind Scope regex_scope with regex.
Notation "r1 ;; r2" := (Seq r1 r2) (at level 100, r2 at level 200) : regex_scope.

(** [c+] and [c?], both greedy. *)
Definition Plus (c : cls) : regex := (One c ;; Star c)%re.
Definition Opt (c : cls) : regex := Alt (One c) Eps.

(** A run of cased letters, given in lowercase, under [re.IGNORECASE]. *)
Fixpoint ilit (s : str) : regex :=
  match s with
  | [] => Eps
  | c :: r => (One (CLitI c) ;; ilit r)%re
  end.

(** Captured groups, most recent first. *)
Definition caps : Type := list (nat * str).

Fixpoint group (n : nat) (g : caps) : option str :=
  match g with
  | [] => None
  | (m, s) :: g' => if Nat.eqb n m then Some s else group n g'
  end.

Section Matcher.
Variable rt : Runtime.

Definition cls_match (c : cls) (x : char) : bool :=
  match c with
  | CAny => negb (x =? LF)%N
  | CSpace => isspace rt x
  | CWord => isword rt x
  | CDigit => isdecimal rt x
  | CLit a => (x =? a)%N
  | CLitI lo => ci_eq rt lo x
  end.

(** Greedy repetition of a class: take one more character when possible,
    and come back to the current position when the rest fails. *)
Fixpoint star {R : Type} (c : cls) (s : str) (k : str -> option R) : option R :=
  match s with
  | x :: s' =>
      if cls_match c x then
        match star c s' k with
        | Some r => Some r
        | None => k s
        end
      else k s
  | [] => k s
  end.

(** The backtracking matcher: [s] is what is left of the subject [whole],
    [g] the groups closed so far, [k] what has to match after [r]. *)
Fixpoint rmatch {R : Type} (r : regex) (whole s : str) (g : caps)
    (k : str -> caps -> option R) : option R :=
  match r with
  | Eps => k s g
  | Bol => if Nat.eqb (length s) (length whole) then k s g else None
  | One c =>
      match s with
      | x :: s' => if cls_match c x then k s' g else None
      | [] => None
      end
  | Star c => star c s (fun s' => k s' g)
  | Seq r1 r2 => rmatch r1 whole s g (fun s' g' => rmatch r2 whole s' g' k)
  | Alt r1 r2 =>
      match rmatch r1 whole s g k with
      | Some x => Some x
      | None => rmatch r2 whole s g k
      end
  | Group n r1 =>
      rmatch r1 whole s g
        (fun s' g' => k s' ((n, take (length s - length s') s) :: g'))
  end.

(** A match: the text before it, the text after it, and its groups. *)
Record found : Type := Found {
  m_before : str;
  m_after : str;
  m_groups : caps
}.

Definition match_here (r : regex) (whole s : str) : option (str * caps) :=
  rmatch r whole s [] (fun s' g => Some (s', g)).

(** [re.match(r, s)] *)
Definition re_match (r : regex) (s : str) : option found :=
  match match_here r s s with
  | Some (s', g) => Some (Found [] s' g)
  | None => None
  end.

(** The leftmost match in the suffix [s] of [whole]. *)
Fixpoint search_from (r : regex) (whole s : str) : option found :=
  match match_here r whole s with
  | Some (s', g) => Some (Found [] s' g)
  | None =>
      match s with
      | [] => None
      | x :: t =>
          match search_from r whole t with
          | Some m => Some (Found (x :: m_before m) (m_after m) (m_groups m))
          | None => None
          end
      end
  end.

(** [re.search(r, s)] *)
Definition re_search (r : regex) (s : str) : option found := search_from r s s.

(** [re.sub(r, repl, s)]: every leftmost non-overlapping match is
    replaced.  After an empty match one character is copied; the patterns of
    the source never match the empty string. *)
Fixpoint sub_loop (fuel : nat) (r : regex) (repl : caps -> str) (whole s : str) : str :=
  match fuel with
  | O => s
  | S fuel' =>
      match search_from r whole s with
      | None => s
      | Some m =>
          let rest := m_after m in
          m_before m ++ repl (m_groups m) ++
            (if Nat.eqb (length (m_before m) + length rest) (length s) then
               match rest with
               | [] => []
               | x :: rest' => x :: sub_loop fuel' r repl whole rest'
               end
             else sub_loop fuel' r repl whole rest)
      end
  end.

Definition re_sub (r : regex) (repl : caps -> str) (s : str) : str :=
  sub_loop (S (length s)) r repl s s.
End Matcher.

End Regex.
Export Regex.

(** ** src/ingestion.py *)

Module Ingestion.

(** A document as the loaders return it; they store zero-based integers
    under ['page'] (PDF) or ['page_number'] (DOCX); [None] is a missing key. *)
Record RawDocument : Type := {
  raw_page_content : str;
  raw_page : option Z;
  raw_page_number : option Z
}.

(** A document as [load_and_process] builds it and as the retriever
    returns it; [None] is a missing key or Python's [None]. *)
Record Metadata : Type := {
  source : option str;
  section : option str;
  citation_ref : option str;
  page_number : option str
}.

Record Document : Type := {
  page_content : str;
  metadata : Metadata
}.

Definition ignore_phrases : list str :=
  [ py "всі права захищені"; py "видавництво"; py "зміст"; py "передмова";
    py "www."; py "http"; py "isbn"; py "удк"; py "ббк"; py "©" ].

(** [(\w+)-\n\s*(\w+)] *)
Definition hyphen_re : regex :=
  (Group 1 (Plus CWord) ;; One (CLit 0x2D) ;; One (CLit LF) ;; Star CSpace ;;
   Group 2 (Plus CWord))%re.

(** The template [\1\2]. *)
Definition hyphen_repl (g : caps) : str :=
  default [] (group 1 g) ++ default [] (group 2 g).

(** [\s+] *)
Definition spaces_re : regex := Plus CSpace.

(** The heading patterns, compiled with [re.IGNORECASE]:
    [^§\s?\d+], [^Розділ], [^Глава], [^Тема]. *)
Definition patterns : list regex :=
  [ (Bol ;; One (CLit 0xA7) ;; Opt CSpace ;; Plus CDigit)%re;
    (Bol ;; ilit (py "розділ"))%re;
    (Bol ;; ilit (py "глава"))%re;
    (Bol ;; ilit (py "тема"))%re ].

Section Processor.
Variable rt : Runtime.
(** [self.file_path] *)
Variable file_path : str.

Definition _clean_text (text : str) : str :=
  match text with
  | [] => []
  | _ =>
      let text := re_sub rt hyphen_re hyphen_repl text in
      let text := replace_char 0xA0 0x20 text in
      let text := re_sub rt spaces_re (fun _ => [0x20%N]) text in
      strip rt text
  end.

Definition _is_garbage (text : str) : bool :=
  let text_lower := str_lower rt text in
  if (length text <? 5)%nat || str_isdigit rt text then true
  else existsb (fun phrase => contains phrase text_lower) ignore_phrases.

Fixpoint first_pattern (pats : list regex) (text : str) : option str :=
  match pats with
  | [] => None
  | pat :: pats' =>
      match re_match rt pat text with
      | Some _ => Some text
      | None => first_pattern pats' text
      end
  end.

Definition _extract_citation_ref (text : str) : option str :=
  first_pattern patterns text.

(** The variables of the loop of [load_and_process]. *)
Record Tracker : Type := {
  current_section : str;
  current_citation_ref : str;
  processed_docs : list Document
}.

Definition start : Tracker :=
  {| current_section := py "Вступ";
     current_citation_ref := py "Загальний контекст";
     processed_docs := [] |}.

(** [doc.metadata.get('page', doc.metadata.get('page_number'))] *)
Definition page_num (doc : RawDocument) : option Z :=
  match raw_page doc with
  | Some p => Some p
  | None => raw_page_number doc
  end.

Definition page_info (doc : RawDocument) : str :=
  match page_num doc with
  | Some n => py ", Стор. " ++ str_of_Z (n + 1)
  | None => []
  end.

(** One iteration of the loop. *)
Definition process_document (st : Tracker) (doc : RawDocument) : Tracker :=
  let content := _clean_text (raw_page_content doc) in
  if _is_garbage content then st
  else
    let ref_candidate := _extract_citation_ref content in
    let '(cur_section, cur_ref) :=
      match ref_candidate with
      | Some ((_ :: _) as r) => (r, r)
      | _ => (current_section st, current_citation_ref st)
      end in
    let injected_content := py "Розділ: " ++ cur_section ++ LF :: py "Текст: " ++ content in
    let new_doc :=
      {| page_content := injected_content;
         metadata :=
           {| source := Some file_path;
              section := Some cur_section;
              citation_ref := Some (cur_ref ++ page_info doc);
              page_number :=
                match page_num doc with
                | Some n => Some (str_of_Z (n + 1))
                | None => None
                end |} |} in
    {| current_section := cur_section;
       current_citation_ref := cur_ref;
       processed_docs := processed_docs st ++ [new_doc] |}.

(** The loop over [raw_documents]. *)
Definition tag_documents (raw_documents : list RawDocument) : Tracker :=
  fold_left process_document raw_documents start.

(** [load_and_process], with the loader's result ([None] when loading
    raised) and the external splitter as arguments. *)
Definition load_and_process (loaded : option (list RawDocument))
    (split_documents : list Document -> list Document) : list Document :=
  match loaded with
  | Some raw_documents => split_documents (processed_docs (tag_documents raw_documents))
  | None => []
  end.
End Processor.

End Ingestion.
Export Ingestion.

(** ** src/citation_handler.py *)

Module Citation.

(** Exceptions and results. *)
Inductive exn : Type := TypeError | ValueError.

Inductive result (A : Type) : Type :=
  | Ok (a : A)
  | Raise (e : exn).
Arguments Ok {A} a.
Arguments Raise {A} e.

Definition bind {A B : Type} (m : result A) (f : A -> result B) : result B :=
  match m with
  | Ok a => f a
  | Raise e => Raise e
  end.

Notation "'let*' x ':=' m 'in' f" := (bind m (fun x => f))
  (at level 10, x name, m at level 100, f at level 200).

Fixpoint map_result {A B : Type} (f : A -> result B) (l : list A) : result (list B) :=
  match l with
  | [] => Ok []
  | x :: r =>
      let* y := f x in
      let* ys := map_result f r in
      Ok (y :: ys)
  end.

(** [sorted(l, key=key)]: the keys are computed first, then the list is
    sorted stably with the comparison [<] of the keys, which may raise. *)
Section Sorted.
Context {A K : Type}.
Variable lt : K -> K -> result bool.

Fixpoint insert_by (x : K * A) (l : list (K * A)) : result (list (K * A)) :=
  match l with
  | [] => Ok [x]
  | y :: l' =>
      let* b := lt (fst y) (fst x) in
      if b then
        let* r := insert_by x l' in
        Ok (y :: r)
      else Ok (x :: l)
  end.

Fixpoint sort_by (l : list (K * A)) : result (list (K * A)) :=
  match l with
  | [] => Ok []
  | x :: l' =>
      let* r := sort_by l' in
      insert_by x r
  end.

Definition sorted (key : A -> result K) (l : list A) : result (list A) :=
  let* keyed := map_result (fun x => let* k := key x in Ok (k, x)) l in
  let* r := sort_by keyed in
  Ok (List.map snd r).
End Sorted.

(** [a < b] on strings: lexicographic on code points. *)
Fixpoint str_lt (a b : str) : bool :=
  match a, b with
  | _, [] => false
  | [], _ :: _ => true
  | x :: a', y :: b' => (x <? y)%N || ((x =? y)%N && str_lt a' b')
  end.

(** Tuples of two strings compare on the first components that differ. *)
Definition pair_lt (a b : str * str) : bool :=
  if bool_decide (fst a = fst b) then str_lt (snd a) (snd b)
  else str_lt (fst a) (fst b).

(** The keys of the page sort: [int(x) if x.isdigit() else str(x)]. *)
Inductive page_key : Type :=
  | KeyInt (z : Z)
  | KeyStr (s : str).

(** [<] between an [int] and a [str] raises [TypeError]. *)
Definition page_key_lt (a b : page_key) : result bool :=
  match a, b with
  | KeyInt x, KeyInt y => Ok (x <? y)%Z
  | KeyStr x, KeyStr y => Ok (str_lt x y)
  | _, _ => Raise TypeError
  end.

(** [p[p.rfind(sep) + 1:]] *)
Fixpoint after_last (sep : char) (p : str) : str :=
  match p with
  | [] => []
  | c :: r =>
      if existsb (N.eqb sep) r then after_last sep r
      else if (c =? sep)%N then r else p
  end.

(** The pattern of [_parse_citation_string], compiled with
    [re.IGNORECASE]: group 1 is [.*], then [,\s*(?:Стор\.?|Page|стор\.?)\s*],
    then group 2 is [.*]. *)
Definition page_marker : regex :=
  Alt (ilit (py "стор") ;; Opt (CLit 0x2E))
    (Alt (ilit (py "page"))
       (ilit (py "стор") ;; Opt (CLit 0x2E)))%re.

Definition citation_tail : regex :=
  (Star CSpace ;; page_marker ;; Star CSpace ;; Group 2 (Star CAny))%re.

Definition citation_re : regex :=
  (Group 1 (Star CAny) ;; One (CLit 0x2C) ;; citation_tail)%re.

Section Manager.
Variable rt : Runtime.

(** [os.path.basename] of [posixpath]. *)
Definition _clean_filename (path : str) : str := after_last 0x2F path.

Definition _parse_citation_string (citation_string : str) : str * option str :=
  match re_search rt citation_re citation_string with
  | Some m =>
      let clean_title := strip rt (default [] (group 1 (m_groups m))) in
      let page_str := strip rt (default [] (group 2 (m_groups m))) in
      (clean_title, Some page_str)
  | None => (citation_string, None)
  end.

(** [int(x)] on a string that passed [isdigit]: every character has to
    be a decimal digit, and the interpreter's digit limit applies. *)
Definition decimal_value (c : char) : option Z :=
  match kind rt c with
  | KDecimal v => Some (Z.of_N v)
  | _ => None
  end.

Definition int_of_str (x : str) : result Z :=
  let limit := int_max_str_digits rt in
  if negb (Nat.eqb limit 0) && (limit <? length x)%nat then Raise ValueError
  else
    match mapM decimal_value x with
    | Some ds => Ok (fold_left (fun acc d => acc * 10 + d)%Z ds 0%Z)
    | None => Raise ValueError
    end.

Definition page_sort_key (x : str) : result page_key :=
  if str_isdigit rt x then
    let* n := int_of_str x in
    Ok (KeyInt n)
  else Ok (KeyStr x).

(** The body of the first loop: one chunk added to [grouped_sources]. *)
Definition add_source (grouped_sources : gmap (str * str) (gset str)) (doc : Document)
    : gmap (str * str) (gset str) :=
  let raw_ref := default (py "Загальний контекст") (citation_ref (metadata doc)) in
  let filepath := default (py "Невідомий файл") (source (metadata doc)) in
  let filename := _clean_filename filepath in
  let '(title, page) := _parse_citation_string raw_ref in
  let key := (title, filename) in
  let grouped_sources :=
    match grouped_sources !! key with
    | None => <[key := ∅]> grouped_sources
    | Some _ => grouped_sources
    end in
  match page with
  | Some ((_ :: _) as page) => alter (fun pages => {[page]} ∪ pages) key grouped_sources
  | _ => grouped_sources
  end.

Definition group_sources (docs : list Document) : gmap (str * str) (gset str) :=
  fold_left add_source docs ∅.

(** [sorted(list(pages), key=...)]; the set is listed in the order the
    interpreter iterates it. *)
Definition sort_pages (pages : gset str) : result (list str) :=
  sorted page_key_lt page_sort_key (set_order rt (elements pages)).

(** The body of the second loop: the line of one group. *)
Definition render_group (grouped_sources : gmap (str * str) (gset str))
    (key : str * str) : result str :=
  let '(title, filename) := key in
  let pages := default ∅ (grouped_sources !! key) in
  if bool_decide (pages = ∅) then
    Ok (title ++ py " — [" ++ filename ++ py "]")
  else
    let* sorted_pages := sort_pages pages in
    let pages_str := join (py ", ") sorted_pages in
    Ok (title ++ py " (Стор. " ++ pages_str ++ py ") — [" ++ filename ++ py "]").

(** [sorted(grouped_sources.keys(), key=lambda x: (x[1], x[0]))] *)
Definition sorted_keys (grouped_sources : gmap (str * str) (gset str))
    : result (list (str * str)) :=
  sorted (fun a b => Ok (pair_lt a b)) (fun x => Ok (snd x, fst x))
    (elements (dom grouped_sources)).

(** [f"{i}. {line}" for i, line in enumerate(output_lines, 1)] *)
Definition numbered (output_lines : list str) : list str :=
  imap (fun i line => str_of_Z (Z.of_nat i + 1) ++ py ". " ++ line) output_lines.

(** ["\n\n" + "=" * 30 + "\nДжерела:\n"] *)
Definition header : str :=
  [LF; LF] ++ replicate 30 0x3D%N ++ LF :: py "Джерела:" ++ [LF].

Definition process_sources (docs : list Document) : result str :=
  match docs with
  | [] => Ok []
  | _ =>
      let grouped_sources := group_sources docs in
      let* keys := sorted_keys grouped_sources in
      let* output_lines := map_result (render_group grouped_sources) keys in
      match output_lines with
      | [] => Ok []
      | _ => Ok (header ++ join [LF] (numbered output_lines))
      end
  end.

Definition merge (answer : str) (docs : list Document) : result str :=
  let* citations := process_sources docs in
  Ok (answer ++ citations).
End Manager.

End Citation.
Export Citation.



(** ** src/ingestion.py: the choice of the loader *)

Module Loading.

(** [p.rfind(c)]: the index of the last [c], or [-1]. *)
Fixpoint rfind_from (c : char) (p : str) (i last : Z) : Z :=
  match p with
  | [] => last
  | x :: r => rfind_from c r (i + 1) (if (x =? c)%N then i else last)
  end.

Definition rfind (c : char) (p : str) : Z := rfind_from c p 0 (-1).

(** [p[i:j]] for [0 <= i]. *)
Definition slice (p : str) (i j : Z) : str :=
  take (Z.to_nat (j - i)) (drop (Z.to_nat i) p).

(** [os.path.splitext] of [posixpath]: the extension starts at the last
    dot of the last component, unless only dots stand before it there. *)
Definition splitext (p : str) : str * str :=
  let sepIndex := rfind 0x2F p in
  let dotIndex := rfind 0x2E p in
  if (sepIndex <? dotIndex)%Z
     && existsb (fun c => negb (c =? 0x2E)%N) (slice p (sepIndex + 1) dotIndex)
  then (take (Z.to_nat dotIndex) p, drop (Z.to_nat dotIndex) p)
  else (p, []).

Inductive loader : Type :=
  | PyPDFLoader
  | UnstructuredWordDocumentLoader.

Section Load.
Variable rt : Runtime.

(** The branch on [ext] in [load_and_process]; [None] is the
  [ValueError] for a format that is not supported. *)
Definition choose_loader (file_path : str) : option loader :=
let ext := str_lower rt (splitext file_path).2 in
if bool_decide (ext = py ".pdf") then Some PyPDFLoader
else if bool_decide (ext = py ".docx") || bool_decide (ext = py ".doc")
     then Some UnstructuredWordDocumentLoader
     else None.

(** [load_and_process] from the path on: [load] is [loader.load()], with
  [None] where it raises; every exception ends in the empty list. *)
Definition load_and_process_file (file_path : str)
  (load : loader -> option (list RawDocument))
  (split_documents : list Document -> list Document) : list Document :=
match choose_loader file_path with
| Some l => load_and_process rt file_path (load l) split_documents
| None => []
end.
End Load.

End Loading.
Export Loading.

(** ** src/vector_store.py *)

Module VectorStore.

(** [os.path.join] of [posixpath]. *)
Definition join2 (path b : str) : str :=
  if starts_with [0x2F%N] b then b
  else if bool_decide (path = []) || bool_decide (last path = Some 0x2F%N) then path ++ b
  else path ++ 0x2F%N :: b.

Definition path_join (a : str) (ps : list str) : str := fold_left join2 ps a.

(** What [__init__] leaves in the object, the embedding model apart. *)
Record VectorStoreManager : Type := {
  collection_name : str;
  model_type : str;
  persist_directory : str
}.

Section Store.
Variable rt : Runtime.

(** [__init__]; [env_key] is [os.getenv("OPENAI_API_KEY")]. *)
Definition init (collection_name model_type base_persist_dir : str)
  (api_key env_key : option str) : result VectorStoreManager :=
let model_type := str_lower rt model_type in
let* model_dir :=
  if bool_decide (model_type = py "openai") then
    let key :=
      match api_key with
      | Some ((_ :: _) as k) => Some k
      | _ => env_key
      end in
    match key with
    | Some (_ :: _) => Ok (py "openai_v3")
    | _ => Raise ValueError
    end
  else if bool_decide (model_type = py "hf") then Ok (py "hf_minilm")
  else Raise ValueError in
Ok {| collection_name := collection_name;
      model_type := model_type;
      persist_directory := path_join base_persist_dir [collection_name; model_dir] |}.

(** Floating point numbers and the index are the interpreter's and
  Chroma's: [fsub] is [-], [fge] is [>=], [one] is [1.0]. *)
Context {F : Type}.
Variable fsub : F -> F -> F.
Variable fge : F -> F -> bool.
Variable one : F.

(** The loop of [search_similarity] over [results_with_score]. *)
Fixpoint filter_results (results_with_score : list (Document * F)) (threshold : F)
  : list (Document * F) :=
match results_with_score with
| [] => []
| (doc, distance) :: rest =>
    let similarity := fsub one distance in
    if fge similarity threshold
    then (doc, similarity) :: filter_results rest threshold
    else filter_results rest threshold
end.

(** [search_similarity] on a loaded index; [similarity_search_with_score]
  is [self.vector_db.similarity_search_with_score]. *)
Definition search_similarity
  (similarity_search_with_score : str -> nat -> list (Document * F))
  (query : str) (k : nat) (threshold : F) : list (Document * F) :=
filter_results (similarity_search_with_score query k) threshold.
End Store.

End VectorStore.
Export VectorStore.

(** ** src/rag_engine.py *)

Module RagEngine.

(** What [chain.invoke] raises. *)
Inductive llm_error : Type :=
  | RateLimitError
  | APIConnectionError
  | OtherError (message : str).

(** The dictionary that [get_answer] returns. *)
Record Answer : Type := {
  answer : str;
  source_documents : list Document
}.

Section Engine.
(** [len(self.tokenizer.encode(s))] and [self.max_context_tokens]. *)
Variable token_count : str -> nat.
Variable max_context_tokens : nat.

Definition format_doc (doc : Document) : str :=
let ref := default (py "Unknown Source") (citation_ref (metadata doc)) in
let content := replace_char LF 0x20 (page_content doc) in
py "[Джерело: " ++ ref ++ py "] -" ++ LF :: content.

Definition _format_docs (docs : list Document) : str :=
join [LF; LF] (List.map format_doc docs).

(** The [while] loop of [_safe_context_builder]: [docs.pop()] until the
  context fits or no chunk is left. *)
Fixpoint pop_until_fits (fuel : nat) (docs : list Document) : list Document :=
match fuel with
| O => docs
| S fuel' =>
    match docs with
    | [] => docs
    | _ :: _ =>
        if (max_context_tokens <? token_count (_format_docs docs))%nat
        then pop_until_fits fuel' (removelast docs)
        else docs
    end
end.

(** [_safe_context_builder] returns the context; it shortens the list it
  was given, which is the second component here. *)
Definition _safe_context_builder (docs : list Document) : str * list Document :=
if (token_count (_format_docs docs) <=? max_context_tokens)%nat
then (_format_docs docs, docs)
else
  let docs := pop_until_fits (length docs) docs in
  (_format_docs docs, docs).

(** [get_answer]: [search] is [self.vector_store.search_similarity(query,
  k=self.k, threshold=0.3)] with [None] where it raises, [invoke] is
  [self.chain.invoke]. *)
Context {F : Type}.
Variable search : str -> option (list (Document * F)).
Variable invoke : str -> str -> llm_error + str.

Definition get_answer (query : str) : Answer :=
match search query with
| None =>
    {| answer := py "Помилка доступу до бази знань."; source_documents := [] |}
| Some found =>
    let docs := List.map fst found in
    match docs with
    | [] =>
        {| answer := py "Я не знайшов інформації за вашим запитом у завантажених документах.";
           source_documents := [] |}
    | _ :: _ =>
        let '(safe_context, docs) := _safe_context_builder docs in
        match invoke safe_context query with
        | inr response_text =>
            {| answer := response_text; source_documents := docs |}
        | inl RateLimitError =>
            {| answer := py "Перевищено ліміт запитів до OpenAI. Спробуйте пізніше.";
               source_documents := [] |}
        | inl APIConnectionError =>
            {| answer := py "Проблеми з підключенням до сервера AI. Перевірте інтернет.";
               source_documents := [] |}
        | inl (OtherError message) =>
            {| answer := py "Сталася технічна помилка при генерації відповіді: " ++ message;
               source_documents := [] |}
        end
    end
end.

(** The body of the chat loop of [main] for one query: the answer merged
  with the citations of its source documents. *)
Definition answer_query (rt : Runtime) (query : str) : result str :=
let result := get_answer query in
merge rt (answer result) (source_documents result).
End Engine.

End RagEngine.
Export RagEngine.


(** ** Vocabulary of the statements *)

Section Vocabulary.
Variable rt : Runtime.

(** *** Fragments *)

(** The normalized text of a raw fragment, and whether the loop keeps it. *)
Definition content (doc : RawDocument) : str := _clean_text rt (raw_page_content doc).

Definition retained (doc : RawDocument) : bool := negb (_is_garbage rt (content doc)).

(** [e] is the document built from the fragment [doc] of the file [fp]
    under the section [sec] and the reference [ref]. *)
Definition emits (fp sec ref : str) (doc : RawDocument) (e : Document) : Prop :=
  page_content e = py "Розділ: " ++ sec ++ LF :: py "Текст: " ++ content doc /\
  source (metadata e) = Some fp /\
  section (metadata e) = Some sec /\
  citation_ref (metadata e) = Some (ref ++ page_info doc) /\
  page_number (metadata e) =
    match page_num doc with
    | Some n => Some (str_of_Z (n + 1))
    | None => None
    end.

(** No retained fragment of [docs] matches a heading pattern. *)
Definition no_heading (docs : list RawDocument) : Prop :=
  Forall (fun r => retained r = true -> _extract_citation_ref rt (content r) = None) docs.

(** *** Words, blanks, lines *)


Definition spaces (w : str) : Prop := Forall (fun c => isspace rt c = true) w.

Definition no_lf (s : str) : Prop := Forall (fun c => (c =? LF)%N = false) s.

Definition dot_free (s : str) : Prop := head s <> Some 0x2E%N.

(** *** Page markers *)

(** [s] starts with the letters [lo] up to case; [m] is [lo] up to case. *)
Fixpoint ci_prefix (lo s : str) : bool :=
  match lo, s with
  | [], _ => true
  | l :: lo', c :: s' => ci_eq rt l c && ci_prefix lo' s'
  | _ :: _, [] => false
  end.

Definition ci_same (lo m : str) : bool :=
  Nat.eqb (length lo) (length m) && ci_prefix lo m.

(** After optional whitespace, [b] starts with a page marker. *)
Definition marker_ahead (b : str) : bool :=
  let b' := lstrip rt b in
  ci_prefix (py "стор") b' || ci_prefix (py "page") b'.

(** Some comma of [p] is followed by a page marker. *)
Fixpoint comma_marker (p : str) : bool :=
  match p with
  | [] => false
  | c :: r => ((c =? 0x2C)%N && marker_ahead r) || comma_marker r
  end.

(** *** Continuations of the matcher on the citation pattern *)

Definition ret : str -> caps -> option (str * caps) := fun s g => Some (s, g).

(** What follows the marker: [\s*] and group 2. *)
Definition after_marker (whole s : str) (g : caps) : option (str * caps) :=
  rmatch rt (Star CSpace ;; Group 2 (Star CAny))%re whole s g ret.

(** What follows group 1, closed at the suffix [s'] of [s]. *)
Definition after_title (whole s s' : str) : option (str * caps) :=
  rmatch rt (One (CLit 0x2C) ;; citation_tail)%re whole s'
    [(1%nat, take (length s - length s') s)] ret.

(** *** Page tokens *)

(** A non-empty run of decimal digits within the digit limit of [int]. *)
Definition decimal_token (p : str) : bool :=
  negb (bool_decide (p = [])) && forallb (isdecimal rt) p
  && (Nat.eqb (int_max_str_digits rt) 0 || (length p <=? int_max_str_digits rt)%nat).

(** [int(a) <= int(b)] *)
Definition int_le (a b : str) : Prop :=
  exists x y, int_of_str rt a = Ok x /\ int_of_str rt b = Ok y /\ (x <= y)%Z.

Definition key_is_int (k : page_key) : bool :=
  match k with
  | KeyInt _ => true
  | KeyStr _ => false
  end.

(** A page token with its sort key. *)
Definition keyed (x : str) : result (page_key * str) :=
  let* k := page_sort_key rt x in Ok (k, x).

(** The tokens of a page set are all non-numeric, or all decimal. *)
Definition pages_sortable (ps : gset str) : Prop :=
  (forall p, p ∈ ps -> str_isdigit rt p = false) \/
  (forall p, p ∈ ps -> decimal_token p = true).

(** *** Chunks *)

Definition doc_ref (d : Document) : str :=
  default (py "Загальний контекст") (citation_ref (metadata d)).

Definition doc_file (d : Document) : str :=
  _clean_filename (default (py "Невідомий файл") (source (metadata d))).

(** The group key of a chunk, and its page token. *)
Definition doc_key (d : Document) : str * str :=
  ((_parse_citation_string rt (doc_ref d)).1, doc_file d).

Definition doc_page (d : Document) : option str :=
  (_parse_citation_string rt (doc_ref d)).2.

Definition page_set (o : option str) : gset str :=
  match o with
  | Some ((_ :: _) as p) => {[p]}
  | _ => ∅
  end.

(** The page tokens of the chunks of [docs] whose key is [k]. *)
Fixpoint key_pages (k : str * str) (docs : list Document) : gset str :=
  match docs with
  | [] => ∅
  | d :: r => (if decide (doc_key d = k) then page_set (doc_page d) else ∅) ∪ key_pages k r
  end.
End Vocabulary.

(** The number that a string of ASCII digits writes in base ten. *)
Definition ascii_digit (c : char) : bool := between 0x30 0x39 c.

Definition digits_value (s : str) : N :=
  fold_left (fun acc c => acc * 10 + (c - 0x30))%N s 0%N.

Section Comparisons.
Context {A K : Type}.
Variable lt : K -> K -> result bool.

(** The comparison is defined between any two of the keys. *)
Definition comparable (ks : list K) : Prop :=
  forall a b, a ∈ ks -> b ∈ ks -> exists v, lt a b = Ok v.

(** [a] may stand before [b]: [b < a] is false. *)
Definition key_le (a b : K * A) : Prop := lt b.1 a.1 = Ok false.
End Comparisons.

(** Inputs of the examples: a raw fragment, and a retrieved chunk with its
    [citation_ref] and [source]. *)
Definition raw (text : string) (page : option Z) : RawDocument :=
  {| raw_page_content := py text; raw_page := page; raw_page_number := None |}.

Definition chunk (ref src : string) : Document :=
  {| page_content := [];
     metadata :=
       {| source := Some (py src); section := None;
          citation_ref := Some (py ref); page_number := None |} |}.


(** ** Vocabulary of the further properties *)

Section Breaks.
Variable rt : Runtime.



End Breaks.

Section Normal.
Variable rt : Runtime.

(** Every run of whitespace of [s] replaced by one space; [after_space]
    says that the character before [s] was whitespace. *)
Fixpoint squeeze (after_space : bool) (s : str) : str :=
  match s with
  | [] => []
  | c :: r =>
      if isspace rt c then
        if after_space then squeeze true r else 0x20%N :: squeeze true r
      else c :: squeeze false r
  end.

(** Two whitespace characters stand side by side in [s]. *)
Fixpoint space_run (s : str) : bool :=
  match s with
  | [] => false
  | c :: r =>
      (isspace rt c && match r with d :: _ => isspace rt d | [] => false end)
      || space_run r
  end.

(** The only whitespace of [s] is the space U+0020. *)
Definition plain_spaces (s : str) : Prop :=
  Forall (fun c => isspace rt c = true -> c = 0x20%N) s.

(** [s] neither starts nor ends with whitespace. *)
Definition trimmed (s : str) : Prop :=
  (forall c, head s = Some c -> isspace rt c = false) /\
  (forall c, last s = Some c -> isspace rt c = false).

(** The shape of a normalized text. *)
Definition normal (s : str) : Prop :=
  plain_spaces s /\ space_run s = false /\ trimmed s.

(** [text] starts like a heading: a section sign, at most one whitespace
    character and a decimal digit, or one of the three heading words in
    any letter case. *)
Definition paragraph_start (text : str) : bool :=
  match text with
  | c :: d :: r =>
      (c =? 0xA7)%N &&
      (isdecimal rt d ||
       (isspace rt d && match r with e :: _ => isdecimal rt e | [] => false end))
  | _ => false
  end.

Definition heading_start (text : str) : bool :=
  paragraph_start text || ci_prefix rt (py "розділ") text
  || ci_prefix rt (py "глава") text || ci_prefix rt (py "тема") text.

(** What the tracker keeps as its context: the section and the reference
    are one heading, in normal form, or they are the two initial names. *)
Definition context_ok (sec ref : str) : Prop :=
  normal ref /\ ref <> [] /\
  (sec = ref \/ (sec = py "Вступ" /\ ref = py "Загальний контекст")).

(** [e] is the document of the fragment [d] of the file [fp], built in
    a context that the tracker can be in. *)
Definition tagged (fp : str) (d : RawDocument) (e : Document) : Prop :=
  exists sec ref, emits rt fp sec ref d e /\ context_ok sec ref.
End Normal.

(** A raw fragment with a page number that is not negative and whose
    display has at most 640 digits. *)
Definition paged (doc : RawDocument) : Prop :=
  exists n, page_num doc = Some n /\ (0 <= n)%Z /\
            (length (str_of_Z (n + 1)) <=? 640)%nat = true.

(** [a < b] for group keys as the aggregator orders them: by file name,
    then by title. *)
Definition key_before (a b : str * str) : Prop :=
  pair_lt (a.2, a.1) (b.2, b.1) = true.

(** The key sort of [process_sources] on a listing [l] of the keys of the
    dictionary. *)
Definition sort_keys_of (l : list (str * str)) : result (list (str * str)) :=
  sorted (fun a b => Ok (pair_lt a b)) (fun x => Ok (snd x, fst x)) l.

(** A chunk without the [citation_ref] and [source] metadata. *)
Definition bare (d : Document) : Prop :=
  citation_ref (metadata d) = None /\ source (metadata d) = None.

(** No slash in [s]; no dot in [s]. *)
Definition no_slash (s : str) : Prop := Forall (fun c => (c =? 0x2F)%N = false) s.
Definition no_dot (s : str) : Prop := Forall (fun c => (c =? 0x2E)%N = false) s.

(** The reference under which the context shows a chunk, and the number of
    line feeds of a string. *)
Definition context_ref (doc : Document) : str :=
  default (py "Unknown Source") (citation_ref (metadata doc)).

Definition count_lf (s : str) : nat := length (List.filter (N.eqb LF) s).

(** A non-empty key is at hand: the argument, or the environment where the
    argument is missing or empty. *)
Definition key_at_hand (api_key env_key : option str) : Prop :=
  (exists k, api_key = Some k /\ k <> []) \/
  ((api_key = None \/ api_key = Some []) /\ exists k, env_key = Some k /\ k <> []).

(** Some character of the last component of [root] is not a dot. *)
Definition named (root : str) : Prop :=
  existsb (fun c => negb (c =? 0x2E)%N) (after_last 0x2F root) = true.


(** ** Facts about the character database *)

Ltac bool_to_prop :=
  repeat match goal with
  | H : _ && _ = true |- _ => apply andb_true_iff in H; destruct H
  | H : _ || _ = false |- _ => apply orb_false_iff in H; destruct H
  | H : _ || _ = true |- _ => apply orb_true_iff in H; destruct H
  | H : _ && _ = false |- _ => apply andb_false_iff in H; destruct H
  | H : negb _ = true |- _ => apply negb_true_iff in H
  | H : negb _ = false |- _ => apply negb_false_iff in H
  | H : (_ <=? _)%N = true |- _ => apply N.leb_le in H
  | H : (_ <=? _)%N = false |- _ => apply N.leb_gt in H
  | H : (_ <? _)%N = true |- _ => apply N.ltb_lt in H
  | H : (_ <? _)%N = false |- _ => apply N.ltb_ge in H
  | H : (_ =? _)%N = true |- _ => apply N.eqb_eq in H
  | H : (_ =? _)%N = false |- _ => apply N.eqb_neq in H
  end.

Lemma table_space_lower c : table_kind c = KSpace -> table_lower c = c.
Proof.
  unfold table_kind, table_lower, between. intros H.
  repeat match type of H with context [if ?b then _ else _] => destruct b eqn:? end;
    try discriminate;
    repeat match goal with |- context [if ?b then _ else _] => destruct b eqn:? end;
    try reflexivity; bool_to_prop; lia.
Qed.

Section CharFacts.
Variable rt : Runtime.



Lemma ci_eq_space lo c : isspace rt c = true -> ci_eq rt lo c = (c =? lo)%N.
Proof.
  unfold isspace, ci_eq, tolower, kind. intros H.
  destruct (in_table c).
  - destruct (table_kind c) eqn:E; try discriminate.
    rewrite (table_space_lower c E). simpl. apply orb_false_r.
  - destruct (ext_kind rt c); try discriminate. simpl. apply orb_false_r.
Qed.

Lemma ci_eq_not_space lo c :
  isspace rt lo = false -> ci_eq rt lo c = true -> isspace rt c = false.
Proof.
  intros Hlo H. destruct (isspace rt c) eqn:E; [|reflexivity].
  rewrite ci_eq_space in H by assumption. apply N.eqb_eq in H. congruence.
Qed.

Lemma lstrip_id s : Forall (fun c => isspace rt c = false) s -> lstrip rt s = s.
Proof. destruct 1 as [|x s Hx _]; simpl; [reflexivity|now rewrite Hx]. Qed.

Lemma strip_id s : Forall (fun c => isspace rt c = false) s -> strip rt s = s.
Proof.
  intros H. unfold strip, rstrip. rewrite (lstrip_id s H).
  rewrite lstrip_id; [apply rev_involutive|]. now apply List.Forall_rev.
Qed.

Lemma lstrip_app_space a b : spaces rt a -> lstrip rt (a ++ b) = lstrip rt b.
Proof. induction 1 as [|x a Hx _ IH]; [reflexivity|]. simpl. now rewrite Hx. Qed.

Lemma lstrip_suffix s : exists a, s = a ++ lstrip rt s /\ spaces rt a.
Proof.
  induction s as [|x s (a & E & Ha)]; [exists []; split; [reflexivity|constructor]|].
  simpl. destruct (isspace rt x) eqn:Hx.
  - exists (x :: a). split; [now rewrite <- app_comm_cons, <- E|now constructor].
  - exists []. split; [reflexivity|constructor].
Qed.

Lemma no_lf_lstrip s : no_lf s -> no_lf (lstrip rt s).
Proof.
  intros H. destruct (lstrip_suffix s) as (a & E & _). rewrite E in H.
  now apply Forall_app in H as [_ H].
Qed.

Lemma lstrip_idem s : lstrip rt (lstrip rt s) = lstrip rt s.
Proof.
  induction s as [|x s IH]; [reflexivity|]. simpl.
  destruct (isspace rt x) eqn:Hx; [exact IH|]. simpl. now rewrite Hx.
Qed.

Lemma strip_lstrip s : strip rt (lstrip rt s) = strip rt s.
Proof. unfold strip. now rewrite lstrip_idem. Qed.

Lemma spaces_no_comma w : spaces rt w -> Forall (fun c => (c =? 0x2C)%N = false) w.
Proof.
  intros H. eapply Forall_impl; [exact H|]. intros c Hc.
  destruct (N.eqb_spec c 0x2C) as [->|]; [|reflexivity].
  vm_compute in Hc. discriminate.
Qed.
End CharFacts.

(** Boolean checks for closed strings. *)
Lemma no_lf_check s : forallb (fun c => negb (c =? LF)%N) s = true -> no_lf s.
Proof.
  intros H. apply Forall_forall. intros c Hc. rewrite forallb_forall in H.
  apply negb_true_iff, H. now apply list_elem_of_In.
Qed.

Lemma spaces_check rt s : forallb (isspace rt) s = true -> spaces rt s.
Proof.
  intros H. apply Forall_forall. intros c Hc. rewrite forallb_forall in H.
  apply H. now apply list_elem_of_In.
Qed.

Lemma replace_char_absent old new s :
  Forall (fun c => (c =? old)%N = false) s -> replace_char old new s = s.
Proof.
  induction 1 as [|x s Hx _ IH]; [reflexivity|].
  unfold replace_char in *. simpl. now rewrite Hx, IH.
Qed.

Lemma take_app_diff {A} (a b : list A) : take (length (a ++ b) - length b) (a ++ b) = a.
Proof.
  rewrite length_app. replace (length a + length b - length b)%nat with (length a) by lia.
  apply take_app_length.
Qed.

(** ** Facts about the matcher *)

Section StarFacts.
Variable rt : Runtime.
Context {R : Type}.
Implicit Types (k : str -> option R) (s a b : str).

Lemma star_stop c x s k : cls_match rt c x = false -> star rt c (x :: s) k = k (x :: s).
Proof. intros H. simpl. now rewrite H. Qed.

(** Where the rest fails at every position, the repetition fails. *)
Lemma star_none c s k : (forall i, k (drop i s) = None) -> star rt c s k = None.
Proof.
  induction s as [|x s IH]; intros H; simpl.
  - apply (H 0%nat).
  - rewrite IH; [|intros i; apply (H (S i))].
    destruct (cls_match rt c x); apply (H 0%nat).
Qed.

(** Greediness: a match further to the right wins. *)
Lemma star_app c a b k r :
  Forall (fun x => cls_match rt c x = true) a ->
  star rt c b k = Some r -> star rt c (a ++ b) k = Some r.
Proof.
  induction 1 as [|x a Hx _ IH]; intros H; simpl; [assumption|].
  now rewrite Hx, (IH H).
Qed.

Lemma star_all c a k r :
  Forall (fun x => cls_match rt c x = true) a ->
  k [] = Some r -> star rt c a k = Some r.
Proof. intros Ha Hk. rewrite <- (app_nil_r a). now apply star_app. Qed.

Lemma star_sound c s k r :
  star rt c s k = Some r ->
  exists a b, s = a ++ b /\ Forall (fun x => cls_match rt c x = true) a /\ k b = Some r.
Proof.
  revert r. induction s as [|x s IH]; intros r H; simpl in H.
  - exists [], []. auto.
  - destruct (cls_match rt c x) eqn:Hx.
    + destruct (star rt c s k) as [r'|] eqn:Hs.
      * destruct (IH r' eq_refl) as (a & b & -> & Ha & Hb).
        exists (x :: a), b. repeat split; [constructor; assumption|congruence].
      * exists [], (x :: s). auto.
    + exists [], (x :: s). auto.
Qed.

Lemma star_total c s k : (forall x, is_Some (k x)) -> is_Some (star rt c s k).
Proof.
  intros Hk. induction s as [|x s IH]; simpl; [apply Hk|].
  destruct (cls_match rt c x); [|apply Hk].
  destruct (star rt c s k); [eauto|apply Hk].
Qed.

(** Before a rest that cannot fail, [\s*] takes all the whitespace. *)
Lemma star_space_total s k :
  (forall x, is_Some (k x)) -> star rt CSpace s k = k (lstrip rt s).
Proof.
  intros Hk. induction s as [|x s IH]; [reflexivity|].
  cbn [star lstrip cls_match]. destruct (isspace rt x); [|reflexivity].
  rewrite IH. destruct (Hk (lstrip rt s)) as [r ->]. reflexivity.
Qed.
End StarFacts.

Section SearchFacts.
Variable rt : Runtime.
Implicit Types (s a b w : str).

Lemma search_from_here r whole s s' g :
  match_here rt r whole s = Some (s', g) ->
  search_from rt r whole s = Some (Found [] s' g).
Proof. intros H. destruct s; simpl; now rewrite H. Qed.

Lemma search_sound r whole s f :
  search_from rt r whole s = Some f ->
  exists a b x, s = a ++ b /\ match_here rt r whole b = Some x.
Proof.
  revert f. induction s as [|c s IH]; intros f H; cbn [search_from] in H.
  - destruct (match_here rt r whole []) as [[s' g]|] eqn:E; [|discriminate].
    exists [], [], (s', g). auto.
  - destruct (match_here rt r whole (c :: s)) as [[s' g]|] eqn:E.
    + exists [], (c :: s), (s', g). auto.
    + destruct (search_from rt r whole s) as [f'|]; [|discriminate].
      destruct (IH f' eq_refl) as (a & b & x & -> & Hx).
      exists (c :: a), b, x. auto.
Qed.

Lemma sub_loop_no_match fuel r repl whole s :
  search_from rt r whole s = None -> sub_loop rt fuel r repl whole s = s.
Proof. intros H. destruct fuel; simpl; [reflexivity|now rewrite H]. Qed.

Lemma spaces_no_match whole s :
  Forall (fun c => isspace rt c = false) s -> search_from rt spaces_re whole s = None.
Proof.
  induction 1 as [|x s Hx _ IH]; [reflexivity|].
  cbn [search_from]. rewrite IH.
  unfold match_here, spaces_re, Plus. cbn [rmatch cls_match]. now rewrite Hx.
Qed.
End SearchFacts.


(** ** The Text Normalizer *)

Section Hyphen.
Variable rt : Runtime.
Implicit Types (s a b w : str).



End Hyphen.


(** ** The Section/Citation Tracker *)

Section Tracker.
Variable rt : Runtime.
Variable fp : str.
Implicit Types (st : Tracker) (doc d : RawDocument).

Lemma first_pattern_text pats text h : first_pattern rt pats text = Some h -> h = text.
Proof.
  induction pats as [|p pats IH]; simpl; [discriminate|].
  destruct (re_match rt p text); [now intros [= <-]|exact IH].
Qed.

Lemma extract_text text h : _extract_citation_ref rt text = Some h -> h = text.
Proof. apply first_pattern_text. Qed.

Lemma not_garbage_nonempty text : _is_garbage rt text = false -> text <> [].
Proof. intros H ->. vm_compute in H. discriminate. Qed.

Lemma process_garbage st doc :
  _is_garbage rt (content rt doc) = true -> process_document rt fp st doc = st.
Proof. intros H. unfold process_document. fold (content rt doc). now rewrite H. Qed.

Lemma process_heading st doc h :
  _is_garbage rt (content rt doc) = false ->
  _extract_citation_ref rt (content rt doc) = Some h ->
  exists e, emits rt fp h h doc e /\
    process_document rt fp st doc =
    {| current_section := h; current_citation_ref := h;
       processed_docs := processed_docs st ++ [e] |}.
Proof.
  intros G E. pose proof (extract_text _ _ E) as ->.
  unfold process_document, emits. fold (content rt doc). rewrite G, E.
  destruct (content rt doc) as [|c t] eqn:C; [now apply not_garbage_nonempty in G|].
  eexists. split; [|reflexivity].
  cbv beta iota delta [page_content metadata source section citation_ref page_number].
  repeat split.
Qed.

Lemma process_plain st doc :
  _is_garbage rt (content rt doc) = false ->
  _extract_citation_ref rt (content rt doc) = None ->
  exists e, emits rt fp (current_section st) (current_citation_ref st) doc e /\
    process_document rt fp st doc =
    {| current_section := current_section st;
       current_citation_ref := current_citation_ref st;
       processed_docs := processed_docs st ++ [e] |}.
Proof.
  intros G E. unfold process_document, emits. fold (content rt doc). rewrite G, E.
  eexists. split; [|reflexivity].
  cbv beta iota delta [page_content metadata source section citation_ref page_number].
  repeat split.
Qed.

(** Without a heading the context stays, and every retained fragment is
    tagged with it. *)
Lemma run_plain rest st :
  no_heading rt rest ->
  exists out,
    fold_left (process_document rt fp) rest st =
    {| current_section := current_section st;
       current_citation_ref := current_citation_ref st;
       processed_docs := processed_docs st ++ out |} /\
    Forall2 (emits rt fp (current_section st) (current_citation_ref st))
      (List.filter (retained rt) rest) out.
Proof.
  intros H. revert st. induction H as [|r rest Hr _ IH]; intros st.
  - exists []. rewrite app_nil_r. destruct st. split; [reflexivity|constructor].
  - cbn [fold_left List.filter]. unfold retained in *.
    destruct (_is_garbage rt (content rt r)) eqn:G; cbn [negb] in *.
    + rewrite process_garbage by exact G. apply IH.
    + destruct (process_plain st r G (Hr eq_refl)) as (e & He & ->).
      destruct (IH {| current_section := current_section st;
                      current_citation_ref := current_citation_ref st;
                      processed_docs := processed_docs st ++ [e] |}) as (out & -> & F).
      cbn [current_section current_citation_ref processed_docs] in *.
      exists (e :: out). rewrite <- app_assoc. split; [reflexivity|].
      constructor; assumption.
Qed.

Lemma garbage_filtered docs st :
  fold_left (process_document rt fp) docs st =
  fold_left (process_document rt fp) (List.filter (retained rt) docs) st.
Proof.
  revert st. induction docs as [|d docs IH]; intros st; [reflexivity|].
  cbn [fold_left List.filter]. unfold retained at 1.
  destruct (_is_garbage rt (content rt d)) eqn:G; cbn [negb fold_left].
  - rewrite process_garbage by exact G. apply IH.
  - apply IH.
Qed.

Lemma is_garbage_iff text :
  _is_garbage rt text = true <->
  (length text < 5)%nat \/ str_isdigit rt text = true \/
  exists phrase, phrase ∈ ignore_phrases /\ contains phrase (str_lower rt text) = true.
Proof.
  unfold _is_garbage. destruct (length text <? 5)%nat eqn:L; cbn [orb].
  { apply Nat.ltb_lt in L. tauto. }
  apply Nat.ltb_ge in L. destruct (str_isdigit rt text); [tauto|].
  rewrite existsb_exists. split.
  - intros (ph & Hin & Hc). right. right. exists ph.
    split; [now apply list_elem_of_In|exact Hc].
  - intros [H|[H|(ph & Hin & Hc)]]; [lia|discriminate|].
    exists ph. split; [now apply list_elem_of_In|exact Hc].
Qed.

Lemma process_retained st doc :
  retained rt doc = true ->
  exists e,
    processed_docs (process_document rt fp st doc) = processed_docs st ++ [e] /\
    emits rt fp (current_section (process_document rt fp st doc))
      (current_citation_ref (process_document rt fp st doc)) doc e.
Proof.
  unfold retained. intros G. apply negb_true_iff in G.
  destruct (_extract_citation_ref rt (content rt doc)) as [h|] eqn:E.
  - destruct (process_heading st doc h G E) as (e & He & ->). now exists e.
  - destruct (process_plain st doc G E) as (e & He & ->). now exists e.
Qed.
End Tracker.

(** C1. A retained fragment [d] that matches a heading pattern makes its
    own normalized text [h] the current section and the current citation
    reference before its document is built: the document of [d] itself and the
    documents of all retained fragments after it, up to the next heading
    match, carry the section [h] and the citation reference [h] followed by
    their own page suffix; the context is still [h] after them. *)
Theorem heading_sticks (rt : Runtime) (fp : str) (st : Tracker)
    (d : RawDocument) (rest : list RawDocument) (h : str) :
  _is_garbage rt (content rt d) = false ->
  _extract_citation_ref rt (content rt d) = Some h ->
  no_heading rt rest ->
  exists e out,
    h = content rt d /\
    fold_left (process_document rt fp) (d :: rest) st =
    {| current_section := h; current_citation_ref := h;
       processed_docs := processed_docs st ++ e :: out |} /\
    emits rt fp h h d e /\
    Forall2 (emits rt fp h h) (List.filter (retained rt) rest) out.
Proof.
  intros G E Hrest. cbn [fold_left].
  destruct (process_heading rt fp st d h G E) as (e & He & ->).
  destruct (run_plain rt fp rest {| current_section := h; current_citation_ref := h;
                                    processed_docs := processed_docs st ++ [e] |} Hrest)
    as (out & -> & F).
  cbn [current_section current_citation_ref processed_docs] in *.
  exists e, out. rewrite <- app_assoc.
  split; [now apply extract_text with (rt := rt)|]. split; [reflexivity|]. split; assumption.
Qed.

Lemma heading_sticks_witness :
  let d := raw "Розділ 1. Основи" (Some 0%Z) in
  let rest := [raw "Перший абзац тексту" (Some 0%Z); raw "17" (Some 1%Z);
               raw "Другий абзац тексту" (Some 1%Z)] in
  let h := py "Розділ 1. Основи" in
  _is_garbage py_default (content py_default d) = false /\
  _extract_citation_ref py_default (content py_default d) = Some h /\
  no_heading py_default rest /\
  exists e out,
    h = content py_default d /\
    fold_left (process_document py_default (py "book.pdf")) (d :: rest) start =
    {| current_section := h; current_citation_ref := h;
       processed_docs := processed_docs start ++ e :: out |} /\
    emits py_default (py "book.pdf") h h d e /\
    Forall2 (emits py_default (py "book.pdf") h h)
      (List.filter (retained py_default) rest) out.
Proof.
  intros d rest h.
  assert (G : _is_garbage py_default (content py_default d) = false) by reflexivity.
  assert (E : _extract_citation_ref py_default (content py_default d) = Some h)
    by reflexivity.
  assert (R : no_heading py_default rest) by (repeat constructor).
  split; [exact G|]. split; [exact E|]. split; [exact R|].
  exact (heading_sticks py_default (py "book.pdf") start d rest h G E R).
Defined.

(** C4. A fragment classified as garbage (fewer than five characters, all
    digits, or containing a denylisted phrase in its lowercase) leaves the
    tracker as it is: no change of section or citation reference and no
    document; a pass over a sequence is the pass over its retained fragments.
    This holds also where the text matches a heading pattern, as for
    ["Розділ 2. Зміст"]. *)
Theorem garbage_is_dropped (rt : Runtime) (fp : str) :
  (forall st doc,
      _is_garbage rt (content rt doc) = true -> process_document rt fp st doc = st) /\
  (forall docs st,
      fold_left (process_document rt fp) docs st =
      fold_left (process_document rt fp) (List.filter (retained rt) docs) st) /\
  (forall text,
      _is_garbage rt text = true <->
      (length text < 5)%nat \/ str_isdigit rt text = true \/
      exists phrase, phrase ∈ ignore_phrases /\ contains phrase (str_lower rt text) = true) /\
  (let d := raw "Розділ 2. Зміст" (Some 3%Z) in
   _extract_citation_ref rt (content rt d) = Some (py "Розділ 2. Зміст") /\
   _is_garbage rt (content rt d) = true /\
   tag_documents rt fp [d] = start).
Proof.
  split; [apply process_garbage|]. split; [apply garbage_filtered|].
  split; [apply is_garbage_iff|]. vm_compute. repeat split.
Qed.

Lemma garbage_is_dropped_witness :
  let d := raw "§ 7" (Some 2%Z) in
  let st := {| current_section := py "Розділ 1"; current_citation_ref := py "Розділ 1";
               processed_docs := [] |} in
  _is_garbage py_default (content py_default d) = true /\
  _extract_citation_ref py_default (content py_default d) = Some (py "§ 7") /\
  process_document py_default (py "book.pdf") st d = st.
Proof.
  intros d st.
  assert (G : _is_garbage py_default (content py_default d) = true) by reflexivity.
  split; [exact G|]. split; [reflexivity|].
  exact (proj1 (garbage_is_dropped py_default (py "book.pdf")) st d G).
Defined.


(** ** The decimal writing of page numbers *)

Lemma digits_of_spec fuel n acc :
  (0 < fuel)%nat -> (n < 2 ^ N.of_nat fuel)%N ->
  exists X, digits_of fuel n acc = X ++ acc /\ X <> [] /\
            Forall (fun c => ascii_digit c = true) X /\
            forall v, fold_left (fun a c => a * 10 + (c - 0x30))%N X v
                      = (v * 10 ^ N.of_nat (length X) + n)%N.
Proof.
  revert n acc. induction fuel as [|f IH]; intros n acc Hf Hn; [lia|].
  cbn [digits_of].
  assert (Hd : ascii_digit (digit_char (n mod 10)) = true).
  { unfold ascii_digit, between, digit_char.
    pose proof (N.mod_upper_bound n 10 ltac:(lia)) as Hm. revert Hm.
    generalize (n mod 10)%N. intros x Hx.
    apply andb_true_iff. split; apply N.leb_le; lia. }
  assert (Hv : (digit_char (n mod 10) - 0x30 = n mod 10)%N)
    by (unfold digit_char; generalize (n mod 10)%N; intros; lia).
  destruct (N.ltb_spec n 10) as [L|L].
  - exists [digit_char (n mod 10)]. split; [reflexivity|]. split; [discriminate|].
    split; [repeat constructor; exact Hd|]. intros v. cbn [fold_left length].
    rewrite Hv, N.mod_small by exact L. change (N.of_nat 1) with 1%N.
    rewrite N.pow_1_r. reflexivity.
  - destruct (IH (n / 10)%N (digit_char (n mod 10) :: acc)) as (X & E & NX & FX & V).
    { destruct f; [|lia]. change (2 ^ N.of_nat 1)%N with 2%N in Hn. lia. }
    { rewrite Nat2N.inj_succ, N.pow_succ_r' in Hn.
      apply N.Div0.div_lt_upper_bound. lia. }
    exists (X ++ [digit_char (n mod 10)]). split; [now rewrite E, <- app_assoc|].
    split; [now destruct X|].
    split; [apply Forall_app; split; [exact FX|repeat constructor; exact Hd]|].
    intros v. rewrite fold_left_app, V. cbn [fold_left]. rewrite Hv, length_app. cbn [length].
    rewrite Nat2N.inj_add. change (N.of_nat 1) with 1%N. rewrite N.pow_add_r, N.pow_1_r.
    pose proof (N.div_mod n 10 ltac:(lia)) as Hdm. revert Hdm.
    generalize (n mod 10)%N, (n / 10)%N, (10 ^ N.of_nat (length X))%N. intros; nia.
Qed.

Lemma str_of_N_spec n :
  Forall (fun c => ascii_digit c = true) (str_of_N n) /\ digits_value (str_of_N n) = n.
Proof.
  unfold str_of_N, digits_value.
  destruct (digits_of_spec (S (N.to_nat (N.log2 n))) n []) as (X & -> & _ & F & V); [lia| |].
  - rewrite Nat2N.inj_succ, N2Nat.id. destruct n as [|p]; [reflexivity|].
    apply N.log2_spec. reflexivity.
  - rewrite app_nil_r. split; [exact F|]. rewrite V. lia.
Qed.

Lemma str_of_Z_spec z :
  (0 <= z)%Z ->
  Forall (fun c => ascii_digit c = true) (str_of_Z z) /\
  Z.of_N (digits_value (str_of_Z z)) = z.
Proof.
  intros Hz. destruct (str_of_N_spec (Z.to_N z)) as [F V].
  destruct z as [|p|p]; [| |lia]; cbn [str_of_Z]; (split; [exact F|]); rewrite V; lia.
Qed.

(** C8. The document of a retained fragment with the zero-based page [n]
    has a citation reference that ends with the suffix [", Стор. "] and the
    decimal writing of [n + 1], and the [page_number] metadata is that writing
    (page 0 is written ["1"], and the writing of a page [n >= 0] is made of
    ASCII digits that read [n + 1]); a fragment without a page has no suffix
    and no [page_number]. *)
Theorem page_display_is_one_based (rt : Runtime) (fp : str) :
  (forall st doc,
      retained rt doc = true ->
      let st' := process_document rt fp st doc in
      exists e,
        processed_docs st' = processed_docs st ++ [e] /\
        match page_num doc with
        | Some n =>
            citation_ref (metadata e)
            = Some (current_citation_ref st' ++ py ", Стор. " ++ str_of_Z (n + 1)) /\
            page_number (metadata e) = Some (str_of_Z (n + 1))
        | None =>
            citation_ref (metadata e) = Some (current_citation_ref st') /\
            page_number (metadata e) = None
        end) /\
  str_of_Z (0 + 1) = py "1" /\
  (forall n : Z,
      (0 <= n)%Z ->
      Forall (fun c => ascii_digit c = true) (str_of_Z (n + 1)) /\
      Z.of_N (digits_value (str_of_Z (n + 1))) = (n + 1)%Z).
Proof.
  split; [|split; [reflexivity|intros n Hn; apply str_of_Z_spec; lia]].
  intros st doc Hr st'.
  destruct (process_retained rt fp st doc Hr) as (e & Hd & _ & _ & _ & Hc & Hp).
  exists e. split; [exact Hd|]. fold st' in Hc. rewrite Hc, Hp. unfold page_info.
  destruct (page_num doc); [|rewrite app_nil_r]; split; reflexivity.
Qed.

Lemma page_display_is_one_based_witness :
  let doc := raw "Текст першої сторінки" (Some 0%Z) in
  retained py_default doc = true /\
  exists e,
    processed_docs (process_document py_default (py "book.pdf") start doc) = [e] /\
    citation_ref (metadata e) = Some (py "Загальний контекст, Стор. 1") /\
    page_number (metadata e) = Some (py "1").
Proof.
  intros doc.
  assert (R : retained py_default doc = true) by reflexivity.
  split; [exact R|].
  destruct (proj1 (page_display_is_one_based py_default (py "book.pdf")) start doc R)
    as (e & Hd & Hc & Hp).
  exists e. split; [exact Hd|]. split; [exact Hc|exact Hp].
Defined.


(** ** The Citation Parser *)

Section ParserEngine.
Variable rt : Runtime.
Implicit Types (s a b m lo p t w : str) (g : caps)
  (k : str -> caps -> option (str * caps)).

Lemma ilit_match lo whole s g k :
  rmatch rt (ilit lo) whole s g k =
  if ci_prefix rt lo s then k (drop (length lo) s) g else None.
Proof.
  revert s. induction lo as [|l lo IH]; intros s; [reflexivity|].
  cbn [ilit rmatch ci_prefix cls_match]. destruct s as [|c s]; [reflexivity|].
  destruct (ci_eq rt l c); [apply IH|reflexivity].
Qed.

Lemma ci_same_prefix lo m x : ci_same rt lo m = true -> ci_prefix rt lo (m ++ x) = true.
Proof.
  unfold ci_same. intros H. apply andb_true_iff in H as [_ H].
  revert m H. induction lo as [|l lo IH]; intros m H; [reflexivity|].
  destruct m as [|c m]; [discriminate|]. cbn in *.
  apply andb_true_iff in H as [-> H]. now apply IH.
Qed.

Lemma ci_same_length lo m : ci_same rt lo m = true -> length lo = length m.
Proof.
  unfold ci_same. intros H. apply andb_true_iff in H as [H _]. now apply Nat.eqb_eq in H.
Qed.

Lemma ci_same_drop lo m x : ci_same rt lo m = true -> drop (length lo) (m ++ x) = x.
Proof. intros H. rewrite (ci_same_length _ _ H). apply drop_app_length. Qed.

Lemma ci_same_Forall2 lo m :
  ci_same rt lo m = true -> Forall2 (fun l c => ci_eq rt l c = true) lo m.
Proof.
  unfold ci_same. revert m. induction lo as [|l lo IH]; intros [|c m] H;
    try discriminate; [constructor|].
  cbn in H. apply andb_true_iff in H as [H1 H]. apply andb_true_iff in H as [H2 H3].
  constructor; [exact H2|]. apply IH. now rewrite H1, H3.
Qed.

Lemma ci_same_no_comma lo m :
  Forall (fun l => ci_eq rt l 0x2C%N = false) lo ->
  ci_same rt lo m = true -> Forall (fun c => (c =? 0x2C)%N = false) m.
Proof.
  intros Hlo H. apply ci_same_Forall2 in H.
  induction H as [|l c lo m Hc _ IH]; [constructor|].
  inversion Hlo; subst. constructor; [|now apply IH].
  destruct (N.eqb_spec c 0x2C) as [->|]; congruence.
Qed.

Lemma marker_no_comma m :
  ci_same rt (py "стор") m = true \/ ci_same rt (py "page") m = true ->
  Forall (fun c => (c =? 0x2C)%N = false) m.
Proof.
  intros [H|H]; (eapply ci_same_no_comma; [|exact H]); repeat constructor.
Qed.

Lemma ci_prefix_lstrip l lo s :
  isspace rt l = false -> ci_prefix rt (l :: lo) s = true -> lstrip rt s = s.
Proof.
  intros Hl H. destruct s as [|c s]; [reflexivity|]. cbn in H.
  apply andb_true_iff in H as [H _]. simpl.
  now rewrite (ci_eq_not_space rt l c Hl H).
Qed.

(** A page marker does not start with whitespace. *)
Lemma marker_prefix_lstrip s :
  ci_prefix rt (py "стор") s || ci_prefix rt (py "page") s = true -> lstrip rt s = s.
Proof.
  intros H. apply orb_true_iff in H as [H|H];
    (eapply ci_prefix_lstrip; [|exact H]); reflexivity.
Qed.

Variable whole : str.

(** *** Group 2 and the whitespace before it *)

Lemma group2_total s g : is_Some (rmatch rt (Group 2 (Star CAny)) whole s g ret).
Proof. cbn [rmatch]. apply star_total. intros x. unfold ret. eauto. Qed.

Lemma group2_line s g :
  no_lf s -> rmatch rt (Group 2 (Star CAny)) whole s g ret = Some ([], (2%nat, s) :: g).
Proof.
  intros H. cbn [rmatch]. apply star_all.
  - eapply Forall_impl; [exact H|]. intros c Hc. cbn. now rewrite Hc.
  - unfold ret. cbn [length]. now rewrite Nat.sub_0_r, firstn_all.
Qed.

Lemma after_marker_total s g : is_Some (after_marker rt whole s g).
Proof.
  unfold after_marker. cbn [rmatch]. apply star_total. intros x.
  apply (group2_total x g).
Qed.

Lemma after_marker_line w2 p g :
  spaces rt w2 -> no_lf p ->
  after_marker rt whole (w2 ++ p) g = Some ([], (2%nat, lstrip rt p) :: g).
Proof.
  intros Hw Hp. unfold after_marker.
  change (rmatch rt (Star CSpace;; Group 2 (Star CAny))%re whole (w2 ++ p) g ret)
    with (star rt CSpace (w2 ++ p)
            (fun s' => rmatch rt (Group 2 (Star CAny)) whole s' g ret)).
  rewrite star_space_total by (intros x; apply group2_total).
  rewrite lstrip_app_space by assumption.
  apply group2_line. now apply no_lf_lstrip.
Qed.

(** *** The marker and its optional dot *)

Lemma opt_dot_skip s g k :
  dot_free s -> rmatch rt (Opt (CLit 0x2E)) whole s g k = k s g.
Proof.
  intros H. unfold Opt. cbn [rmatch cls_match].
  destruct s as [|c s]; [reflexivity|].
  destruct (N.eqb_spec c 0x2E) as [->|]; [now destruct H|reflexivity].
Qed.

Lemma opt_dot_take s g k :
  is_Some (k s g) -> rmatch rt (Opt (CLit 0x2E)) whole (0x2E%N :: s) g k = k s g.
Proof.
  intros [r Hr]. unfold Opt. cbn [rmatch cls_match]. rewrite N.eqb_refl. now rewrite Hr.
Qed.

Lemma marker_plain m rest g k :
  ci_same rt (py "стор") m = true \/ ci_same rt (py "page") m = true ->
  dot_free rest -> is_Some (k rest g) ->
  rmatch rt page_marker whole (m ++ rest) g k = k rest g.
Proof.
  intros Hm Hd [r Hr]. unfold page_marker.
  assert (L : length m = 4%nat).
  { destruct Hm as [H|H]; apply ci_same_length in H; now rewrite <- H. }
  assert (D : drop 4 (m ++ rest) = rest) by (rewrite <- L; apply drop_app_length).
  cbn [rmatch]. rewrite !ilit_match.
  change (length (py "стор")) with 4%nat. change (length (py "page")) with 4%nat.
  rewrite D, opt_dot_skip by assumption.
  destruct (ci_prefix rt (py "стор") (m ++ rest)) eqn:E1.
  - now rewrite Hr.
  - destruct Hm as [H|H]; [now rewrite ci_same_prefix in E1|].
    rewrite ci_same_prefix by assumption. now rewrite Hr.
Qed.

Lemma marker_dotted m rest g k :
  ci_same rt (py "стор") m = true -> is_Some (k rest g) ->
  rmatch rt page_marker whole (m ++ 0x2E%N :: rest) g k = k rest g.
Proof.
  intros Hm [r Hr]. unfold page_marker. cbn [rmatch]. rewrite !ilit_match.
  rewrite ci_same_prefix, (ci_same_drop _ m) by assumption.
  rewrite opt_dot_take by (rewrite Hr; eauto). now rewrite Hr.
Qed.

Lemma marker_sound s g k r :
  rmatch rt page_marker whole s g k = Some r ->
  ci_prefix rt (py "стор") s || ci_prefix rt (py "page") s = true.
Proof.
  unfold page_marker. cbn [rmatch]. rewrite !ilit_match.
  destruct (ci_prefix rt (py "стор") s); [reflexivity|].
  destruct (ci_prefix rt (py "page") s); [reflexivity|discriminate].
Qed.
End ParserEngine.


Section Parser.
Variable rt : Runtime.
Implicit Types (s a b m lo p t w : str) (g : caps).

Lemma tail_unfold whole s g :
  rmatch rt citation_tail whole s g ret =
  star rt CSpace s (fun s' => rmatch rt page_marker whole s' g (after_marker rt whole)).
Proof. reflexivity. Qed.

Lemma tail_sound whole b g r :
  rmatch rt citation_tail whole b g ret = Some r -> marker_ahead rt b = true.
Proof.
  rewrite tail_unfold. intros H.
  apply star_sound in H as (a & b' & -> & Ha & H).
  apply marker_sound in H. unfold marker_ahead.
  rewrite lstrip_app_space by exact Ha.
  now rewrite (marker_prefix_lstrip _ _ H).
Qed.

Lemma tail_match whole w1 m d w2 p g :
  spaces rt w1 -> spaces rt w2 -> no_lf p ->
  (ci_same rt (py "стор") m = true /\ (d = [] \/ d = [0x2E%N]) \/
   ci_same rt (py "page") m = true /\ d = []) ->
  (d = [] -> dot_free (w2 ++ p)) ->
  rmatch rt citation_tail whole (w1 ++ m ++ d ++ w2 ++ p) g ret
  = Some ([], (2%nat, lstrip rt p) :: g).
Proof.
  intros H1 H2 Hp Hm Hd. rewrite tail_unfold.
  assert (Hk : is_Some (after_marker rt whole (w2 ++ p) g)) by apply after_marker_total.
  assert (Hpre : ci_prefix rt (py "стор") (m ++ d ++ w2 ++ p)
                 || ci_prefix rt (py "page") (m ++ d ++ w2 ++ p) = true).
  { destruct Hm as [[Hm _]|[Hm _]].
    - now rewrite (ci_same_prefix rt (py "стор") m).
    - rewrite (ci_same_prefix rt (py "page") m) by exact Hm. apply orb_true_r. }
  apply star_app; [exact H1|].
  assert (E : star rt CSpace (m ++ d ++ w2 ++ p)
                (fun s' => rmatch rt page_marker whole s' g (after_marker rt whole))
              = rmatch rt page_marker whole (m ++ d ++ w2 ++ p) g (after_marker rt whole)).
  { apply marker_prefix_lstrip in Hpre.
    destruct (m ++ d ++ w2 ++ p) as [|c x]; [reflexivity|].
    simpl in Hpre. destruct (isspace rt c) eqn:Hc.
    - exfalso. destruct (lstrip_suffix rt x) as (a & Ex & _).
      rewrite Hpre in Ex. apply (f_equal length) in Ex.
      rewrite length_app in Ex. simpl in Ex. lia.
    - apply star_stop. exact Hc. }
  refine (eq_trans E _). clear E.
  destruct Hm as [[Hm [->| ->]]|[Hm ->]]; cbn [app].
  - rewrite marker_plain by auto. now apply after_marker_line.
  - rewrite marker_dotted by auto. now apply after_marker_line.
  - rewrite marker_plain by auto. now apply after_marker_line.
Qed.

Lemma match_here_unfold whole s :
  match_here rt citation_re whole s = star rt CAny s (after_title rt whole s).
Proof. reflexivity. Qed.

Lemma after_title_comma whole s b :
  after_title rt whole s (0x2C%N :: b) =
  rmatch rt citation_tail whole b [(1%nat, take (length s - S (length b)) s)] ret.
Proof. reflexivity. Qed.

Lemma after_title_sound whole s x r :
  after_title rt whole s x = Some r -> comma_marker rt x = true.
Proof.
  unfold after_title. cbn [rmatch cls_match]. destruct x as [|c b]; [discriminate|].
  destruct (N.eqb_spec c 0x2C) as [->|]; [|discriminate].
  fold (rmatch rt citation_tail whole b [(1%nat, take (length s - length b) s)] ret).
  intros H. apply tail_sound in H. simpl. now rewrite H.
Qed.

Lemma comma_marker_suffix a b : comma_marker rt b = true -> comma_marker rt (a ++ b) = true.
Proof.
  intros H. induction a as [|c a IH]; [exact H|]. simpl. rewrite IH. apply orb_true_r.
Qed.

Lemma comma_marker_skip a b :
  Forall (fun c => (c =? 0x2C)%N = false) a -> comma_marker rt (a ++ b) = comma_marker rt b.
Proof. induction 1 as [|c a Hc _ IH]; [reflexivity|]. simpl. now rewrite Hc, IH. Qed.

(** A match of the pattern shows a comma followed by a page marker. *)
Lemma match_here_sound whole x r :
  match_here rt citation_re whole x = Some r -> comma_marker rt x = true.
Proof.
  rewrite match_here_unfold. intros H.
  apply star_sound in H as (a & b & -> & _ & H).
  apply comma_marker_suffix. eapply after_title_sound, H.
Qed.

Lemma parse_no_marker s :
  comma_marker rt s = false -> _parse_citation_string rt s = (s, None).
Proof.
  intros H. unfold _parse_citation_string, re_search.
  destruct (search_from rt citation_re s s) as [f|] eqn:E; [|reflexivity].
  apply search_sound in E as (a & b & x & Es & Hx).
  apply match_here_sound in Hx. rewrite Es, comma_marker_suffix in H by exact Hx.
  discriminate.
Qed.

(** Group 1 runs to the last comma that a page marker follows. *)
Lemma title_match whole t tail r :
  no_lf t -> comma_marker rt tail = false ->
  rmatch rt citation_tail whole tail [(1%nat, t)] ret = Some r ->
  match_here rt citation_re whole (t ++ 0x2C%N :: tail) = Some r.
Proof.
  intros Ht Hc Hr. rewrite match_here_unfold.
  apply star_app.
  { eapply Forall_impl; [exact Ht|]. intros c E. cbn. now rewrite E. }
  cbn [star cls_match]. change (negb (0x2C =? LF)%N) with true. cbv iota.
  rewrite star_none.
  - rewrite after_title_comma.
    replace (length (t ++ 0x2C%N :: tail) - S (length tail))%nat with (length t)
      by (rewrite length_app; simpl; lia).
    now rewrite take_app_length.
  - intros i.
    destruct (after_title rt whole (t ++ 0x2C%N :: tail) (drop i tail)) eqn:E; [|reflexivity].
    apply after_title_sound in E.
    rewrite <- (take_drop i tail), comma_marker_suffix in Hc by exact E. discriminate.
Qed.

Lemma parse_marker t w1 m d w2 p :
  no_lf t -> no_lf p -> spaces rt w1 -> spaces rt w2 ->
  (ci_same rt (py "стор") m = true /\ (d = [] \/ d = [0x2E%N]) \/
   ci_same rt (py "page") m = true /\ d = []) ->
  (d = [] -> dot_free (w2 ++ p)) ->
  comma_marker rt p = false ->
  _parse_citation_string rt (t ++ 0x2C%N :: w1 ++ m ++ d ++ w2 ++ p)
  = (strip rt t, Some (strip rt p)).
Proof.
  intros Ht Hp H1 H2 Hm Hd Hc.
  unfold _parse_citation_string, re_search.
  erewrite search_from_here.
  2:{ apply title_match; [exact Ht| |apply tail_match; eassumption].
      rewrite comma_marker_skip by now apply spaces_no_comma with (rt := rt).
      rewrite comma_marker_skip by (apply marker_no_comma with (rt := rt); tauto).
      rewrite comma_marker_skip
        by (destruct Hm as [[_ [->| ->]]|[_ ->]]; repeat constructor).
      rewrite comma_marker_skip by now apply spaces_no_comma with (rt := rt).
      exact Hc. }
  cbn [m_groups group Nat.eqb from_option id]. now rewrite strip_lstrip.
Qed.
End Parser.

Section PageDot.
Variable rt : Runtime.
Implicit Types (s t rest w : str) (g : caps).

Lemma page_is_not_stor rest : ci_prefix rt (py "стор") (py "Page" ++ rest) = false.
Proof. reflexivity. Qed.

Lemma dot_not_space : isspace rt 0x2E = false.
Proof. reflexivity. Qed.

(** After "Page" the pattern has no optional dot: a dot there starts
    group 2. *)
Lemma tail_match_page_dot whole w rest g :
  spaces rt w -> no_lf rest ->
  rmatch rt citation_tail whole (w ++ py "Page" ++ 0x2E%N :: rest) g ret
  = Some ([], (2%nat, 0x2E%N :: rest) :: g).
Proof.
  intros Hw Hr. rewrite tail_unfold. apply star_app; [exact Hw|].
  assert (P : ci_same rt (py "page") (py "Page") = true) by reflexivity.
  assert (E : star rt CSpace (py "Page" ++ 0x2E%N :: rest)
                (fun s' => rmatch rt page_marker whole s' g (after_marker rt whole))
              = rmatch rt page_marker whole (py "Page" ++ 0x2E%N :: rest) g
                  (after_marker rt whole)).
  { change (py "Page" ++ 0x2E%N :: rest)
      with (0x50%N :: (py "age" ++ 0x2E%N :: rest)).
    apply star_stop. reflexivity. }
  refine (eq_trans E _). clear E.
  unfold page_marker. cbn [rmatch]. rewrite !ilit_match.
  rewrite page_is_not_stor, (ci_same_prefix rt _ _ _ P), (ci_same_drop rt _ _ _ P).
  assert (A : after_marker rt whole (0x2E%N :: rest) g
              = Some ([], (2%nat, 0x2E%N :: rest) :: g)).
  { assert (S0 : spaces rt []) by constructor.
    assert (L0 : no_lf (0x2E%N :: rest)) by (constructor; [reflexivity|exact Hr]).
    pose proof (after_marker_line rt whole [] (0x2E%N :: rest) g S0 L0) as A0.
    cbn [app lstrip] in A0. rewrite dot_not_space in A0. exact A0. }
  now rewrite A.
Qed.

Lemma parse_page_dot t w rest :
  no_lf t -> no_lf rest -> spaces rt w -> comma_marker rt rest = false ->
  _parse_citation_string rt (t ++ 0x2C%N :: w ++ py "Page" ++ 0x2E%N :: rest)
  = (strip rt t, Some (strip rt (0x2E%N :: rest))).
Proof.
  intros Ht Hr Hw Hc. unfold _parse_citation_string, re_search.
  erewrite search_from_here.
  2:{ apply title_match; [exact Ht| |apply tail_match_page_dot; assumption].
      rewrite comma_marker_skip by now apply spaces_no_comma with (rt := rt).
      rewrite comma_marker_skip
        by (apply marker_no_comma with (rt := rt); right; reflexivity).
      change (0x2E%N :: rest) with ([0x2E%N] ++ rest).
      rewrite comma_marker_skip by (repeat constructor). exact Hc. }
  cbn [m_groups group Nat.eqb from_option id]. reflexivity.
Qed.

Lemma strip_keeps_dot rest : head (strip rt (0x2E%N :: rest)) = Some 0x2E%N.
Proof.
  unfold strip. cbn [lstrip]. rewrite dot_not_space.
  unfold rstrip. destruct (lstrip_suffix rt (rev (0x2E%N :: rest))) as (a & E & Ha).
  apply (f_equal (@rev N)) in E. rewrite rev_involutive, rev_app_distr in E.
  destruct (rev (lstrip rt (rev (0x2E%N :: rest)))) as [|c q] eqn:Eq.
  - cbn [app] in E. apply List.Forall_rev in Ha. rewrite <- E in Ha.
    inversion Ha as [|? ? Hd _]; subst. now rewrite dot_not_space in Hd.
  - cbn [app] in E. now injection E as <- _.
Qed.
End PageDot.

(** C3, which the code does not meet for a dot after "Page".
    [_parse_citation_string] returns the input unchanged and no page
    when no comma of the input is followed (after optional whitespace) by a
    page marker.  It returns the trimmed title and the trimmed page for an
    input made of a title [t], a comma, optional whitespace, a marker [m], a
    dot or nothing [d], optional whitespace and a page [p], where [t] and [p]
    hold no line feed, the comma is the last one that a marker follows, and
    [m] is "стор" in any case, with or without the dot, or "page" in any case
    without a dot.  The three examples of the specification hold.  After
    "Page" the pattern takes no dot, unlike after "Стор" and "стор": for
    every title and every text after it, "Page." leaves the dot at the start
    of the page that is returned, so that "Chapter 3, Page. 12" has the page
    ". 12" where "Chapter 3, Стор. 12" has the page "12". *)
Theorem parse_citation_string_spec (rt : Runtime) :
  (forall s, comma_marker rt s = false -> _parse_citation_string rt s = (s, None)) /\
  (forall t w1 m d w2 p,
      no_lf t -> no_lf p -> spaces rt w1 -> spaces rt w2 ->
      (ci_same rt (py "стор") m = true /\ (d = [] \/ d = [0x2E%N]) \/
       ci_same rt (py "page") m = true /\ d = []) ->
      (d = [] -> dot_free (w2 ++ p)) ->
      comma_marker rt p = false ->
      _parse_citation_string rt (t ++ 0x2C%N :: w1 ++ m ++ d ++ w2 ++ p)
      = (strip rt t, Some (strip rt p))) /\
  _parse_citation_string rt (py "Chapter 3, Page 12") = (py "Chapter 3", Some (py "12")) /\
  _parse_citation_string rt (py "Chapter 3, стор. 12") = (py "Chapter 3", Some (py "12")) /\
  _parse_citation_string rt (py "Introduction") = (py "Introduction", None) /\
  (forall t w rest,
      no_lf t -> no_lf rest -> spaces rt w -> comma_marker rt rest = false ->
      _parse_citation_string rt (t ++ 0x2C%N :: w ++ py "Page" ++ 0x2E%N :: rest)
      = (strip rt t, Some (strip rt (0x2E%N :: rest))) /\
      head (strip rt (0x2E%N :: rest)) = Some 0x2E%N) /\
  _parse_citation_string rt (py "Chapter 3, Page. 12") = (py "Chapter 3", Some (py ". 12")) /\
  _parse_citation_string rt (py "Chapter 3, Стор. 12") = (py "Chapter 3", Some (py "12")).
Proof.
  split; [apply parse_no_marker|]. split; [apply parse_marker|].
  split; [vm_compute; reflexivity|]. split; [vm_compute; reflexivity|].
  split; [vm_compute; reflexivity|]. split.
  - intros t w rest Ht Hr Hw Hc. split; [now apply parse_page_dot|apply strip_keeps_dot].
  - split; vm_compute; reflexivity.
Qed.

Lemma parse_citation_string_spec_witness :
  let t := py "Розділ 2, примітки " in
  let m := py "СТОР" in
  let p := py "12-14 " in
  no_lf t /\ no_lf p /\ spaces py_default (py "  ") /\ spaces py_default (py " ") /\
  ci_same py_default (py "стор") m = true /\
  comma_marker py_default p = false /\
  _parse_citation_string py_default (py "Розділ 2, примітки ,  СТОР. 12-14 ")
  = (py "Розділ 2, примітки", Some (py "12-14")).
Proof.
  intros t m p.
  assert (Ht : no_lf t) by (apply no_lf_check; vm_compute; reflexivity).
  assert (Hp : no_lf p) by (apply no_lf_check; vm_compute; reflexivity).
  assert (H1 : spaces py_default (py "  ")) by (apply spaces_check; vm_compute; reflexivity).
  assert (H2 : spaces py_default (py " ")) by (apply spaces_check; vm_compute; reflexivity).
  assert (Hm : ci_same py_default (py "стор") m = true) by (vm_compute; reflexivity).
  assert (Hc : comma_marker py_default p = false) by (vm_compute; reflexivity).
  assert (Hd : [0x2E%N] = [] -> dot_free (py " " ++ p)) by (intros E; discriminate E).
  repeat (split; [assumption|]).
  exact (proj1 (proj2 (parse_citation_string_spec py_default))
           t (py "  ") m [0x2E%N] (py " ") p Ht Hp H1 H2
           (or_introl (conj Hm (or_intror eq_refl))) Hd Hc).
Defined.


(** ** Sorting *)

Section MapResult.
Context {A B : Type}.

Lemma map_result_ok (f : A -> result B) l :
  Forall (fun x => exists y, f x = Ok y) l ->
  exists ys, map_result f l = Ok ys /\ Forall2 (fun x y => f x = Ok y) l ys.
Proof.
  induction 1 as [|x l [y Hy] _ (ys & E & F)]; simpl; [eauto|].
  rewrite Hy, E. simpl. eauto.
Qed.

Lemma map_result_inv (f : A -> result B) l ys :
  map_result f l = Ok ys -> Forall2 (fun x y => f x = Ok y) l ys.
Proof.
  revert ys. induction l as [|x l IH]; intros ys H; simpl in H.
  - injection H as <-. constructor.
  - destruct (f x) as [y|] eqn:E; simpl in H; [|discriminate].
    destruct (map_result f l) as [ys'|]; simpl in H; [|discriminate].
    injection H as <-. constructor; auto.
Qed.
End MapResult.

Section SortFacts.
Context {A K : Type}.
Variable lt : K -> K -> result bool.
Implicit Types (x y : K * A) (l r : list (K * A)).

Lemma insert_by_perm x l r : insert_by lt x l = Ok r -> r ≡ₚ x :: l.
Proof.
  revert r. induction l as [|y l IH]; intros r H; simpl in H.
  - injection H as <-. reflexivity.
  - destruct (lt y.1 x.1) as [[|]|]; simpl in H; try discriminate.
    + destruct (insert_by lt x l) as [r'|]; simpl in H; [|discriminate].
      injection H as <-. rewrite (IH r' eq_refl). apply Permutation_swap.
    + injection H as <-. reflexivity.
Qed.

Lemma sort_by_perm l r : sort_by lt l = Ok r -> r ≡ₚ l.
Proof.
  revert r. induction l as [|x l IH]; intros r H; simpl in H.
  - injection H as <-. reflexivity.
  - destruct (sort_by lt l) as [r'|]; simpl in H; [|discriminate].
    rewrite (insert_by_perm _ _ _ H). now rewrite (IH r' eq_refl).
Qed.

Lemma insert_by_ok x l :
  (forall y, y ∈ l -> exists v, lt y.1 x.1 = Ok v) -> exists r, insert_by lt x l = Ok r.
Proof.
  induction l as [|y l IH]; intros H; simpl; [eauto|].
  destruct (H y) as [v ->]; [left|]. simpl. destruct v; [|eauto].
  destruct IH as [r ->]; [|simpl; eauto].
  intros z Hz. apply H. now right.
Qed.

Lemma sort_by_ok l : comparable lt (l.*1) -> exists r, sort_by lt l = Ok r.
Proof.
  induction l as [|x l IH]; intros H; simpl; [eauto|].
  destruct IH as [r Hr].
  { intros a b Ha Hb. apply H; now right. }
  rewrite Hr. simpl. apply insert_by_ok. intros y Hy.
  apply H; [right|left].
  apply sort_by_perm in Hr. rewrite Hr in Hy.
  apply list_elem_of_fmap. eauto.
Qed.

Hypothesis lt_asym : forall a b, lt a b = Ok true -> lt b a = Ok false.

Lemma insert_by_sorted x l r :
  Sorted (key_le lt) l -> insert_by lt x l = Ok r -> Sorted (key_le lt) r.
Proof.
  revert r. induction l as [|y l IH]; intros r Hs H; simpl in H.
  - injection H as <-. repeat constructor.
  - destruct (lt y.1 x.1) as [[|]|] eqn:E; simpl in H; try discriminate.
    + destruct (insert_by lt x l) as [r'|] eqn:E'; simpl in H; [|discriminate].
      injection H as <-. inversion Hs as [|? ? Hs' Hd]; subst.
      constructor; [now apply IH|].
      destruct l as [|z l]; simpl in E'.
      * injection E' as <-. constructor. now apply lt_asym.
      * destruct (lt z.1 x.1) as [[|]|]; simpl in E'; try discriminate.
        -- destruct (insert_by lt x l); simpl in E'; [|discriminate].
           injection E' as <-. constructor. now inversion Hd.
        -- injection E' as <-. constructor. now apply lt_asym.
    + injection H as <-. constructor; [exact Hs|]. constructor. exact E.
Qed.

Lemma sort_by_sorted l r : sort_by lt l = Ok r -> Sorted (key_le lt) r.
Proof.
  revert r. induction l as [|x l IH]; intros r H; simpl in H.
  - injection H as <-. constructor.
  - destruct (sort_by lt l) as [r'|]; simpl in H; [|discriminate].
    eapply insert_by_sorted; [|exact H]. now apply IH.
Qed.
End SortFacts.

Section SortedOk.
Context {A K : Type}.

(** Where the keys exist and compare, [sorted] returns a permutation. *)
Lemma sorted_ok (lt : K -> K -> result bool) (key : A -> result K) l :
  Forall (fun x => exists k, key x = Ok k) l ->
  (forall a b ka kb, a ∈ l -> b ∈ l -> key a = Ok ka -> key b = Ok kb ->
                     exists v, lt ka kb = Ok v) ->
  exists r, sorted lt key l = Ok r /\ r ≡ₚ l.
Proof.
  intros Hk Hc. unfold sorted.
  destruct (map_result_ok (fun x => let* k := key x in Ok (k, x)) l) as (ks & M & F).
  { eapply Forall_impl; [exact Hk|]. intros x [k E]. rewrite E. simpl. eauto. }
  rewrite M. simpl.
  assert (P : forall kx, kx ∈ ks -> kx.2 ∈ l /\ key kx.2 = Ok kx.1).
  { clear -F. induction F as [|x y l ks E _ IH]; intros kx H; [inversion H|].
    apply elem_of_cons in H as [->|H].
    - destruct (key x) as [k|] eqn:Ek; simpl in E; [|discriminate].
      injection E as <-. split; [left|exact Ek].
    - destruct (IH kx H). split; [now right|assumption]. }
  assert (S2 : ks.*2 = l).
  { clear -F. induction F as [|x y l ks E _ IH]; [reflexivity|].
    rewrite fmap_cons, IH. destruct (key x); simpl in E; [|discriminate].
    now injection E as <-. }
  destruct (sort_by_ok lt ks) as [r S].
  { intros a b Ha Hb. apply list_elem_of_fmap in Ha as (x & -> & Hx).
    apply list_elem_of_fmap in Hb as (y & -> & Hy).
    destruct (P x Hx), (P y Hy). eauto. }
  rewrite S. simpl. exists (r.*2). split; [reflexivity|].
  now rewrite (sort_by_perm _ _ _ S), S2.
Qed.
End SortedOk.

Lemma Sorted_strengthen {A} (R : relation A) (P : A -> Prop) l :
  Sorted R l -> Forall P l -> Sorted (fun a b => P a /\ P b /\ R a b) l.
Proof.
  induction 1 as [|x l Hs IH Hd]; intros HP; [constructor|].
  inversion HP as [|? ? Px Pl]; subst. constructor; [now apply IH|].
  destruct Hd as [|y l Hxy]; constructor. inversion Pl; subst. auto.
Qed.


(** ** The page sort *)

Section PageSort.
Variable rt : Runtime.
Implicit Types (p : str).

Lemma decimal_token_digit p : decimal_token rt p = true -> str_isdigit rt p = true.
Proof.
  unfold decimal_token, str_isdigit. intros H.
  apply andb_true_iff in H as [H _]. apply andb_true_iff in H as [H1 H2].
  rewrite H1, andb_true_r. apply forallb_forall. intros c Hc.
  rewrite forallb_forall in H2. specialize (H2 c Hc).
  unfold isdecimal, isdigit in *. now destruct (kind rt c).
Qed.

(** On a decimal token, [int] is the base-ten value of the digits. *)
Lemma int_of_str_decimal p :
  decimal_token rt p = true ->
  exists ds, mapM (decimal_value rt) p = Some ds /\
             int_of_str rt p = Ok (fold_left (fun acc d => acc * 10 + d)%Z ds 0%Z).
Proof.
  unfold decimal_token, int_of_str. intros H.
  apply andb_true_iff in H as [H H3]. apply andb_true_iff in H as [_ H2].
  assert (E : negb (Nat.eqb (int_max_str_digits rt) 0)
              && (int_max_str_digits rt <? length p)%nat = false).
  { apply orb_true_iff in H3 as [->|H3]; [reflexivity|].
    apply Nat.leb_le in H3. apply andb_false_iff. right. apply Nat.ltb_ge. exact H3. }
  rewrite E.
  destruct (mapM (decimal_value rt) p) as [ds|] eqn:M; [eauto|].
  exfalso. assert (Hs : is_Some (mapM (decimal_value rt) p)); [|rewrite M in Hs; now destruct Hs].
  apply mapM_is_Some. apply Forall_forall. intros c Hc.
  rewrite forallb_forall in H2. specialize (H2 c).
  unfold isdecimal, decimal_value in *. simpl.
  destruct (kind rt c); try (discriminate H2; now apply list_elem_of_In); eauto.
Qed.

Lemma decimal_token_int p : decimal_token rt p = true -> exists z, int_of_str rt p = Ok z.
Proof. intros H. destruct (int_of_str_decimal p H) as (ds & _ & E). eauto. Qed.

(** Tokens of at most 640 digits pass every digit limit. *)
Lemma decimal_token_short p :
  p <> [] -> forallb (isdecimal rt) p = true -> (length p <=? 640)%nat = true ->
  decimal_token rt p = true.
Proof.
  intros Hp Hd Hl. apply Nat.leb_le in Hl. unfold decimal_token. rewrite Hd, andb_true_r.
  rewrite bool_decide_eq_false_2 by exact Hp. cbn [negb andb].
  destruct (int_max_str_digits_ok rt) as [->|H]; [reflexivity|].
  apply orb_true_iff. right. apply Nat.leb_le. lia.
Qed.

Lemma page_key_decimal p :
  decimal_token rt p = true ->
  exists z, int_of_str rt p = Ok z /\ page_sort_key rt p = Ok (KeyInt z).
Proof.
  intros H. destruct (decimal_token_int p H) as [z Hz]. exists z. split; [exact Hz|].
  unfold page_sort_key. now rewrite (decimal_token_digit p H), Hz.
Qed.

Lemma page_key_kind p k :
  page_sort_key rt p = Ok k -> key_is_int k = str_isdigit rt p.
Proof.
  unfold page_sort_key. destruct (str_isdigit rt p).
  - destruct (int_of_str rt p); simpl; [|discriminate]. now intros [= <-].
  - now intros [= <-].
Qed.

Lemma page_key_lt_kind a b v : page_key_lt a b = Ok v -> key_is_int a = key_is_int b.
Proof. destruct a, b; simpl; congruence. Qed.

Lemma page_key_lt_asym a b : page_key_lt a b = Ok true -> page_key_lt b a = Ok false.
Proof.
  destruct a as [x|x], b as [y|y]; simpl; try discriminate; intros [= H]; f_equal.
  - apply Z.ltb_lt in H. apply Z.ltb_ge. lia.
  - revert y H. induction x as [|c x IH]; intros [|d y] H; simpl in *; try congruence.
    apply orb_true_iff in H as [H|H].
    + apply N.ltb_lt in H. apply orb_false_iff. split.
      * apply N.ltb_ge. lia.
      * apply andb_false_iff. left. apply N.eqb_neq. lia.
    + apply andb_true_iff in H as [E H]. apply N.eqb_eq in E. subst d.
      rewrite N.ltb_irrefl, N.eqb_refl. simpl. now apply IH.
Qed.

(** A sort that returns has compared keys of one type only. *)
Lemma sort_by_homog {A} (l r : list (page_key * A)) :
  sort_by page_key_lt l = Ok r ->
  forall x y, x ∈ l -> y ∈ l -> key_is_int x.1 = key_is_int y.1.
Proof.
  revert r. induction l as [|z l IH]; intros r H x y Hx Hy.
  { inversion Hx. }
  simpl in H. destruct (sort_by page_key_lt l) as [r'|] eqn:E; simpl in H; [|discriminate].
  assert (Hz : forall u, u ∈ l -> key_is_int u.1 = key_is_int z.1).
  { intros u Hu. pose proof (sort_by_perm _ _ _ E) as P.
    destruct r' as [|y0 r']; [apply Permutation_nil in P; subst l; inversion Hu|].
    simpl in H. destruct (page_key_lt y0.1 z.1) as [v|] eqn:L; simpl in H; [|discriminate].
    apply page_key_lt_kind in L. rewrite <- L.
    apply (IH _ eq_refl); [exact Hu|]. rewrite <- P. left. }
  apply elem_of_cons in Hx as [->|Hx]; apply elem_of_cons in Hy as [->|Hy]; auto.
  - symmetry. auto.
  - eapply IH; eauto.
Qed.

Lemma sorted_unfold l :
  sorted page_key_lt (page_sort_key rt) l =
  (let* ks := map_result (keyed rt) l in let* r := sort_by page_key_lt ks in Ok (r.*2)).
Proof. reflexivity. Qed.

Lemma keyed_snd l ks : Forall2 (fun x y => keyed rt x = Ok y) l ks -> ks.*2 = l.
Proof.
  induction 1 as [|x y l ks H _ IH]; [reflexivity|]. rewrite fmap_cons, IH.
  unfold keyed in H. destruct (page_sort_key rt x); simpl in H; [|discriminate].
  now injection H as <-.
Qed.

Lemma sort_mixed_raises l a b :
  a ∈ l -> b ∈ l -> str_isdigit rt a = true -> str_isdigit rt b = false ->
  exists e, sorted page_key_lt (page_sort_key rt) l = Raise e.
Proof.
  intros Ha Hb Da Db. rewrite sorted_unfold.
  destruct (map_result (keyed rt) l) as [ks|e] eqn:M; simpl; [|eauto].
  destruct (sort_by page_key_lt ks) as [r|e] eqn:S; simpl; [|eauto].
  exfalso. apply map_result_inv in M.
  assert (Hk : forall p, p ∈ l -> exists k, (k, p) ∈ ks /\ key_is_int k = str_isdigit rt p).
  { clear -M. induction M as [|x y l ks H _ IH]; intros p Hp; [inversion Hp|].
    apply elem_of_cons in Hp as [->|Hp].
    - unfold keyed in H. destruct (page_sort_key rt x) as [k|] eqn:E; simpl in H; [|discriminate].
      injection H as <-. exists k. split; [left|now apply page_key_kind].
    - destruct (IH p Hp) as (k & ? & ?). exists k. split; [now right|assumption]. }
  destruct (Hk a Ha) as (ka & Ia & Ka). destruct (Hk b Hb) as (kb & Ib & Kb).
  pose proof (sort_by_homog _ _ S _ _ Ia Ib) as E. simpl in E. congruence.
Qed.

Lemma sort_decimal l :
  Forall (fun p => decimal_token rt p = true) l ->
  exists r, sorted page_key_lt (page_sort_key rt) l = Ok r /\ r ≡ₚ l /\
            Sorted (int_le rt) r.
Proof.
  intros H. rewrite sorted_unfold.
  destruct (map_result_ok (keyed rt) l) as (ks & M & F).
  { eapply Forall_impl; [exact H|]. intros p Hp.
    destruct (page_key_decimal p Hp) as (z & _ & Hz). unfold keyed. rewrite Hz. simpl. eauto. }
  rewrite M. simpl.
  assert (P : Forall (fun kp => exists z, kp.1 = KeyInt z /\ int_of_str rt kp.2 = Ok z) ks).
  { clear M. induction F as [|x y l ks E _ IH]; [constructor|].
    inversion H; subst. constructor; [|now apply IH].
    destruct (page_key_decimal x) as (z & Hz & Hk); [assumption|].
    unfold keyed in E. rewrite Hk in E. simpl in E. injection E as <-. eauto. }
  destruct (sort_by_ok page_key_lt ks) as [r S].
  { intros a b Ha Hb. apply list_elem_of_fmap in Ha as (x & -> & Hx).
    apply list_elem_of_fmap in Hb as (y & -> & Hy).
    rewrite Forall_forall in P.
    destruct (P x Hx) as (zx & -> & _). destruct (P y Hy) as (zy & -> & _). simpl. eauto. }
  rewrite S. simpl. exists (r.*2). split; [reflexivity|].
  pose proof (sort_by_perm _ _ _ S) as Pr. split.
  - rewrite Pr. now rewrite (keyed_snd _ _ F).
  - pose proof (sort_by_sorted _ page_key_lt_asym _ _ S) as Hs.
    rewrite <- Pr in P. apply (Sorted_strengthen _ _ _ Hs) in P.
    eapply Sorted_fmap; [|exact P].
    intros x y ((zx & Kx & Ix) & (zy & Ky & Iy) & L). exists zx, zy.
    repeat split; try assumption. unfold key_le in L. rewrite Kx, Ky in L. simpl in L.
    injection L as L. apply Z.ltb_ge in L. exact L.
Qed.

Lemma sort_pages_decimal (ps : gset str) :
  (forall p, p ∈ ps -> decimal_token rt p = true) ->
  exists r, sort_pages rt ps = Ok r /\ r ≡ₚ elements ps /\ Sorted (int_le rt) r.
Proof.
  intros H. unfold sort_pages.
  destruct (sort_decimal (set_order rt (elements ps))) as (r & E & P & S).
  - apply Forall_forall. intros p Hp.
    rewrite set_order_perm, elem_of_elements in Hp. auto.
  - exists r. split; [exact E|]. split; [|exact S]. now rewrite P, set_order_perm.
Qed.

Lemma sort_pages_mixed (ps : gset str) a b :
  a ∈ ps -> b ∈ ps -> str_isdigit rt a = true -> str_isdigit rt b = false ->
  exists e, sort_pages rt ps = Raise e.
Proof.
  intros Ha Hb. unfold sort_pages.
  apply sort_mixed_raises; rewrite set_order_perm, elem_of_elements; assumption.
Qed.
End PageSort.


Section PageOrder.
Variable rt : Runtime.

Lemma int_le_trans a b c : int_le rt a b -> int_le rt b c -> int_le rt a c.
Proof.
  intros (x & y & Hx & Hy & L1) (y' & z & Hy' & Hz & L2).
  rewrite Hy in Hy'. injection Hy' as <-. exists x, z.
  split; [assumption|split; [assumption|lia]].
Qed.

Global Instance int_le_transitive : Transitive (int_le rt).
Proof. intros a b c. apply int_le_trans. Qed.

(** [int] on a closed decimal token of at most 640 digits. *)
Lemma int_of_str_closed p ds :
  p <> [] -> forallb (isdecimal rt) p = true -> (length p <=? 640)%nat = true ->
  mapM (decimal_value rt) p = Some ds ->
  int_of_str rt p = Ok (fold_left (fun acc d => acc * 10 + d)%Z ds 0%Z).
Proof.
  intros Hp Hd Hl M.
  destruct (int_of_str_decimal rt p (decimal_token_short rt p Hp Hd Hl)) as (ds' & M' & ->).
  rewrite M in M'. now injection M' as <-.
Qed.

Lemma pages_10_2_9 :
  sort_pages rt {[ py "10"; py "2"; py "9" ]} = Ok [py "2"; py "9"; py "10"].
Proof.
  set (ps := ({[ py "10"; py "2"; py "9" ]} : gset str)).
  assert (V10 : int_of_str rt (py "10") = Ok 10%Z)
    by (apply (int_of_str_closed _ [1; 0]%Z); [discriminate|reflexivity|reflexivity|reflexivity]).
  assert (V2 : int_of_str rt (py "2") = Ok 2%Z)
    by (apply (int_of_str_closed _ [2]%Z); [discriminate|reflexivity|reflexivity|reflexivity]).
  assert (V9 : int_of_str rt (py "9") = Ok 9%Z)
    by (apply (int_of_str_closed _ [9]%Z); [discriminate|reflexivity|reflexivity|reflexivity]).
  assert (M : forall p, p ∈ ps -> p = py "10" \/ p = py "2" \/ p = py "9").
  { intros p Hp. unfold ps in Hp.
    apply elem_of_union in Hp as [Hp|Hp]; [apply elem_of_union in Hp as [Hp|Hp]|];
      apply elem_of_singleton in Hp; auto. }
  assert (D : forall p, p ∈ ps -> decimal_token rt p = true).
  { intros p Hp. destruct (M p Hp) as [->|[->| ->]];
      (apply decimal_token_short; [discriminate|reflexivity|reflexivity]). }
  destruct (sort_pages_decimal rt ps D) as (r & -> & P & S). f_equal.
  assert (E : elements ps ≡ₚ [py "2"; py "9"; py "10"])
    by (apply (bool_decide_unpack _); vm_compute; exact I).
  apply (Sorted_unique_strong (int_le rt)).
  - intros x1 x2 H1 H2 (a & b & Ha & Hb & L1) (b' & a' & Hb' & Ha' & L2).
    rewrite Ha in Ha'. injection Ha' as <-. rewrite Hb in Hb'. injection Hb' as <-.
    rewrite P, elem_of_elements in H1.
    rewrite <- E, elem_of_elements in H2.
    destruct (M x1 H1) as [->|[->| ->]], (M x2 H2) as [->|[->| ->]];
      try reflexivity; exfalso;
      rewrite ?V10, ?V2, ?V9 in Ha; rewrite ?V10, ?V2, ?V9 in Hb;
      injection Ha as Ha; injection Hb as Hb; lia.
  - exact S.
  - repeat constructor; eexists _, _; (split; [eassumption|split; [eassumption|lia]]).
  - now rewrite P.
Qed.
End PageOrder.

(** C7. A page set made of purely numeric tokens only (non-empty runs of
    decimal digits, within the digit limit of [int]) is sorted by integer
    value, ascending: the sort returns a permutation of the set in which each
    token's value is at most the next one's.  The set of "10", "2" and "9"
    comes out as "2", "9", "10" whatever the iteration order of the set, and
    is rendered in that order. *)
Theorem numeric_pages_sorted_by_value (rt : Runtime) :
  (forall ps : gset str,
      (forall p, p ∈ ps -> decimal_token rt p = true) ->
      exists r, sort_pages rt ps = Ok r /\ r ≡ₚ elements ps /\ Sorted (int_le rt) r) /\
  sort_pages rt {[ py "10"; py "2"; py "9" ]} = Ok [py "2"; py "9"; py "10"] /\
  process_sources py_default
    [chunk "A, Стор. 10" "b.pdf"; chunk "A, Стор. 2" "b.pdf"; chunk "A, Стор. 9" "b.pdf"]
  = Ok (header ++ py "1. A (Стор. 2, 9, 10) — [b.pdf]").
Proof.
  split; [apply sort_pages_decimal|]. split; [apply pages_10_2_9|].
  vm_compute. reflexivity.
Qed.

Lemma numeric_pages_sorted_by_value_witness :
  let ps : gset str := {[ py "100"; py "7"; py "42" ]} in
  (forall p, p ∈ ps -> decimal_token py_default p = true) /\
  exists r, sort_pages py_default ps = Ok r /\ r ≡ₚ elements ps /\
            Sorted (int_le py_default) r.
Proof.
  intros ps.
  assert (D : forall p, p ∈ ps -> decimal_token py_default p = true).
  { intros p Hp. unfold ps in Hp.
    apply elem_of_union in Hp as [Hp|Hp]; [apply elem_of_union in Hp as [Hp|Hp]|];
      apply elem_of_singleton in Hp; subst p; vm_compute; reflexivity. }
  split; [exact D|].
  exact (proj1 (numeric_pages_sorted_by_value py_default) ps D).
Defined.

(** C2, which the code does not meet. A page set that holds both a numeric
    token (one that passes [isdigit]) and a non-numeric token makes the page
    sort raise instead of returning an order: the keys are an [int] and a
    [str], and [<] between them is a [TypeError].  So do the pages "5" and
    "iv" of one group, and [process_sources] on two chunks that bring them. *)
Theorem mixed_pages_sort_raises (rt : Runtime) :
  (forall (ps : gset str) (a b : str),
      a ∈ ps -> b ∈ ps -> str_isdigit rt a = true -> str_isdigit rt b = false ->
      exists e, sort_pages rt ps = Raise e) /\
  sort_pages py_default {[ py "5"; py "iv" ]} = Raise TypeError /\
  process_sources py_default [chunk "A, Стор. 5" "b.pdf"; chunk "A, Стор. iv" "b.pdf"]
  = Raise TypeError.
Proof.
  split; [apply sort_pages_mixed|]. split; vm_compute; reflexivity.
Qed.

Lemma mixed_pages_sort_raises_witness :
  let ps : gset str := {[ py "5"; py "iv" ]} in
  py "5" ∈ ps /\ py "iv" ∈ ps /\
  str_isdigit py_default (py "5") = true /\ str_isdigit py_default (py "iv") = false /\
  exists e, sort_pages py_default ps = Raise e.
Proof.
  intros ps.
  assert (Ha : py "5" ∈ ps) by (apply elem_of_union; left; now apply elem_of_singleton).
  assert (Hb : py "iv" ∈ ps) by (apply elem_of_union; right; now apply elem_of_singleton).
  assert (Da : str_isdigit py_default (py "5") = true) by (vm_compute; reflexivity).
  assert (Db : str_isdigit py_default (py "iv") = false) by (vm_compute; reflexivity).
  repeat (split; [assumption|]).
  exact (proj1 (mixed_pages_sort_raises py_default) ps _ _ Ha Hb Da Db).
Defined.


(** ** The Citation Aggregator *)

Section Groups.
Variable rt : Runtime.
Implicit Types (g : gmap (str * str) (gset str)) (d : Document) (k : str * str).

Lemma add_source_lookup g d k :
  add_source rt g d !! k =
  if decide (doc_key rt d = k) then Some (page_set (doc_page rt d) ∪ default ∅ (g !! k))
  else g !! k.
Proof.
  unfold add_source, doc_key, doc_page, doc_ref, doc_file.
  destruct (_parse_citation_string rt _) as [title page]. cbn [fst snd].
  set (key := (title, _)).
  destruct (decide (key = k)) as [<-|Hne].
  - destruct (g !! key) as [ps|] eqn:E; destruct page as [[|c p]|]; cbn [page_set from_option id];
      rewrite ?lookup_alter_eq, ?lookup_insert_eq, ?E; cbn; f_equal;
      rewrite ?(left_id_L ∅ (∪)), ?(right_id_L ∅ (∪)); reflexivity.
  - destruct (g !! key) as [ps|] eqn:E; destruct page as [[|c p]|];
      rewrite ?lookup_alter_ne, ?lookup_insert_ne by assumption; reflexivity.
Qed.

Lemma key_pages_absent k docs :
  ~ Exists (fun d => doc_key rt d = k) docs -> key_pages rt k docs = ∅.
Proof.
  induction docs as [|d docs IH]; intros H; cbn [key_pages]; [reflexivity|].
  rewrite decide_False by (intros E; apply H; now left).
  rewrite IH by (intros E; apply H; now right). apply (left_id_L ∅ (∪)).
Qed.

Lemma fold_lookup docs g k :
  fold_left (add_source rt) docs g !! k =
  if decide (Exists (fun d => doc_key rt d = k) docs)
  then Some (key_pages rt k docs ∪ default ∅ (g !! k))
  else g !! k.
Proof.
  revert g. induction docs as [|d docs IH]; intros g; cbn [fold_left key_pages].
  { destruct (decide _) as [H|H]; [inversion H|reflexivity]. }
  rewrite IH, add_source_lookup.
  destruct (decide (doc_key rt d = k)) as [E|E].
  - rewrite (decide_True (P := Exists _ (d :: docs))) by now left.
    destruct (decide (Exists _ docs)) as [X|X]; cbn [from_option id]; f_equal.
    + rewrite (assoc_L (∪)). f_equal. apply (comm_L (∪)).
    + rewrite (key_pages_absent _ _ X), (right_id_L ∅ (∪)). reflexivity.
  - destruct (decide (Exists _ docs)) as [X|X].
    + rewrite (decide_True (P := Exists _ (d :: docs))) by now right.
      f_equal. now rewrite (left_id_L ∅ (∪)).
    + rewrite (decide_False (P := Exists _ (d :: docs))); [reflexivity|].
      intros Y. inversion Y; subst; contradiction.
Qed.

(** The groups after the first loop: one per key, with the page tokens
    of the chunks of that key. *)
Lemma group_lookup docs k :
  group_sources rt docs !! k =
  if decide (Exists (fun d => doc_key rt d = k) docs) then Some (key_pages rt k docs) else None.
Proof.
  unfold group_sources. rewrite fold_lookup, lookup_empty. cbn.
  destruct (decide _); [f_equal; apply (right_id_L ∅ (∪))|reflexivity].
Qed.

Lemma elem_of_key_pages k docs p :
  p ∈ key_pages rt k docs <->
  p <> [] /\ exists d, d ∈ docs /\ doc_key rt d = k /\ doc_page rt d = Some p.
Proof.
  induction docs as [|d docs IH]; cbn [key_pages].
  - split; [intros H; now apply elem_of_empty in H|]. intros (_ & d & Hd & _). inversion Hd.
  - rewrite elem_of_union, IH. split.
    + intros [H|(Hp & d' & Hd & Hk & Hpg)].
      * destruct (decide (doc_key rt d = k)); [|now apply elem_of_empty in H].
        destruct (doc_page rt d) as [[|c q]|] eqn:E; cbn in H;
          [now apply elem_of_empty in H| |now apply elem_of_empty in H].
        apply elem_of_singleton in H as ->. split; [discriminate|].
        exists d. split; [left|auto].
      * split; [exact Hp|]. exists d'. split; [now right|auto].
    + intros (Hp & d' & Hd & Hk & Hpg). apply elem_of_cons in Hd as [->|Hd].
      * left. rewrite decide_True by assumption. rewrite Hpg.
        destruct p; [congruence|]. cbn. now apply elem_of_singleton.
      * right. split; [exact Hp|]. eauto.
Qed.

Lemma group_sources_key docs d :
  d ∈ docs -> group_sources rt docs !! doc_key rt d = Some (key_pages rt (doc_key rt d) docs).
Proof.
  intros Hd. rewrite group_lookup, decide_True; [reflexivity|].
  apply Exists_exists. eauto.
Qed.

Lemma elem_of_dom_groups docs k :
  k ∈ dom (group_sources rt docs) <-> exists d, d ∈ docs /\ doc_key rt d = k.
Proof.
  rewrite elem_of_dom, group_lookup. destruct (decide _) as [X|X].
  - apply Exists_exists in X. split; [auto|eauto].
  - split; [intros [? ?]; discriminate|]. intros H. destruct X. now apply Exists_exists.
Qed.
End Groups.

Section Render.
Variable rt : Runtime.
Implicit Types (g : gmap (str * str) (gset str)) (d : Document) (k : str * str).

Lemma sorted_keys_ok g : exists keys, sorted_keys g = Ok keys /\ keys ≡ₚ elements (dom g).
Proof. apply sorted_ok; [apply Forall_forall|]; eauto. Qed.

Lemma sort_pages_ok ps :
  pages_sortable rt ps -> exists r, sort_pages rt ps = Ok r /\ r ≡ₚ elements ps.
Proof.
  intros [H|H].
  - unfold sort_pages.
    destruct (sorted_ok page_key_lt (page_sort_key rt) (set_order rt (elements ps)))
      as (r & E & P).
    + apply Forall_forall. intros p Hp. unfold page_sort_key.
      rewrite set_order_perm, elem_of_elements in Hp. rewrite (H p Hp). eauto.
    + intros a b ka kb Ha Hb. unfold page_sort_key.
      rewrite set_order_perm, elem_of_elements in Ha, Hb.
      rewrite (H a Ha), (H b Hb). intros [= <-] [= <-]. simpl. eauto.
    + exists r. split; [exact E|]. now rewrite P, set_order_perm.
  - destruct (sort_pages_decimal rt ps H) as (r & E & P & _). eauto.
Qed.

Lemma render_group_ok g k :
  (forall ps, g !! k = Some ps -> pages_sortable rt ps) ->
  exists line, render_group rt g k = Ok line.
Proof.
  intros H. unfold render_group. destruct k as [title filename].
  destruct (g !! (title, filename)) as [ps|] eqn:E; cbn [from_option id].
  - destruct (bool_decide (ps = ∅)); [eauto|].
    destruct (sort_pages_ok ps (H ps eq_refl)) as (r & -> & _). simpl. eauto.
  - rewrite bool_decide_eq_true_2 by reflexivity. eauto.
Qed.

(** For a non-empty chunk list whose page sets can be sorted, the second
    loop renders one line per group and the block is returned. *)
Lemma process_sources_ok docs :
  docs <> [] ->
  (forall k ps, group_sources rt docs !! k = Some ps -> pages_sortable rt ps) ->
  exists keys output_lines,
    keys ≡ₚ elements (dom (group_sources rt docs)) /\
    Forall2 (fun k line => render_group rt (group_sources rt docs) k = Ok line)
      keys output_lines /\
    output_lines <> [] /\
    process_sources rt docs = Ok (header ++ join [LF] (numbered output_lines)).
Proof.
  intros Hne Hs. destruct docs as [|d docs]; [congruence|].
  unfold process_sources. set (g := group_sources rt (d :: docs)) in *.
  destruct (sorted_keys_ok g) as (keys & -> & P). simpl.
  destruct (map_result_ok (render_group rt g) keys) as (lines & -> & F).
  { apply Forall_forall. intros k _. apply render_group_ok. apply Hs. }
  assert (Hl : lines <> []).
  { intros ->. apply Forall2_nil_inv_r in F. subst keys.
    apply Permutation_nil in P. apply elements_empty_inv in P.
    pose proof (group_sources_key rt (d :: docs) d ltac:(left)) as E.
    fold g in E. apply (elem_of_dom_2 (D := gset _)) in E. rewrite P in E.
    now apply elem_of_empty in E. }
  simpl. exists keys, lines. repeat split; try assumption.
  destruct lines as [|l0 lines]; [congruence|reflexivity].
Qed.

Lemma sorted_keys_nodup g keys : sorted_keys g = Ok keys -> NoDup keys.
Proof.
  intros H. destruct (sorted_keys_ok g) as (keys' & E & P).
  rewrite H in E. injection E as <-. rewrite P. apply NoDup_elements.
Qed.

Lemma pages_sortable_check g :
  forallb (fun kp => forallb (fun p => negb (str_isdigit rt p)) (elements kp.2)
                     || forallb (decimal_token rt) (elements kp.2))
    (map_to_list g) = true ->
  forall k ps, g !! k = Some ps -> pages_sortable rt ps.
Proof.
  intros H k ps E. rewrite forallb_forall in H.
  apply elem_of_map_to_list, list_elem_of_In in E. specialize (H _ E). cbn [snd] in H.
  apply orb_true_iff in H as [H|H]; rewrite forallb_forall in H; [left|right];
    intros p Hp; apply elem_of_elements, list_elem_of_In in Hp.
  - now apply negb_true_iff, H.
  - now apply H.
Qed.
End Render.


Section Examples.
Variable rt : Runtime.

Lemma sort_pages_singleton p k :
  page_sort_key rt p = Ok k -> sort_pages rt {[ p ]} = Ok [p].
Proof.
  intros H. unfold sort_pages. rewrite elements_singleton.
  assert (E : set_order rt [p] = [p]) by (apply Permutation_singleton_r, set_order_perm).
  rewrite E. unfold sorted. cbn [map_result bind]. rewrite H. reflexivity.
Qed.

Lemma page_key_5 : page_sort_key rt (py "5") = Ok (KeyInt 5).
Proof.
  unfold page_sort_key. change (str_isdigit rt (py "5")) with true. cbv iota.
  rewrite (int_of_str_closed rt (py "5") [5%Z]) by (discriminate || reflexivity).
  reflexivity.
Qed.

Lemma same_page_rendered_once :
  process_sources rt
    [chunk "Розділ 1, Стор. 5" "data/book.pdf"; chunk "Розділ 1, Page 5" "archive/book.pdf"]
  = Ok (header ++ py "1. Розділ 1 (Стор. 5) — [book.pdf]").
Proof.
  unfold process_sources.
  assert (G : group_sources rt
                [chunk "Розділ 1, Стор. 5" "data/book.pdf";
                 chunk "Розділ 1, Page 5" "archive/book.pdf"]
              = {[ (py "Розділ 1", py "book.pdf") := {[ py "5" ]} ]})
    by (vm_compute; reflexivity).
  rewrite G.
  assert (K : sorted_keys ({[ (py "Розділ 1", py "book.pdf") := {[ py "5" ]} ]}
                           : gmap (str * str) (gset str))
              = Ok [(py "Розділ 1", py "book.pdf")])
    by (vm_compute; reflexivity).
  rewrite K. cbn [bind map_result].
  unfold render_group. rewrite lookup_singleton_eq. cbn [from_option id].
  rewrite bool_decide_eq_false_2 by apply non_empty_singleton_L.
  rewrite (sort_pages_singleton _ _ page_key_5). cbn [bind].
  vm_compute. reflexivity.
Qed.
End Examples.

(** C5. Two chunks whose citation references parse to the same title and
    whose source paths end in the same file name fall into one group: the
    grouping holds exactly one entry for their key, its page tokens are a set
    that holds the non-empty page tokens of all chunks of that key (a token
    brought twice is in it once), and the key is rendered once.  Two chunks
    with the same title, the same file name and the page "5" give the single
    line with that page once. *)
Theorem same_key_one_group (rt : Runtime) :
  (forall (docs : list Document) (d1 d2 : Document),
      d1 ∈ docs -> d2 ∈ docs -> doc_key rt d1 = doc_key rt d2 ->
      exists (pages : gset str) (keys : list (str * str)),
        group_sources rt docs !! doc_key rt d1 = Some pages /\
        group_sources rt docs !! doc_key rt d2 = Some pages /\
        (forall p, p ∈ pages <->
                   p <> [] /\
                   exists d, d ∈ docs /\ doc_key rt d = doc_key rt d1 /\
                             doc_page rt d = Some p) /\
        NoDup (set_order rt (elements pages)) /\
        sorted_keys (group_sources rt docs) = Ok keys /\
        NoDup keys /\ doc_key rt d1 ∈ keys) /\
  process_sources rt
    [chunk "Розділ 1, Стор. 5" "data/book.pdf"; chunk "Розділ 1, Page 5" "archive/book.pdf"]
  = Ok (header ++ py "1. Розділ 1 (Стор. 5) — [book.pdf]").
Proof.
  split; [|apply same_page_rendered_once].
  intros docs d1 d2 H1 H2 E.
  destruct (sorted_keys_ok (group_sources rt docs)) as (keys & K & P).
  exists (key_pages rt (doc_key rt d1) docs), keys.
  split; [now apply group_sources_key|].
  split; [rewrite E; now apply group_sources_key|].
  split; [apply elem_of_key_pages|].
  split; [rewrite set_order_perm; apply NoDup_elements|].
  split; [exact K|]. split; [now apply sorted_keys_nodup with (g := group_sources rt docs)|].
  rewrite P, elem_of_elements. apply elem_of_dom_groups. eauto.
Qed.

Lemma same_key_one_group_witness :
  let d1 := chunk "Розділ 1, Стор. 5" "data/book.pdf" in
  let d2 := chunk "Розділ 1, Page 5" "archive/book.pdf" in
  let docs := [d1; chunk "Вступ" "data/book.pdf"; d2] in
  d1 ∈ docs /\ d2 ∈ docs /\ doc_key py_default d1 = doc_key py_default d2 /\
  exists (pages : gset str) (keys : list (str * str)),
    group_sources py_default docs !! doc_key py_default d1 = Some pages /\
    group_sources py_default docs !! doc_key py_default d2 = Some pages /\
    (forall p, p ∈ pages <->
               p <> [] /\
               exists d, d ∈ docs /\ doc_key py_default d = doc_key py_default d1 /\
                         doc_page py_default d = Some p) /\
    NoDup (set_order py_default (elements pages)) /\
    sorted_keys (group_sources py_default docs) = Ok keys /\
    NoDup keys /\ doc_key py_default d1 ∈ keys.
Proof.
  intros d1 d2 docs.
  assert (H1 : d1 ∈ docs) by (left).
  assert (H2 : d2 ∈ docs) by (right; right; left).
  assert (E : doc_key py_default d1 = doc_key py_default d2) by (vm_compute; reflexivity).
  split; [exact H1|]. split; [exact H2|]. split; [exact E|].
  exact (proj1 (same_key_one_group py_default) docs d1 d2 H1 H2 E).
Defined.

(** C6. [merge] returns the answer followed by the result of
    [process_sources] (and raises where that raises); for an empty chunk list
    [process_sources] returns the empty string, so the answer comes back
    unchanged: [merge("Answer text", [])] is ["Answer text"]. *)
Theorem merge_appends_sources (rt : Runtime) :
  (forall (answer : str) (docs : list Document),
      merge rt answer docs =
      match process_sources rt docs with
      | Ok citations => Ok (answer ++ citations)
      | Raise e => Raise e
      end) /\
  process_sources rt [] = Ok [] /\
  (forall answer : str, merge rt answer [] = Ok answer) /\
  merge rt (py "Answer text") [] = Ok (py "Answer text").
Proof.
  split; [reflexivity|]. split; [reflexivity|].
  split; [intros answer; unfold merge; cbn [process_sources bind]; now rewrite app_nil_r|].
  reflexivity.
Qed.

(** C10, which the code does not meet on every input. For a non-empty
    chunk list in which each group's page tokens are all non-numeric or all
    decimal, [process_sources] returns a non-empty string: a blank line, thirty
    '=' characters, the header line, and one numbered line per group; the
    branch for an empty list of lines is not taken.  Where a group mixes
    numeric and other page tokens the call raises instead. *)
Theorem sources_block_for_chunks (rt : Runtime) :
  (forall docs : list Document,
      docs <> [] ->
      (forall k ps, group_sources rt docs !! k = Some ps -> pages_sortable rt ps) ->
      exists (keys : list (str * str)) (output_lines : list str),
        keys ≡ₚ elements (dom (group_sources rt docs)) /\
        Forall2 (fun k line => render_group rt (group_sources rt docs) k = Ok line)
          keys output_lines /\
        output_lines <> [] /\
        length output_lines = size (group_sources rt docs) /\
        process_sources rt docs =
        Ok ([LF; LF] ++ replicate 30 0x3D%N ++ LF :: py "Джерела:" ++ [LF]
            ++ join [LF] (numbered output_lines))) /\
  process_sources py_default [chunk "A, Стор. 5" "b.pdf"; chunk "A, Стор. iv" "b.pdf"]
  = Raise TypeError.
Proof.
  split; [|vm_compute; reflexivity].
  intros docs Hne Hs.
  destruct (process_sources_ok rt docs Hne Hs) as (keys & lines & P & F & Hl & E).
  exists keys, lines. split; [exact P|]. split; [exact F|]. split; [exact Hl|].
  split.
  - rewrite <- (Forall2_length _ _ _ F), P, <- size_dom. reflexivity.
  - rewrite E. unfold header. now rewrite <- !app_assoc.
Qed.

Lemma sources_block_for_chunks_witness :
  let docs := [chunk "Розділ 2, Стор. 10" "data/book.pdf";
               chunk "Розділ 2, Стор. 9" "data/book.pdf";
               chunk "Вступ" "data/notes.pdf";
               chunk "Розділ 1, Стор. iv" "data/book.pdf"] in
  docs <> [] /\
  (forall k ps, group_sources py_default docs !! k = Some ps -> pages_sortable py_default ps) /\
  exists (keys : list (str * str)) (output_lines : list str),
    keys ≡ₚ elements (dom (group_sources py_default docs)) /\
    Forall2 (fun k line => render_group py_default (group_sources py_default docs) k = Ok line)
      keys output_lines /\
    output_lines <> [] /\
    length output_lines = size (group_sources py_default docs) /\
    process_sources py_default docs =
    Ok ([LF; LF] ++ replicate 30 0x3D%N ++ LF :: py "Джерела:" ++ [LF]
        ++ join [LF] (numbered output_lines)).
Proof.
  intros docs.
  assert (Hne : docs <> []) by discriminate.
  assert (Hs : forall k ps, group_sources py_default docs !! k = Some ps ->
                            pages_sortable py_default ps)
    by (apply pages_sortable_check; vm_compute; reflexivity).
  split; [exact Hne|]. split; [exact Hs|].
  exact (proj1 (sources_block_for_chunks py_default) docs Hne Hs).
Defined.


(** ** The normal form of [_clean_text] *)

Section SqueezeFacts.
Variable rt : Runtime.
Implicit Types (s a r : str).

Lemma spaces_match_space whole x r :
  isspace rt x = true ->
  match_here rt spaces_re whole (x :: r) = Some (lstrip rt r, []).
Proof.
  intros Hx. unfold match_here, spaces_re, Plus. cbn [rmatch cls_match]. rewrite Hx.
  now rewrite star_space_total by eauto.
Qed.

(** [\s+] is found at the first whitespace character and runs over all
    the whitespace from there. *)
Lemma search_spaces whole a x r :
  Forall (fun c => isspace rt c = false) a -> isspace rt x = true ->
  search_from rt spaces_re whole (a ++ x :: r) = Some (Found a (lstrip rt r) []).
Proof.
  intros Ha Hx. induction Ha as [|c a Hc _ IH]; cbn [app].
  - apply search_from_here, spaces_match_space, Hx.
  - cbn [search_from]. rewrite IH.
    unfold match_here, spaces_re, Plus. cbn [rmatch cls_match]. now rewrite Hc.
Qed.

Lemma first_space s :
  Forall (fun c => isspace rt c = false) s \/
  exists a x r, s = a ++ x :: r /\ Forall (fun c => isspace rt c = false) a /\
                isspace rt x = true.
Proof.
  induction s as [|c s IH]; [left; constructor|].
  destruct (isspace rt c) eqn:Hc.
  - right. exists [], c, s. repeat split; [constructor|exact Hc].
  - destruct IH as [H|(a & x & r & -> & Ha & Hx)]; [left; now constructor|].
    right. exists (c :: a), x, r. repeat split; [now constructor|exact Hx].
Qed.

Lemma lstrip_length s : (length (lstrip rt s) <= length s)%nat.
Proof.
  destruct (lstrip_suffix rt s) as (a & E & _).
  rewrite E at 2. rewrite length_app. lia.
Qed.

Lemma squeeze_nonspace b a s :
  Forall (fun c => isspace rt c = false) a ->
  squeeze rt b (a ++ s) = a ++ squeeze rt (match a with [] => b | _ => false end) s.
Proof.
  intros Ha. revert b. induction Ha as [|c a Hc _ IH]; intros b; [reflexivity|].
  cbn [app squeeze]. rewrite Hc, IH. now destruct a.
Qed.

Lemma squeeze_lstrip s : squeeze rt true s = squeeze rt false (lstrip rt s).
Proof.
  induction s as [|c s IH]; [reflexivity|]. cbn [squeeze lstrip].
  destruct (isspace rt c) eqn:Hc; [exact IH|]. cbn [squeeze]. now rewrite Hc.
Qed.

Lemma sub_spaces fuel whole s :
  (length s < fuel)%nat ->
  sub_loop rt fuel spaces_re (fun _ => [0x20%N]) whole s = squeeze rt false s.
Proof.
  revert s. induction fuel as [|fuel IH]; intros s Hf; [lia|].
  destruct (first_space s) as [H|(a & x & r & -> & Ha & Hx)].
  - rewrite sub_loop_no_match by now apply spaces_no_match.
    rewrite <- (app_nil_r s) at 2. rewrite squeeze_nonspace by exact H.
    cbn [squeeze]. now rewrite app_nil_r.
  - cbn [sub_loop]. rewrite search_spaces by assumption.
    cbn [m_before m_after m_groups].
    pose proof (lstrip_length r) as L.
    rewrite length_app in Hf. cbn [length] in Hf.
    replace (length a + length (lstrip rt r) =? length (a ++ x :: r))%nat with false
      by (symmetry; apply Nat.eqb_neq; rewrite length_app; cbn [length]; lia).
    rewrite IH by lia.
    rewrite squeeze_nonspace by exact Ha. cbn [squeeze]. rewrite Hx.
    rewrite squeeze_lstrip. now destruct a.
Qed.

(** [re.sub(r'\s+', ' ', s)] replaces every run of whitespace by one
    space. *)
Lemma re_sub_spaces s :
  re_sub rt spaces_re (fun _ => [0x20%N]) s = squeeze rt false s.
Proof. unfold re_sub. apply sub_spaces. lia. Qed.

Lemma space_is_space : isspace rt 0x20 = true.
Proof. reflexivity. Qed.

Lemma squeeze_plain b s : plain_spaces rt (squeeze rt b s).
Proof.
  revert b. induction s as [|c s IH]; intros b; [constructor|]. cbn [squeeze].
  destruct (isspace rt c) eqn:Hc.
  - destruct b; [apply IH|]. constructor; [reflexivity|apply IH].
  - constructor; [congruence|apply IH].
Qed.

Lemma squeeze_head_true s c : head (squeeze rt true s) = Some c -> isspace rt c = false.
Proof.
  induction s as [|x s IH]; [discriminate|]. cbn [squeeze].
  destruct (isspace rt x) eqn:Hx; [exact IH|]. cbn. now intros [= <-].
Qed.

Lemma squeeze_no_run b s : space_run rt (squeeze rt b s) = false.
Proof.
  revert b. induction s as [|c s IH]; intros b; [reflexivity|]. cbn [squeeze].
  destruct (isspace rt c) eqn:Hc.
  - destruct b; [apply IH|]. cbn [space_run]. rewrite IH, orb_false_r.
    rewrite space_is_space. cbn [andb].
    destruct (squeeze rt true s) as [|d t] eqn:E; [reflexivity|].
    apply squeeze_head_true with (s := s). now rewrite E.
  - cbn [space_run]. now rewrite Hc, IH.
Qed.
End SqueezeFacts.

Section StripFacts.
Variable rt : Runtime.
Implicit Types (s a b r : str).

Lemma lstrip_head s c : head (lstrip rt s) = Some c -> isspace rt c = false.
Proof.
  induction s as [|x s IH]; [discriminate|]. cbn [lstrip].
  destruct (isspace rt x) eqn:Hx; [exact IH|]. cbn. now intros [= <-].
Qed.

Lemma last_rev_head s : last (rev s) = head s.
Proof. destruct s as [|x s]; [reflexivity|]. cbn [rev]. apply last_snoc. Qed.

Lemma head_rev_last s : head (rev s) = last s.
Proof. rewrite <- (rev_involutive s) at 2. symmetry. apply last_rev_head. Qed.

Lemma rstrip_prefix s : exists a, s = rstrip rt s ++ a /\ spaces rt a.
Proof.
  unfold rstrip. destruct (lstrip_suffix rt (rev s)) as (a & E & Ha).
  exists (rev a). split; [|now apply List.Forall_rev].
  rewrite <- rev_app_distr, <- E. now rewrite rev_involutive.
Qed.

Lemma rstrip_last s c : last (rstrip rt s) = Some c -> isspace rt c = false.
Proof. unfold rstrip. rewrite last_rev_head. apply lstrip_head. Qed.

Lemma rstrip_head s c :
  (forall x, head s = Some x -> isspace rt x = false) ->
  head (rstrip rt s) = Some c -> isspace rt c = false.
Proof.
  intros Hs H. destruct (rstrip_prefix s) as (a & E & _).
  apply Hs. rewrite E. destruct (rstrip rt s); [discriminate|exact H].
Qed.

Lemma strip_trimmed s : trimmed rt (strip rt s).
Proof.
  unfold strip. split; intros c H.
  - eapply rstrip_head; [|exact H]. apply lstrip_head.
  - eapply rstrip_last, H.
Qed.

Lemma lstrip_fix s :
  (forall c, head s = Some c -> isspace rt c = false) -> lstrip rt s = s.
Proof. destruct s as [|x s]; [reflexivity|]. intros H. cbn. now rewrite (H x eq_refl). Qed.

Lemma rstrip_fix s :
  (forall c, last s = Some c -> isspace rt c = false) -> rstrip rt s = s.
Proof.
  intros H. unfold rstrip. rewrite lstrip_fix; [apply rev_involutive|].
  intros c Hc. apply H. now rewrite <- head_rev_last.
Qed.

Lemma strip_fix s : trimmed rt s -> strip rt s = s.
Proof. intros [H1 H2]. unfold strip. rewrite lstrip_fix by exact H1. now apply rstrip_fix. Qed.

(** What [strip] keeps is a segment of its argument. *)
Lemma strip_segment s : exists a b, s = a ++ strip rt s ++ b /\ spaces rt a /\ spaces rt b.
Proof.
  unfold strip. destruct (lstrip_suffix rt s) as (a & E & Ha).
  destruct (rstrip_prefix (lstrip rt s)) as (b & E' & Hb).
  exists a, b. repeat split; try assumption. now rewrite <- E'.
Qed.

Lemma space_run_app_l a b : space_run rt (a ++ b) = false -> space_run rt a = false.
Proof.
  induction a as [|c a IH]; [reflexivity|]. cbn [app space_run]. intros H.
  apply orb_false_iff in H as [H1 H2]. rewrite (IH H2), orb_false_r.
  destruct a as [|d a]; [apply andb_false_r|exact H1].
Qed.

Lemma space_run_app_r a b : space_run rt (a ++ b) = false -> space_run rt b = false.
Proof.
  induction a as [|c a IH]; [auto|]. cbn [app space_run]. intros H.
  apply orb_false_iff in H as [_ H]. auto.
Qed.

Lemma strip_no_run s : space_run rt s = false -> space_run rt (strip rt s) = false.
Proof.
  intros H. destruct (strip_segment s) as (a & b & E & _). rewrite E in H.
  apply space_run_app_r in H. now apply space_run_app_l in H.
Qed.

Lemma strip_plain s : plain_spaces rt s -> plain_spaces rt (strip rt s).
Proof.
  intros H. destruct (strip_segment s) as (a & b & E & _). unfold plain_spaces in *.
  rewrite E in H. apply Forall_app in H as [_ H]. now apply Forall_app in H as [H _].
Qed.

Lemma plain_no_lf s : plain_spaces rt s -> no_lf s.
Proof.
  intros H. eapply Forall_impl; [exact H|]. intros c Hc. cbn beta in Hc.
  destruct (N.eqb_spec c LF) as [->|]; [|reflexivity].
  specialize (Hc eq_refl). discriminate.
Qed.

Lemma plain_no_nbsp s : plain_spaces rt s -> Forall (fun c => (c =? 0xA0)%N = false) s.
Proof.
  intros H. eapply Forall_impl; [exact H|]. intros c Hc. cbn beta in Hc.
  destruct (N.eqb_spec c 0xA0) as [->|]; [|reflexivity].
  specialize (Hc eq_refl). discriminate.
Qed.

(** A text in normal form has nothing to squeeze. *)
Lemma squeeze_normal s :
  plain_spaces rt s -> space_run rt s = false -> squeeze rt false s = s.
Proof.
  induction 1 as [|c s Hc _ IH]; [reflexivity|]. cbn [space_run squeeze]. intros H.
  apply orb_false_iff in H as [H1 H2]. specialize (IH H2).
  destruct (isspace rt c) eqn:E.
  - rewrite (Hc eq_refl). f_equal. destruct s as [|d s]; [reflexivity|].
    cbn [andb] in H1. cbn [squeeze] in *. rewrite H1 in *. exact IH.
  - now rewrite IH.
Qed.
End StripFacts.

Section HyphenFacts.
Variable rt : Runtime.
Implicit Types (s a b r : str).

(** The hyphen pattern needs a line feed. *)
Lemma hyphen_needs_lf whole s x : match_here rt hyphen_re whole s = Some x -> ~ no_lf s.
Proof.
  unfold match_here, hyphen_re, Plus. cbn [rmatch]. intros H Hs.
  destruct s as [|c s]; [discriminate|].
  destruct (cls_match rt CWord c); [|discriminate].
  apply star_sound in H as (a & b & E & _ & H).
  destruct b as [|h b]; [discriminate|].
  destruct (cls_match rt (CLit 0x2D) h); [|discriminate].
  destruct b as [|l b]; [discriminate|].
  destruct (cls_match rt (CLit LF) l) eqn:El; [|discriminate].
  cbn [cls_match] in El.
  inversion Hs as [|? ? _ Hs']; subst. apply Forall_app in Hs' as [_ Hb].
  inversion Hb as [|? ? _ Hb']; subst. inversion Hb' as [|? ? Hl _]; subst. congruence.
Qed.

Lemma hyphen_no_match s : no_lf s -> re_sub rt hyphen_re hyphen_repl s = s.
Proof.
  intros Hs. unfold re_sub. apply sub_loop_no_match.
  destruct (search_from rt hyphen_re s s) as [f|] eqn:E; [|reflexivity].
  apply search_sound in E as (a & b & x & Es & Hx).
  apply hyphen_needs_lf in Hx. destruct Hx. rewrite Es in Hs.
  now apply Forall_app in Hs as [_ Hs].
Qed.
End HyphenFacts.

Section NormalForm.
Variable rt : Runtime.

Lemma clean_text_normal text : normal rt (_clean_text rt text).
Proof.
  unfold _clean_text. destruct text as [|c t].
  { repeat split; try constructor; discriminate. }
  rewrite re_sub_spaces. repeat split.
  - apply strip_plain, squeeze_plain.
  - apply strip_no_run, squeeze_no_run.
  - apply strip_trimmed.
  - apply strip_trimmed.
Qed.

Lemma clean_text_fixed s : normal rt s -> _clean_text rt s = s.
Proof.
  intros (Hp & Hr & Ht). unfold _clean_text. destruct s as [|c t] eqn:E; [reflexivity|].
  rewrite <- E in *. clear E.
  rewrite hyphen_no_match by now apply plain_no_lf with (rt := rt).
  rewrite replace_char_absent by now apply plain_no_nbsp with (rt := rt).
  rewrite re_sub_spaces, squeeze_normal by assumption.
  now apply strip_fix.
Qed.

Lemma clean_text_no_lf text : no_lf (_clean_text rt text).
Proof. eapply plain_no_lf, clean_text_normal. Qed.

Lemma clean_text_strip text : strip rt (_clean_text rt text) = _clean_text rt text.
Proof. apply strip_fix, clean_text_normal. Qed.
End NormalForm.

(** X1. Whatever the input, the text that [_clean_text] returns is in
    normal form: its only whitespace characters are spaces U+0020 (no line
    feed, tab or no-break space is left), no two of them stand side by side,
    and it neither starts nor ends with whitespace. *)
Theorem clean_text_normal_form (rt : Runtime) (text : str) :
  let r := _clean_text rt text in
  (forall c, c ∈ r -> isspace rt c = true -> c = 0x20%N) /\
  space_run rt r = false /\
  (forall c, head r = Some c -> isspace rt c = false) /\
  (forall c, last r = Some c -> isspace rt c = false) /\
  no_lf r.
Proof.
  intros r. destruct (clean_text_normal rt text) as (Hp & Hr & Ht1 & Ht2).
  repeat split; try assumption.
  - intros c Hc. unfold plain_spaces in Hp. rewrite Forall_forall in Hp. now apply Hp.
  - apply clean_text_no_lf.
Qed.

(** X2. The texts in normal form are exactly the texts that [_clean_text]
    leaves unchanged, so that normalizing twice is normalizing once. *)
Theorem clean_text_idempotent (rt : Runtime) :
  (forall s, _clean_text rt s = s <-> normal rt s) /\
  (forall text, _clean_text rt (_clean_text rt text) = _clean_text rt text).
Proof.
  split.
  - intros s. split; [intros <-; apply clean_text_normal|apply clean_text_fixed].
  - intros text. apply clean_text_fixed, clean_text_normal.
Qed.


(** ** Hyphenated breaks in any text *)

Section SearchMore.
Variable rt : Runtime.
Implicit Types (s pre m : str).

Lemma search_found r whole s f :
  search_from rt r whole s = Some f ->
  exists b, s = m_before f ++ b /\ match_here rt r whole b = Some (m_after f, m_groups f).
Proof.
  revert f. induction s as [|c s IH]; intros f H; cbn [search_from] in H.
  - destruct (match_here rt r whole []) as [[s' g]|] eqn:E; [|discriminate].
    injection H as <-. exists []. auto.
  - destruct (match_here rt r whole (c :: s)) as [[s' g]|] eqn:E.
    + injection H as <-. exists (c :: s). auto.
    + destruct (search_from rt r whole s) as [f'|]; [|discriminate].
      injection H as <-. destruct (IH f' eq_refl) as (b & Es & Hb).
      exists b. cbn [m_before m_after m_groups]. split; [now rewrite Es at 1|exact Hb].
Qed.

End SearchMore.

Section HyphenBreaks.
Variable rt : Runtime.
Implicit Types (s pre post rest w ws u v : str) (g : caps).











(** *** The substitution does not depend on the fuel *)





(** *** The first break of a text, and a text before its first break *)






End HyphenBreaks.





(** ** Headings, and a whole pass of the tracker *)

Section Headings.
Variable rt : Runtime.
Implicit Types (text s : str).

Lemma re_match_word lo text :
  re_match rt (Bol ;; ilit lo)%re text =
  if ci_prefix rt lo text then Some (Found [] (drop (length lo) text) []) else None.
Proof.
  unfold re_match, match_here. cbn [rmatch]. rewrite Nat.eqb_refl, ilit_match.
  now destruct (ci_prefix rt lo text).
Qed.

Lemma digits_total (s : str) (g : caps) :
  is_Some (star rt CDigit s (fun s' => Some (s', g))).
Proof. apply star_total. eauto. Qed.

Lemma space_not_decimal c : isspace rt c = true -> isdecimal rt c = false.
Proof. unfold isspace, isdecimal. now destruct (kind rt c). Qed.

Lemma re_match_paragraph text :
  is_Some (re_match rt (Bol ;; One (CLit 0xA7) ;; Opt CSpace ;; Plus CDigit)%re text)
  <-> paragraph_start rt text = true.
Proof.
  unfold re_match, match_here, Opt, Plus. cbn [rmatch]. rewrite Nat.eqb_refl.
  destruct text as [|c [|d r]]; cbn [paragraph_start cls_match].
  - split; [intros [? ?]|]; discriminate.
  - destruct (c =? 0xA7)%N; (split; [intros [? ?]|]; discriminate).
  - destruct (c =? 0xA7)%N; cbn [andb]; [|split; [intros [? ?]|]; discriminate].
    destruct (isspace rt d) eqn:Hd.
    + rewrite (space_not_decimal d Hd). cbn [orb andb].
      destruct r as [|e r]; [split; [intros [? ?]|]; discriminate|].
      destruct (isdecimal rt e); [|split; [intros [? ?]|]; discriminate].
      destruct (digits_total r []) as [[s1 g1] ->]. split; [reflexivity|eauto].
    + cbn [andb]. rewrite orb_false_r.
      destruct (isdecimal rt d); [|split; [intros [? ?]|]; discriminate].
      destruct (digits_total r []) as [[s1 g1] ->]. split; [reflexivity|eauto].
Qed.
End Headings.

(** X3. A normalized text is taken as a heading exactly when it starts with
    a section sign, at most one whitespace character and a decimal digit, or
    with one of the words "розділ", "глава", "тема" in any letter case; the
    reference is then the whole text, whatever follows the start. *)
Theorem heading_is_a_prefix_test (rt : Runtime) (text : str) :
  _extract_citation_ref rt text = if heading_start rt text then Some text else None.
Proof.
  unfold _extract_citation_ref, patterns, heading_start. cbn [first_pattern].
  rewrite !re_match_word.
  pose proof (re_match_paragraph rt text) as P.
  destruct (re_match rt _ text) as [f|].
  - rewrite (proj1 P) by eauto. reflexivity.
  - destruct (paragraph_start rt text).
    + destruct (proj2 P eq_refl) as [? ?]. discriminate.
    + cbn [orb]. destruct (ci_prefix rt (py "розділ") text); [reflexivity|].
      destruct (ci_prefix rt (py "глава") text); [reflexivity|].
      destruct (ci_prefix rt (py "тема") text); reflexivity.
Qed.

Section NormalCheck.
Variable rt : Runtime.

Lemma normal_check s :
  forallb (fun c => implb (isspace rt c) (c =? 0x20)%N) s = true ->
  space_run rt s = false ->
  match head s with Some c => isspace rt c | None => false end = false ->
  match last s with Some c => isspace rt c | None => false end = false ->
  normal rt s.
Proof.
  intros H1 H2 H3 H4. repeat split.
  - apply Forall_forall. intros c Hc Hs. rewrite forallb_forall in H1.
    apply list_elem_of_In in Hc. specialize (H1 c Hc). rewrite Hs in H1.
    now apply N.eqb_eq in H1.
  - exact H2.
  - intros c E. now rewrite E in H3.
  - intros c E. now rewrite E in H4.
Qed.
End NormalCheck.

Section Run.
Variable rt : Runtime.
Variable fp : str.
Implicit Types (st : Tracker) (doc d : RawDocument) (e : Document).

Lemma start_context : context_ok rt (current_section start) (current_citation_ref start).
Proof.
  split; [|split; [discriminate|right; split; reflexivity]].
  apply normal_check; vm_compute; reflexivity.
Qed.

Lemma heading_context doc h :
  _is_garbage rt (content rt doc) = false ->
  _extract_citation_ref rt (content rt doc) = Some h -> context_ok rt h h.
Proof.
  intros G E. apply extract_text in E as ->. split; [apply clean_text_normal|].
  split; [now apply not_garbage_nonempty with (rt := rt)|now left].
Qed.

(** A pass from a context the tracker can be in: one document for each
    retained fragment, in their order, and such a context at the end. *)
Lemma run_context docs st :
  context_ok rt (current_section st) (current_citation_ref st) ->
  exists out,
    processed_docs (fold_left (process_document rt fp) docs st) = processed_docs st ++ out /\
    Forall2 (tagged rt fp) (List.filter (retained rt) docs) out /\
    context_ok rt (current_section (fold_left (process_document rt fp) docs st))
      (current_citation_ref (fold_left (process_document rt fp) docs st)).
Proof.
  revert st. induction docs as [|d docs IH]; intros st Hst.
  { exists []. rewrite app_nil_r. split; [reflexivity|]. split; [apply Forall2_nil_2|exact Hst]. }
  cbn [fold_left List.filter]. unfold retained at 1.
  destruct (_is_garbage rt (content rt d)) eqn:G; cbn [negb].
  { rewrite process_garbage by exact G. now apply IH. }
  destruct (_extract_citation_ref rt (content rt d)) as [h|] eqn:E.
  - destruct (process_heading rt fp st d h G E) as (e & He & ->).
    pose proof (heading_context d h G E) as Hh.
    destruct (IH {| current_section := h; current_citation_ref := h;
                    processed_docs := processed_docs st ++ [e] |} Hh) as (out & Ho & F & C).
    cbn [processed_docs] in Ho.
    exists (e :: out). split; [now rewrite Ho, <- app_assoc|]. split; [|exact C].
    constructor; [now exists h, h|exact F].
  - destruct (process_plain rt fp st d G E) as (e & He & ->).
    destruct (IH {| current_section := current_section st;
                    current_citation_ref := current_citation_ref st;
                    processed_docs := processed_docs st ++ [e] |} Hst) as (out & Ho & F & C).
    cbn [processed_docs] in Ho.
    exists (e :: out). split; [now rewrite Ho, <- app_assoc|]. split; [|exact C].
    constructor; [now exists (current_section st), (current_citation_ref st)|exact F].
Qed.

Lemma pass_tagged docs :
  Forall2 (tagged rt fp) (List.filter (retained rt) docs)
    (processed_docs (tag_documents rt fp docs)).
Proof.
  destruct (run_context docs start start_context) as (out & Ho & F & _).
  unfold tag_documents. now rewrite Ho.
Qed.

Lemma pass_member docs e :
  e ∈ processed_docs (tag_documents rt fp docs) ->
  exists d, d ∈ docs /\ retained rt d = true /\ tagged rt fp d e.
Proof.
  intros He. pose proof (pass_tagged docs) as F.
  apply list_elem_of_lookup in He as [i Hi].
  destruct (Forall2_lookup_r _ _ _ _ _ F Hi) as (d & Hd & T).
  apply list_elem_of_lookup_2, list_elem_of_In, filter_In in Hd as [Hd R].
  exists d. split; [now apply list_elem_of_In|auto].
Qed.
End Run.

(** X4. A pass over any list of raw fragments returns exactly one document
    for each retained fragment, in the order of the fragments.  Each carries
    the path of the file as its source, a section and a citation reference
    that are never empty, the normalized text of its fragment after the
    injected section line, and its own page suffix; the section and the
    reference are one heading in normal form, or the two initial names. *)
Theorem one_document_per_retained_fragment (rt : Runtime) (fp : str)
    (docs : list RawDocument) :
  let out := processed_docs (tag_documents rt fp docs) in
  length out = length (List.filter (retained rt) docs) /\
  Forall2 (fun d e =>
      exists sec ref,
        sec <> [] /\ ref <> [] /\ no_lf ref /\
        (sec = ref \/ (sec = py "Вступ" /\ ref = py "Загальний контекст")) /\
        page_content e = py "Розділ: " ++ sec ++ LF :: py "Текст: " ++ content rt d /\
        source (metadata e) = Some fp /\
        section (metadata e) = Some sec /\
        citation_ref (metadata e) = Some (ref ++ page_info d))
    (List.filter (retained rt) docs) out.
Proof.
  intros out. pose proof (pass_tagged rt fp docs) as F. fold out in F.
  split; [symmetry; eapply Forall2_length, F|].
  eapply Forall2_impl; [exact F|]. intros d e (sec & ref & E & (N & Hr & Hs)).
  destruct E as (E1 & E2 & E3 & E4 & _).
  exists sec, ref. repeat split; try assumption.
  - destruct Hs as [->|[-> _]]; [exact Hr|discriminate].
  - apply plain_no_lf with (rt := rt), N.
Qed.

Lemma start_section : current_section start = py "Вступ".
Proof. reflexivity. Qed.

Lemma start_ref : current_citation_ref start = py "Загальний контекст".
Proof. reflexivity. Qed.

(** X5. In a file where no retained fragment matches a heading pattern,
    every document carries the initial section "Вступ" and the initial
    citation reference "Загальний контекст", followed by its page suffix. *)
Theorem no_heading_keeps_initial_context (rt : Runtime) (fp : str)
    (docs : list RawDocument) :
  no_heading rt docs ->
  Forall2 (emits rt fp (py "Вступ") (py "Загальний контекст"))
    (List.filter (retained rt) docs) (processed_docs (tag_documents rt fp docs)).
Proof.
  intros H. destruct (run_plain rt fp docs start H) as (out & E & F).
  rewrite start_section, start_ref in F.
  unfold tag_documents. rewrite E. exact F.
Qed.

Lemma no_heading_keeps_initial_context_witness :
  let docs := [raw "Це звичайний абзац тексту." (Some 0%Z); raw "12" (Some 0%Z);
               raw "Ще один абзац без заголовка." (Some 1%Z)] in
  no_heading py_default docs /\
  Forall2 (emits py_default (py "book.pdf") (py "Вступ") (py "Загальний контекст"))
    (List.filter (retained py_default) docs)
    (processed_docs (tag_documents py_default (py "book.pdf") docs)).
Proof.
  intros docs.
  assert (H : no_heading py_default docs).
  { unfold docs, no_heading.
    repeat (apply List.Forall_cons; [intros _; vm_compute; reflexivity|]).
    apply List.Forall_nil. }
  split; [exact H|].
  exact (no_heading_keeps_initial_context py_default (py "book.pdf") docs H).
Defined.

Section PageDisplay.
Variable rt : Runtime.

Lemma str_of_N_nonempty n : str_of_N n <> [].
Proof.
  unfold str_of_N.
  destruct (digits_of_spec (S (N.to_nat (N.log2 n))) n []) as (X & -> & NX & _); [lia| |].
  - rewrite Nat2N.inj_succ, N2Nat.id. destruct n as [|p]; [reflexivity|].
    apply N.log2_spec. reflexivity.
  - now rewrite app_nil_r.
Qed.

Lemma digit_plain c :
  ascii_digit c = true ->
  isdecimal rt c = true /\ isspace rt c = false /\ (c =? 0x2C)%N = false /\
  (c =? LF)%N = false /\ c <> 0x2E%N.
Proof.
  unfold ascii_digit, between. intros H. pose proof H as H'.
  apply andb_true_iff in H' as [L U]. apply N.leb_le in L. apply N.leb_le in U.
  assert (T : in_table c = true).
  { unfold in_table. apply orb_true_iff. left. apply N.ltb_lt. lia. }
  unfold isdecimal, isspace, kind, table_kind, between. rewrite T, H.
  repeat split; try (apply N.eqb_neq; unfold LF; lia). lia.
Qed.

(** The display of a page that is not negative is a decimal token. *)
Lemma page_display_decimal n :
  (0 <= n)%Z -> (length (str_of_Z n) <=? 640)%nat = true ->
  decimal_token rt (str_of_Z n) = true.
Proof.
  intros Hn Hl. destruct (str_of_Z_spec n Hn) as [F _].
  apply decimal_token_short; [| |exact Hl].
  - destruct n as [|p|p]; [| |lia]; apply str_of_N_nonempty.
  - apply forallb_forall. intros c Hc. apply list_elem_of_In in Hc.
    rewrite Forall_forall in F. now apply digit_plain, F.
Qed.

Lemma str_of_Z_chars z : Forall (fun c => ascii_digit c = true \/ c = 0x2D%N) (str_of_Z z).
Proof.
  assert (H : forall n, Forall (fun c => ascii_digit c = true \/ c = 0x2D%N) (str_of_N n)).
  { intros n. eapply Forall_impl; [apply (str_of_N_spec n)|]. intros c Hc. now left. }
  destruct z as [|p|p]; cbn [str_of_Z]; [apply H|apply H|].
  constructor; [now right|apply H].
Qed.

Lemma page_char_plain c :
  ascii_digit c = true \/ c = 0x2D%N ->
  isspace rt c = false /\ (c =? 0x2C)%N = false /\ (c =? LF)%N = false.
Proof.
  intros [H| ->]; [|repeat split].
  destruct (digit_plain c H) as (_ & H1 & H2 & H3 & _). auto.
Qed.

Lemma page_suffix_shape (ref pg : str) :
  ref ++ py ", Стор. " ++ pg =
  ref ++ 0x2C%N :: [0x20%N] ++ py "Стор" ++ [0x2E%N] ++ [0x20%N] ++ pg.
Proof. f_equal. Qed.

(** The reference that the tracker writes for a fragment with a page is
    read back by the parser as the reference and the page. *)
Lemma parse_page_suffix ref z :
  normal rt ref ->
  _parse_citation_string rt (ref ++ py ", Стор. " ++ str_of_Z z) = (ref, Some (str_of_Z z)).
Proof.
  intros N. pose proof (str_of_Z_chars z) as C.
  assert (Hs : Forall (fun c => isspace rt c = false) (str_of_Z z)).
  { eapply Forall_impl; [exact C|]. intros c Hc. now apply page_char_plain in Hc. }
  assert (Hl : no_lf (str_of_Z z)).
  { eapply Forall_impl; [exact C|]. intros c Hc. now apply page_char_plain in Hc. }
  assert (Hc : comma_marker rt (str_of_Z z) = false).
  { rewrite <- (app_nil_r (str_of_Z z)). rewrite comma_marker_skip; [reflexivity|].
    eapply Forall_impl; [exact C|]. intros c Hc. now apply page_char_plain in Hc. }
  rewrite page_suffix_shape.
  rewrite (parse_marker rt ref [0x20%N] (py "Стор") [0x2E%N] [0x20%N] (str_of_Z z)).
  - destruct N as (Np & Nr & Nt). rewrite strip_fix by exact Nt.
    now rewrite strip_id by exact Hs.
  - apply plain_no_lf with (rt := rt). apply N.
  - exact Hl.
  - repeat constructor.
  - repeat constructor.
  - left. split; [vm_compute; reflexivity|now right].
  - discriminate.
  - exact Hc.
Qed.

Lemma tagged_page fp d e n :
  tagged rt fp d e -> page_num d = Some n ->
  exists sec,
    section (metadata e) = Some sec /\
    page_number (metadata e) = Some (str_of_Z (n + 1)) /\
    doc_page rt e = Some (str_of_Z (n + 1)) /\
    ((doc_key rt e).1 = sec \/
     (sec = py "Вступ" /\ (doc_key rt e).1 = py "Загальний контекст")).
Proof.
  intros (sec & ref & (_ & _ & E3 & E4 & E5) & (N & _ & Hs)) Hn.
  unfold page_info in E4. rewrite Hn in E4, E5.
  exists sec. split; [exact E3|]. split; [exact E5|].
  unfold doc_page, doc_key, doc_ref. rewrite E4. cbn [from_option id].
  rewrite (parse_page_suffix ref (n + 1) N). cbn [fst snd].
  split; [reflexivity|]. destruct Hs as [->|[-> ->]]; [now left|now right].
Qed.
End PageDisplay.

(** X6. Round trip between the tracker and the parser: for every document
    of a pass that has a page number, [_parse_citation_string] reads its
    citation reference back as that page number and, as the title, the
    section of the document (or the initial reference "Загальний контекст"
    while the section is still the initial "Вступ"). *)
Theorem citation_ref_parses_back (rt : Runtime) (fp : str) (docs : list RawDocument)
    (e : Document) (pg : str) :
  e ∈ processed_docs (tag_documents rt fp docs) ->
  page_number (metadata e) = Some pg ->
  exists sec,
    section (metadata e) = Some sec /\
    doc_page rt e = Some pg /\
    ((doc_key rt e).1 = sec \/
     (sec = py "Вступ" /\ (doc_key rt e).1 = py "Загальний контекст")).
Proof.
  intros He Hp. destruct (pass_member rt fp docs e He) as (d & _ & _ & T).
  destruct (page_num d) as [n|] eqn:Hn.
  - destruct (tagged_page rt fp d e n T Hn) as (sec & H1 & H2 & H3 & H4).
    rewrite Hp in H2. injection H2 as ->. eauto.
  - destruct T as (sec & ref & (_ & _ & _ & _ & E5) & _). rewrite Hn in E5. congruence.
Qed.

Lemma citation_ref_parses_back_witness :
  let docs := [raw "Розділ 2. Основні поняття" (Some 4%Z);
               raw "Текст розділу, у якому є кома." (Some 5%Z)] in
  let e := {| page_content := py "Розділ: Розділ 2. Основні поняття" ++ LF ::
                              py "Текст: Текст розділу, у якому є кома.";
              metadata := {| source := Some (py "book.pdf");
                             section := Some (py "Розділ 2. Основні поняття");
                             citation_ref := Some (py "Розділ 2. Основні поняття, Стор. 6");
                             page_number := Some (py "6") |} |} in
  e ∈ processed_docs (tag_documents py_default (py "book.pdf") docs) /\
  page_number (metadata e) = Some (py "6") /\
  exists sec,
    section (metadata e) = Some sec /\
    doc_page py_default e = Some (py "6") /\
    ((doc_key py_default e).1 = sec \/
     (sec = py "Вступ" /\ (doc_key py_default e).1 = py "Загальний контекст")).
Proof.
  intros docs e.
  assert (He : e ∈ processed_docs (tag_documents py_default (py "book.pdf") docs)).
  { apply list_elem_of_In. vm_compute. right. left. reflexivity. }
  split; [exact He|]. split; [reflexivity|].
  exact (citation_ref_parses_back py_default (py "book.pdf") docs e (py "6") He eq_refl).
Defined.


(** ** File names *)

Section Basename.
Implicit Types (p dir name : str).

Lemma existsb_sep sep p :
  existsb (N.eqb sep) p = false -> Forall (fun c => (c =? sep)%N = false) p.
Proof.
  induction p as [|c p IH]; [constructor|]. cbn [existsb]. intros H.
  apply orb_false_iff in H as [H1 H2]. constructor; [|now apply IH].
  now rewrite N.eqb_sym.
Qed.

Lemma sep_existsb sep p :
  Forall (fun c => (c =? sep)%N = false) p -> existsb (N.eqb sep) p = false.
Proof.
  induction 1 as [|c p Hc _ IH]; [reflexivity|]. cbn [existsb].
  now rewrite N.eqb_sym, Hc, IH.
Qed.

Lemma after_last_free sep p : Forall (fun c => (c =? sep)%N = false) (after_last sep p).
Proof.
  induction p as [|c p IH]; [constructor|]. cbn [after_last].
  destruct (existsb (N.eqb sep) p) eqn:E; [exact IH|].
  apply existsb_sep in E. destruct (c =? sep)%N eqn:Hc; [exact E|now constructor].
Qed.

Lemma after_last_app sep dir name :
  Forall (fun c => (c =? sep)%N = false) name -> after_last sep (dir ++ sep :: name) = name.
Proof.
  intros H. induction dir as [|c dir IH]; cbn [app after_last].
  - now rewrite (sep_existsb _ _ H), N.eqb_refl.
  - rewrite existsb_app. cbn [existsb]. rewrite N.eqb_refl, orb_true_r. exact IH.
Qed.

Lemma after_last_id sep name :
  Forall (fun c => (c =? sep)%N = false) name -> after_last sep name = name.
Proof.
  destruct 1 as [|c p Hc H]; [reflexivity|]. cbn [after_last].
  now rewrite (sep_existsb _ _ H), Hc.
Qed.
End Basename.

(** X7. [_clean_filename] is the last component of a path: its result
    holds no slash; a path made of a directory, a slash and a name without a
    slash gives the name, whatever the directory; a name without a slash is
    returned as it is.  Chunks of files with one name in two directories
    therefore share their file name in the citations. *)
Theorem clean_filename_last_component :
  (forall path, no_slash (_clean_filename path)) /\
  (forall dir name, no_slash name -> _clean_filename (dir ++ 0x2F%N :: name) = name) /\
  (forall name, no_slash name -> _clean_filename name = name).
Proof.
  unfold _clean_filename, no_slash. split; [|split].
  - intros path. apply after_last_free.
  - intros dir name. apply after_last_app.
  - intros name. apply after_last_id.
Qed.

Lemma clean_filename_last_component_witness :
  no_slash (py "book.pdf") /\
  _clean_filename (py "data/2024" ++ 0x2F%N :: py "book.pdf") = py "book.pdf".
Proof.
  assert (H : no_slash (py "book.pdf")) by (apply Forall_forall; intros c Hc;
    apply list_elem_of_In in Hc; vm_compute in Hc;
    repeat (destruct Hc as [<-|Hc]; [reflexivity|]); destruct Hc).
  split; [exact H|].
  exact (proj1 (proj2 clean_filename_last_component) (py "data/2024") (py "book.pdf") H).
Defined.

(** ** The order of the groups *)

Section StringOrder.
Implicit Types (a b c : str).

Lemma str_lt_irrefl a : str_lt a a = false.
Proof.
  induction a as [|x a IH]; [reflexivity|]. cbn [str_lt].
  now rewrite N.ltb_irrefl, N.eqb_refl, IH.
Qed.

Lemma str_lt_trans a b c : str_lt a b = true -> str_lt b c = true -> str_lt a c = true.
Proof.
  revert b c. induction a as [|x a IH]; intros [|y b] [|z c] H1 H2; cbn [str_lt] in *;
    try discriminate; try reflexivity.
  apply orb_true_iff in H1 as [L1|E1]; apply orb_true_iff in H2 as [L2|E2];
    apply orb_true_iff.
  - left. apply N.ltb_lt in L1, L2. apply N.ltb_lt. lia.
  - apply andb_true_iff in E2 as [E2 _]. apply N.eqb_eq in E2 as <-. now left.
  - apply andb_true_iff in E1 as [E1 _]. apply N.eqb_eq in E1 as ->. now left.
  - apply andb_true_iff in E1 as [E1 T1]. apply andb_true_iff in E2 as [E2 T2].
    apply N.eqb_eq in E1 as ->. apply N.eqb_eq in E2 as ->.
    right. rewrite N.eqb_refl. eauto.
Qed.

Lemma str_lt_asym a b : str_lt a b = true -> str_lt b a = false.
Proof.
  intros H. destruct (str_lt b a) eqn:E; [|reflexivity].
  pose proof (str_lt_trans _ _ _ H E) as T. now rewrite str_lt_irrefl in T.
Qed.

Lemma str_lt_total a b : a <> b -> str_lt a b = true \/ str_lt b a = true.
Proof.
  revert b. induction a as [|x a IH]; intros [|y b] H; cbn [str_lt]; try congruence; auto.
  destruct (N.lt_trichotomy x y) as [L|[->|L]].
  - left. apply orb_true_iff. left. now apply N.ltb_lt.
  - rewrite N.ltb_irrefl, N.eqb_refl. cbn [orb andb]. apply IH. congruence.
  - right. apply orb_true_iff. left. now apply N.ltb_lt.
Qed.

Lemma pair_lt_trans (a b c : str * str) :
  pair_lt a b = true -> pair_lt b c = true -> pair_lt a c = true.
Proof.
  unfold pair_lt. destruct a as [a1 a2], b as [b1 b2], c as [c1 c2]. cbn [fst snd].
  intros L1 L2.
  destruct (bool_decide_reflect (a1 = b1)), (bool_decide_reflect (b1 = c1)),
    (bool_decide_reflect (a1 = c1)); subst;
    try congruence; try assumption; try (eapply str_lt_trans; eassumption).
  exfalso. pose proof (str_lt_trans _ _ _ L1 L2) as T.
  rewrite str_lt_irrefl in T. discriminate.
Qed.

Lemma pair_lt_asym (a b : str * str) : pair_lt a b = true -> pair_lt b a = false.
Proof.
  unfold pair_lt. destruct a as [a1 a2], b as [b1 b2]. cbn [fst snd].
  destruct (bool_decide_reflect (a1 = b1)), (bool_decide_reflect (b1 = a1));
    subst; try congruence; apply str_lt_asym.
Qed.

Lemma pair_lt_total (a b : str * str) : a <> b -> pair_lt a b = true \/ pair_lt b a = true.
Proof.
  unfold pair_lt. destruct a as [a1 a2], b as [b1 b2]. cbn [fst snd]. intros H.
  destruct (bool_decide_reflect (a1 = b1)), (bool_decide_reflect (b1 = a1));
    subst; try congruence; apply str_lt_total; congruence.
Qed.

Lemma key_before_trans : Transitive key_before.
Proof. intros a b c. apply pair_lt_trans. Qed.

Lemma key_before_spec (a b : str * str) :
  key_before a b <->
  str_lt a.2 b.2 = true \/ (a.2 = b.2 /\ str_lt a.1 b.1 = true).
Proof.
  unfold key_before, pair_lt. cbn [fst snd].
  destruct (bool_decide_reflect (a.2 = b.2)) as [E|E].
  - split; [auto|]. intros [H|[_ H]]; [|exact H].
    rewrite E, str_lt_irrefl in H. discriminate.
  - split; [auto|]. intros [H|[H _]]; [exact H|contradiction].
Qed.
End StringOrder.

Section KeySort.
Implicit Types (l : list (str * str)).

Lemma keys_keyed l :
  map_result (fun x : str * str => let* k := Ok (x.2, x.1) in Ok (k, x)) l
  = Ok (List.map (fun x => ((x.2, x.1), x)) l).
Proof. induction l as [|x l IH]; [reflexivity|]. cbn [map_result List.map]. now rewrite IH. Qed.

Lemma Sorted_distinct {A} (R R' : relation A) (l : list A) :
  (forall a b, R a b -> a <> b -> R' a b) -> NoDup l -> Sorted R l -> Sorted R' l.
Proof.
  intros H N S. induction S as [|x l S IH Hd]; [constructor|].
  apply NoDup_cons in N as [Nx N]. constructor; [now apply IH|].
  destruct Hd as [|y l Hxy]; constructor. apply H; [exact Hxy|].
  intros ->. apply Nx. left.
Qed.

Lemma sort_keys_of_spec l :
  NoDup l -> exists keys, sort_keys_of l = Ok keys /\ keys ≡ₚ l /\ Sorted key_before keys.
Proof.
  intros N. unfold sort_keys_of, sorted. rewrite keys_keyed. cbn [bind].
  set (kl := List.map (fun x : str * str => ((x.2, x.1), x)) l).
  destruct (sort_by_ok (fun a b => Ok (pair_lt a b)) kl) as [r S].
  { intros a b _ _. eauto. }
  rewrite S. cbn [bind]. exists (r.*2).
  pose proof (sort_by_perm _ _ _ S) as P.
  assert (E : kl.*2 = l).
  { unfold kl. clear. induction l as [|x l IH]; [reflexivity|]. cbn. now rewrite IH. }
  assert (Pl : r.*2 ≡ₚ l) by now rewrite P, E.
  split; [reflexivity|]. split; [exact Pl|].
  assert (K : Forall (fun kx : (str * str) * (str * str) => kx.1 = (kx.2.2, kx.2.1)) r).
  { rewrite P. unfold kl. apply Forall_forall. intros kx Hk.
    apply list_elem_of_In, in_map_iff in Hk as (x & <- & _). reflexivity. }
  pose proof (sort_by_sorted (fun a b => Ok (pair_lt a b))
                (fun a b H => f_equal Ok (pair_lt_asym a b (f_equal
                   (fun o => match o with Ok v => v | Raise _ => true end) H))) _ _ S) as Hs.
  apply (Sorted_strengthen _ _ _ Hs) in K.
  apply Sorted_distinct with (R := fun a b => pair_lt (b.2, b.1) (a.2, a.1) = false).
  - intros a b Hab Hne. unfold key_before.
    destruct (pair_lt_total (a.2, a.1) (b.2, b.1)) as [H|H]; [|exact H|congruence].
    intros [= E1 E2]. apply Hne. destruct a, b. cbn in *. congruence.
  - rewrite Pl. exact N.
  - eapply Sorted_fmap; [|exact K]. intros x y (Kx & Ky & L).
    unfold key_le in L. rewrite Kx, Ky in L. now injection L as L.
Qed.

Lemma key_before_unique l1 l2 :
  Sorted key_before l1 -> Sorted key_before l2 -> l1 ≡ₚ l2 -> l1 = l2.
Proof.
  apply (@Sorted_unique_strong _ key_before key_before_trans).
  intros a b _ _ H1 H2. unfold key_before in *.
  apply pair_lt_asym in H1. congruence.
Qed.
End KeySort.

(** X8. The groups are rendered in the order of their file names and,
    within one file, of their titles, both compared as strings; the keys are
    sorted without repetition into strictly increasing order, and the result
    is the same for every order in which the keys of the dictionary are
    listed. *)
Theorem groups_ordered_by_file_then_title (g : gmap (str * str) (gset str)) :
  (forall a b : str * str,
      key_before a b <->
      str_lt a.2 b.2 = true \/ (a.2 = b.2 /\ str_lt a.1 b.1 = true)) /\
  exists keys,
    sorted_keys g = Ok keys /\
    keys ≡ₚ elements (dom g) /\
    Sorted key_before keys /\
    forall l, l ≡ₚ elements (dom g) -> sort_keys_of l = Ok keys.
Proof.
  split; [apply key_before_spec|].
  destruct (sort_keys_of_spec (elements (dom g)) (NoDup_elements _)) as (keys & E & P & S).
  exists keys. split; [exact E|]. split; [exact P|]. split; [exact S|].
  intros l Hl.
  destruct (sort_keys_of_spec l) as (keys' & E' & P' & S').
  { rewrite Hl. apply NoDup_elements. }
  rewrite E'. f_equal. apply key_before_unique; [assumption..|].
  now rewrite P', Hl, P.
Qed.

(** ** Chunks that repeat, and chunks without metadata *)

Section Repeats.
Variable rt : Runtime.
Implicit Types (g : gmap (str * str) (gset str)) (d : Document) (k : str * str).

Lemma doc_key_meta d d' : metadata d = metadata d' -> doc_key rt d = doc_key rt d'.
Proof. unfold doc_key, doc_ref, doc_file. now intros ->. Qed.

Lemma doc_page_meta d d' : metadata d = metadata d' -> doc_page rt d = doc_page rt d'.
Proof. unfold doc_page, doc_ref. now intros ->. Qed.

Lemma add_source_absorb g d ps :
  g !! doc_key rt d = Some ps -> page_set (doc_page rt d) ⊆ ps -> add_source rt g d = g.
Proof.
  intros Hg Hp. apply map_eq. intros k. rewrite add_source_lookup.
  destruct (decide (doc_key rt d = k)) as [<-|]; [|reflexivity].
  rewrite Hg. cbn [from_option id]. f_equal. now apply subseteq_union_1_L.
Qed.

Lemma page_set_key_pages d docs :
  d ∈ docs -> page_set (doc_page rt d) ⊆ key_pages rt (doc_key rt d) docs.
Proof.
  intros Hd p Hp. apply elem_of_key_pages.
  destruct (doc_page rt d) as [[|c q]|] eqn:E; cbn [page_set] in Hp;
    try (now apply elem_of_empty in Hp).
  apply elem_of_singleton in Hp as ->. split; [discriminate|]. exists d. auto.
Qed.

Lemma process_sources_groups docs docs' :
  docs <> [] -> docs' <> [] -> group_sources rt docs = group_sources rt docs' ->
  process_sources rt docs = process_sources rt docs'.
Proof.
  destruct docs as [|d docs], docs' as [|d' docs']; try congruence.
  intros _ _ E. unfold process_sources. cbv iota. now rewrite E.
Qed.

Lemma repeat_groups docs1 docs2 d d' :
  d' ∈ docs1 -> metadata d' = metadata d ->
  group_sources rt (docs1 ++ d :: docs2) = group_sources rt (docs1 ++ docs2).
Proof.
  intros Hd Hm. unfold group_sources. rewrite !fold_left_app. cbn [fold_left].
  f_equal. fold (group_sources rt docs1).
  apply add_source_absorb with (ps := key_pages rt (doc_key rt d') docs1).
  - rewrite <- (doc_key_meta d' d Hm). now apply group_sources_key.
  - rewrite <- (doc_page_meta d' d Hm). now apply page_set_key_pages.
Qed.
End Repeats.

(** X9. A chunk whose metadata repeat those of an earlier chunk of the
    list (a second piece of one split fragment, or a chunk retrieved twice)
    changes nothing in the sources block: with or without it the result of
    [process_sources] is the same, also where that result is an exception. *)
Theorem repeated_chunk_changes_nothing (rt : Runtime)
    (docs1 docs2 : list Document) (d d' : Document) :
  d' ∈ docs1 -> metadata d' = metadata d ->
  process_sources rt (docs1 ++ d :: docs2) = process_sources rt (docs1 ++ docs2).
Proof.
  intros Hd Hm. apply process_sources_groups.
  - destruct docs1; discriminate.
  - destruct docs1; [inversion Hd|discriminate].
  - now apply repeat_groups with (d' := d').
Qed.

Lemma repeated_chunk_changes_nothing_witness :
  let d' := chunk "Розділ 1, Стор. 5" "book.pdf" in
  let d := {| page_content := py "друга частина фрагмента"; metadata := metadata d' |} in
  d' ∈ [d'] /\ metadata d' = metadata d /\
  process_sources py_default ([d'] ++ d :: [chunk "Розділ 2, Стор. 7" "book.pdf"])
  = process_sources py_default ([d'] ++ [chunk "Розділ 2, Стор. 7" "book.pdf"]).
Proof.
  intros d' d.
  assert (Hd : d' ∈ [d']) by apply list_elem_of_here.
  split; [exact Hd|]. split; [reflexivity|].
  exact (repeated_chunk_changes_nothing py_default [d']
           [chunk "Розділ 2, Стор. 7" "book.pdf"] d d' Hd eq_refl).
Defined.

Section Bare.
Variable rt : Runtime.
Implicit Types (g : gmap (str * str) (gset str)) (d : Document).

Lemma bare_key d :
  bare d -> doc_key rt d = (py "Загальний контекст", py "Невідомий файл") /\
            doc_page rt d = None.
Proof.
  intros [Hr Hs]. unfold doc_key, doc_page, doc_ref, doc_file. rewrite Hr, Hs.
  cbn [from_option id].
  rewrite parse_no_marker by (vm_compute; reflexivity). cbn [fst snd].
  split; [|reflexivity]. f_equal; vm_compute; reflexivity.
Qed.

Lemma bare_groups docs :
  docs <> [] -> Forall bare docs ->
  group_sources rt docs = {[ (py "Загальний контекст", py "Невідомий файл") := ∅ ]}.
Proof.
  intros Hne Hb. apply map_eq. intros k. rewrite group_lookup.
  destruct (decide (k = (py "Загальний контекст", py "Невідомий файл"))) as [->|Hk].
  - rewrite lookup_singleton_eq. rewrite decide_True.
    + f_equal. apply set_eq. intros p. rewrite elem_of_key_pages. split.
      * intros (_ & d & Hd & _ & Hp). rewrite Forall_forall in Hb.
        destruct (bare_key d (Hb d Hd)) as [_ E]. congruence.
      * intros H. now apply elem_of_empty in H.
    + destruct docs as [|d docs]; [congruence|]. apply Exists_cons_hd.
      inversion Hb; subst. now apply bare_key.
  - rewrite lookup_singleton_ne by congruence. rewrite decide_False; [reflexivity|].
    intros H. apply Exists_exists in H as (d & Hd & E). rewrite Forall_forall in Hb.
    destruct (bare_key d (Hb d Hd)) as [E' _]. congruence.
Qed.
End Bare.

(** X10. Missing keys: for a non-empty list of chunks that carry neither
    [citation_ref] nor [source], whatever their number and text, the sources
    block has the single line "1. Загальний контекст — [Невідомий файл]". *)
Theorem chunks_without_metadata (rt : Runtime) (docs : list Document) :
  docs <> [] -> Forall bare docs ->
  process_sources rt docs = Ok (header ++ py "1. Загальний контекст — [Невідомий файл]").
Proof.
  intros Hne Hb. pose proof (bare_groups rt docs Hne Hb) as G.
  destruct docs as [|d docs]; [congruence|]. unfold process_sources. cbv iota.
  rewrite G.
  assert (K : sorted_keys ({[ (py "Загальний контекст", py "Невідомий файл") := ∅ ]}
                           : gmap (str * str) (gset str))
              = Ok [(py "Загальний контекст", py "Невідомий файл")]).
  { unfold sorted_keys. rewrite dom_singleton_L, elements_singleton. reflexivity. }
  rewrite K. cbn [bind map_result].
  unfold render_group. rewrite lookup_singleton_eq. cbn [from_option id].
  rewrite bool_decide_eq_true_2 by reflexivity. cbn [bind].
  vm_compute. reflexivity.
Qed.

Lemma chunks_without_metadata_witness :
  let d := {| page_content := py "текст";
              metadata := {| source := None; section := None;
                             citation_ref := None; page_number := None |} |} in
  [d; d] <> [] /\ Forall bare [d; d] /\
  process_sources py_default [d; d]
  = Ok (header ++ py "1. Загальний контекст — [Невідомий файл]").
Proof.
  intros d.
  assert (Hb : Forall bare [d; d]) by (repeat constructor).
  split; [discriminate|]. split; [exact Hb|].
  exact (chunks_without_metadata py_default [d; d] ltac:(discriminate) Hb).
Defined.

(** ** The tracker's references in the aggregator *)

Section OwnReferences.
Variable rt : Runtime.
Variable fp : str.

Lemma own_page docs e :
  Forall paged docs -> e ∈ processed_docs (tag_documents rt fp docs) ->
  exists p, doc_page rt e = Some p /\ decimal_token rt p = true.
Proof.
  intros Hp He. destruct (pass_member rt fp docs e He) as (d & Hd & _ & T).
  rewrite Forall_forall in Hp. destruct (Hp d Hd) as (n & Hn & H0 & Hl).
  destruct (tagged_page rt fp d e n T Hn) as (sec & _ & _ & E & _).
  exists (str_of_Z (n + 1)). split; [exact E|].
  apply page_display_decimal; [lia|exact Hl].
Qed.
End OwnReferences.

(** X11. The references that the tracker writes never break the page
    sort: when every raw fragment has a page number that is not negative (of
    at most 640 digits in its display), [process_sources] returns a sources
    block, and raises nothing, for every list of chunks whose metadata are
    those of documents of the pass (pieces of split documents, in any number
    and order). *)
Theorem own_references_are_sorted (rt : Runtime) (fp : str)
    (docs : list RawDocument) (chunks : list Document) :
  Forall paged docs ->
  Forall (fun c => exists e, e ∈ processed_docs (tag_documents rt fp docs) /\
                             metadata c = metadata e) chunks ->
  exists out, process_sources rt chunks = Ok out.
Proof.
  intros Hp Hc. destruct (decide (chunks = [])) as [->|Hne]; [now exists []|].
  destruct (process_sources_ok rt chunks Hne) as (keys & lines & _ & _ & _ & E); [|eauto].
  intros k ps Hk. right. intros p Hpp.
  rewrite group_lookup in Hk. destruct (decide _) as [X|X]; [|discriminate].
  injection Hk as <-. apply elem_of_key_pages in Hpp as (_ & c & Hin & _ & Hpage).
  rewrite Forall_forall in Hc. destruct (Hc c Hin) as (e0 & He & Hm).
  destruct (own_page rt fp docs e0 Hp He) as (q & Hq & Hd).
  rewrite (doc_page_meta rt c e0 Hm) in Hpage. congruence.
Qed.

Lemma own_references_are_sorted_witness :
  let docs := [raw "Розділ 2. Основні поняття" (Some 9%Z);
               raw "Текст розділу, у якому є кома." (Some 1%Z);
               raw "Продовження того самого розділу." (Some 99%Z)] in
  let chunks := processed_docs (tag_documents py_default (py "book.pdf") docs) in
  Forall paged docs /\
  Forall (fun c => exists e, e ∈ processed_docs (tag_documents py_default (py "book.pdf") docs) /\
                             metadata c = metadata e) chunks /\
  exists out, process_sources py_default chunks = Ok out.
Proof.
  intros docs chunks.
  assert (Hp : Forall paged docs).
  { unfold docs. repeat (apply List.Forall_cons;
      [eexists; split; [reflexivity|split; [lia|vm_compute; reflexivity]]|]).
    apply List.Forall_nil. }
  assert (Hc : Forall (fun c => exists e,
                  e ∈ processed_docs (tag_documents py_default (py "book.pdf") docs) /\
                  metadata c = metadata e) chunks).
  { apply Forall_forall. intros c Hc. exists c. split; [exact Hc|reflexivity]. }
  split; [exact Hp|]. split; [exact Hc|].
  exact (own_references_are_sorted py_default (py "book.pdf") docs chunks Hp Hc).
Defined.


(** ** Page tokens that are not decimal *)

Section TextPages.
Variable rt : Runtime.
Implicit Types (l r : list str) (p : str) (ps : gset str).

Lemma text_keyed l :
  Forall (fun p => str_isdigit rt p = false) l ->
  map_result (keyed rt) l = Ok (List.map (fun p => (KeyStr p, p)) l).
Proof.
  induction 1 as [|p l Hp _ IH]; [reflexivity|]. cbn [map_result List.map].
  unfold keyed at 1. unfold page_sort_key. rewrite Hp. cbn [bind]. now rewrite IH.
Qed.

Lemma str_lt_transitive : Transitive (fun a b : str => str_lt a b = true).
Proof. intros a b c. apply str_lt_trans. Qed.

(** Distinct tokens without digits are sorted into the one increasing
    order of strings. *)
Lemma sort_text l :
  NoDup l -> Forall (fun p => str_isdigit rt p = false) l ->
  exists r, sorted page_key_lt (page_sort_key rt) l = Ok r /\ r ≡ₚ l /\
            Sorted (fun a b => str_lt a b = true) r.
Proof.
  intros N H. rewrite sorted_unfold, (text_keyed l H). cbn [bind].
  set (kl := List.map (fun p => (KeyStr p, p)) l).
  assert (K0 : Forall (fun kp : page_key * str => kp.1 = KeyStr kp.2) kl).
  { unfold kl. apply Forall_forall. intros kp Hk.
    apply list_elem_of_In, in_map_iff in Hk as (x & <- & _). reflexivity. }
  destruct (sort_by_ok page_key_lt kl) as [r S].
  { intros a b Ha Hb. apply list_elem_of_fmap in Ha as (x & -> & Hx).
    apply list_elem_of_fmap in Hb as (y & -> & Hy). rewrite Forall_forall in K0.
    rewrite (K0 x Hx), (K0 y Hy). cbn. eauto. }
  rewrite S. cbn [bind]. exists (r.*2).
  pose proof (sort_by_perm _ _ _ S) as P.
  assert (E : kl.*2 = l).
  { unfold kl. clear. induction l as [|x l IH]; [reflexivity|]. cbn. now rewrite IH. }
  assert (Pl : r.*2 ≡ₚ l) by now rewrite P, E.
  split; [reflexivity|]. split; [exact Pl|].
  rewrite <- P in K0.
  pose proof (sort_by_sorted _ page_key_lt_asym _ _ S) as Hs.
  apply (Sorted_strengthen _ _ _ Hs) in K0.
  apply Sorted_distinct with (R := fun a b => str_lt b a = false).
  - intros a b Hab Hne. destruct (str_lt_total a b Hne) as [T|T]; [exact T|congruence].
  - rewrite Pl. exact N.
  - eapply Sorted_fmap; [|exact K0]. intros x y (Kx & Ky & L).
    unfold key_le in L. rewrite Kx, Ky in L. cbn in L. now injection L as L.
Qed.

Lemma str_lt_unique l1 l2 :
  Sorted (fun a b => str_lt a b = true) l1 -> Sorted (fun a b => str_lt a b = true) l2 ->
  l1 ≡ₚ l2 -> l1 = l2.
Proof.
  apply (@Sorted_unique_strong _ _ str_lt_transitive).
  intros a b _ _ H1 H2. apply str_lt_asym in H1. congruence.
Qed.
End TextPages.

(** X12. A page set without numeric tokens (roman numerals and the like)
    is sorted as strings, by code points: the result lists every token of
    the set once, in strictly increasing order, and it is the same for every
    order in which the interpreter iterates the set. *)
Theorem text_pages_sorted_as_strings (rt : Runtime) (ps : gset str) :
  (forall p, p ∈ ps -> str_isdigit rt p = false) ->
  exists r,
    sort_pages rt ps = Ok r /\
    r ≡ₚ elements ps /\
    Sorted (fun a b => str_lt a b = true) r /\
    forall l, l ≡ₚ elements ps -> sorted page_key_lt (page_sort_key rt) l = Ok r.
Proof.
  intros H.
  assert (G : forall l, l ≡ₚ elements ps ->
                exists r, sorted page_key_lt (page_sort_key rt) l = Ok r /\ r ≡ₚ elements ps /\
                          Sorted (fun a b => str_lt a b = true) r).
  { intros l Hl. destruct (sort_text rt l) as (r & E & P & S).
    - rewrite Hl. apply NoDup_elements.
    - apply Forall_forall. intros p Hp. apply H. rewrite Hl in Hp.
      now apply elem_of_elements in Hp.
    - exists r. split; [exact E|]. split; [now rewrite P|exact S]. }
  destruct (G (set_order rt (elements ps)) (set_order_perm rt _)) as (r & E & P & S).
  exists r. split; [exact E|]. split; [exact P|]. split; [exact S|].
  intros l Hl. destruct (G l Hl) as (r' & E' & P' & S'). rewrite E'. f_equal.
  apply str_lt_unique; [assumption..|]. now rewrite P', P.
Qed.

Lemma text_pages_sorted_as_strings_witness :
  let ps : gset str := {[ py "xii"; py "iv"; py "A-3" ]} in
  (forall p, p ∈ ps -> str_isdigit py_default p = false) /\
  exists r,
    sort_pages py_default ps = Ok r /\
    r ≡ₚ elements ps /\
    Sorted (fun a b => str_lt a b = true) r /\
    forall l, l ≡ₚ elements ps -> sorted page_key_lt (page_sort_key py_default) l = Ok r.
Proof.
  intros ps.
  assert (H : forall p, p ∈ ps -> str_isdigit py_default p = false).
  { intros p Hp. unfold ps in Hp. rewrite !elem_of_union, !elem_of_singleton in Hp.
    destruct Hp as [[-> | ->]| ->]; reflexivity. }
  split; [exact H|]. exact (text_pages_sorted_as_strings py_default ps H).
Defined.

Section DigitPages.
Variable rt : Runtime.
Implicit Types (l : list str) (p : str) (ps : gset str).

Lemma int_of_str_refuses p :
  forallb (isdecimal rt) p = false -> int_of_str rt p = Raise ValueError.
Proof.
  intros H. unfold int_of_str.
  destruct (negb _ && _); [reflexivity|].
  destruct (mapM (decimal_value rt) p) as [ds|] eqn:M; [|reflexivity].
  exfalso. assert (F : is_Some (mapM (decimal_value rt) p)) by eauto.
  apply mapM_is_Some in F. apply not_true_iff_false in H. apply H.
  apply forallb_forall. intros c Hc. apply list_elem_of_In in Hc.
  rewrite Forall_forall in F. destruct (F c Hc) as [v Hv].
  unfold decimal_value in Hv. unfold isdecimal. now destruct (kind rt c).
Qed.

Lemma page_sort_key_exn p e : page_sort_key rt p = Raise e -> e = ValueError.
Proof.
  unfold page_sort_key, int_of_str. destruct (str_isdigit rt p); [|discriminate].
  destruct (negb _ && _); cbn [bind]; [congruence|].
  destruct (mapM (decimal_value rt) p); cbn [bind]; [discriminate|congruence].
Qed.

Lemma keyed_raises l p :
  p ∈ l -> page_sort_key rt p = Raise ValueError ->
  map_result (keyed rt) l = Raise ValueError.
Proof.
  intros Hp Hk. induction l as [|x l IH]; [inversion Hp|]. cbn [map_result].
  unfold keyed at 1. destruct (page_sort_key rt x) as [k|e] eqn:Ex; cbn [bind].
  - apply elem_of_cons in Hp as [->|Hp]; [congruence|]. now rewrite (IH Hp).
  - now rewrite (page_sort_key_exn x e Ex).
Qed.
End DigitPages.

(** X13. A page token that passes [isdigit] without being made of decimal
    digits (a superscript two, for one) is refused by [int]: the page sort
    of every set that holds such a token raises [ValueError], also where
    the token is the only page of its group, since the keys are computed
    before anything is compared. *)
Theorem digit_page_raises_value_error (rt : Runtime) (ps : gset str) (p : str) :
  p ∈ ps -> str_isdigit rt p = true -> forallb (isdecimal rt) p = false ->
  sort_pages rt ps = Raise ValueError.
Proof.
  intros Hp Hd Hn. unfold sort_pages. rewrite sorted_unfold.
  rewrite (keyed_raises rt _ p); [reflexivity| |].
  - now rewrite set_order_perm, elem_of_elements.
  - unfold page_sort_key. rewrite Hd. now rewrite int_of_str_refuses.
Qed.

Lemma digit_page_raises_value_error_witness :
  let ps : gset str := {[ py "²" ]} in
  py "²" ∈ ps /\ str_isdigit py_default (py "²") = true /\
  forallb (isdecimal py_default) (py "²") = false /\
  sort_pages py_default ps = Raise ValueError /\
  process_sources py_default [chunk "Примітка, Стор. ²" "book.pdf"] = Raise ValueError.
Proof.
  intros ps.
  assert (Hp : py "²" ∈ ps) by now apply elem_of_singleton.
  split; [exact Hp|]. split; [reflexivity|]. split; [reflexivity|].
  split; [|vm_compute; reflexivity].
  exact (digit_page_raises_value_error py_default ps (py "²") Hp eq_refl eq_refl).
Defined.

(** ** When the parser reports a page *)

Section ParseComplete.
Variable rt : Runtime.
Implicit Types (s a b t p : str) (g : caps).

Lemma star_here {R} c s (k : str -> option R) r : k s = Some r -> is_Some (star rt c s k).
Proof.
  intros H. destruct s as [|x s]; cbn [star]; [eauto|].
  destruct (cls_match rt c x); [|eauto]. destruct (star rt c s k); eauto.
Qed.

Lemma opt_total c whole s g (k : str -> caps -> option (str * caps)) :
  is_Some (k s g) -> is_Some (rmatch rt (Opt c) whole s g k).
Proof.
  intros H. unfold Opt. cbn [rmatch].
  destruct s as [|x s']; [exact H|]. destruct (cls_match rt c x); [|exact H].
  destruct (k s' g); [eauto|exact H].
Qed.

Lemma marker_complete whole s g (k : str -> caps -> option (str * caps)) :
  ci_prefix rt (py "стор") s || ci_prefix rt (py "page") s = true ->
  (forall x, is_Some (k x g)) ->
  is_Some (rmatch rt page_marker whole s g k).
Proof.
  intros H Hk. unfold page_marker. cbn [rmatch]. rewrite !ilit_match.
  destruct (ci_prefix rt (py "стор") s).
  - destruct (opt_total (CLit 0x2E) whole (drop (length (py "стор")) s) g k (Hk _))
      as [r ->]. eauto.
  - cbn [orb] in H. rewrite H. destruct (Hk (drop (length (py "page")) s)) as [r ->]. eauto.
Qed.

Lemma tail_complete whole b g :
  marker_ahead rt b = true -> is_Some (rmatch rt citation_tail whole b g ret).
Proof.
  unfold marker_ahead. cbv zeta. intros H. rewrite tail_unfold.
  destruct (lstrip_suffix rt b) as (w & E & Hw).
  destruct (marker_complete whole (lstrip rt b) g (after_marker rt whole) H
              (fun x => after_marker_total rt whole x g)) as [r Hr].
  destruct (star_here CSpace (lstrip rt b)
              (fun s' => rmatch rt page_marker whole s' g (after_marker rt whole)) r Hr)
    as [r' Hr'].
  rewrite E. erewrite star_app; [eauto|exact Hw|exact Hr'].
Qed.

Lemma match_complete whole b :
  marker_ahead rt b = true -> is_Some (match_here rt citation_re whole (0x2C%N :: b)).
Proof.
  intros H. rewrite match_here_unfold.
  destruct (tail_complete whole b
              [(1%nat, take (length (0x2C%N :: b) - S (length b)) (0x2C%N :: b))] H)
    as [r Hr].
  apply star_here with (r := r). now rewrite after_title_comma.
Qed.

Lemma search_complete r whole a b :
  is_Some (match_here rt r whole b) -> is_Some (search_from rt r whole (a ++ b)).
Proof.
  intros [[s' g] H]. induction a as [|x a IH]; cbn [app].
  - rewrite (search_from_here rt r whole b s' g H). eauto.
  - cbn [search_from]. destruct (match_here rt r whole (x :: a ++ b)) as [[s1 g1]|]; [eauto|].
    destruct IH as [m ->]. eauto.
Qed.

Lemma comma_marker_split s :
  comma_marker rt s = true ->
  exists a b, s = a ++ 0x2C%N :: b /\ marker_ahead rt b = true.
Proof.
  induction s as [|c s IH]; [discriminate|]. cbn [comma_marker]. intros H.
  apply orb_true_iff in H as [H|H].
  - apply andb_true_iff in H as [Hc Hm]. apply N.eqb_eq in Hc as ->.
    exists [], s. auto.
  - destruct (IH H) as (a & b & -> & Hm). exists (c :: a), b. auto.
Qed.

Lemma any_no_lf a : Forall (fun x => cls_match rt CAny x = true) a -> no_lf a.
Proof.
  intros H. eapply Forall_impl; [exact H|]. intros c Hc. cbn in Hc.
  now apply negb_true_iff in Hc.
Qed.

Lemma marker_cont whole s g (k : str -> caps -> option (str * caps)) r :
  rmatch rt page_marker whole s g k = Some r -> exists s', k s' g = Some r.
Proof.
  assert (O : forall s0, rmatch rt (Opt (CLit 0x2E)) whole s0 g k = Some r ->
                         exists s', k s' g = Some r).
  { intros s0. unfold Opt. cbn [rmatch]. destruct s0 as [|x s1]; [eauto|].
    destruct (cls_match rt (CLit 0x2E) x); [|eauto].
    destruct (k s1 g) eqn:E; [intros [= <-]|]; eauto. }
  unfold page_marker. cbn [rmatch]. rewrite !ilit_match.
  destruct (ci_prefix rt (py "стор") s).
  - destruct (rmatch rt (Opt (CLit 0x2E)) whole _ g k) eqn:E1.
    + intros [= <-]. eauto.
    + destruct (ci_prefix rt (py "page") s).
      * destruct (k (drop (length (py "page")) s) g) eqn:E2; [intros [= <-]; eauto|].
        discriminate.
      * discriminate.
  - destruct (ci_prefix rt (py "page") s); [|discriminate].
    destruct (k (drop (length (py "page")) s) g) eqn:E2; [intros [= <-]; eauto|].
    discriminate.
Qed.

Lemma after_marker_groups whole s g rest g' :
  after_marker rt whole s g = Some (rest, g') ->
  exists p, g' = (2%nat, p) :: g /\ no_lf p.
Proof.
  unfold after_marker. cbn [rmatch]. intros H.
  apply star_sound in H as (w & s2 & -> & _ & H).
  apply star_sound in H as (a2 & b2 & -> & Ha & H).
  unfold ret in H. injection H as _ <-. rewrite take_app_diff.
  exists a2. split; [reflexivity|now apply any_no_lf].
Qed.

Lemma match_groups whole x rest g :
  match_here rt citation_re whole x = Some (rest, g) ->
  exists t p, g = [(2%nat, p); (1%nat, t)] /\ no_lf t /\ no_lf p.
Proof.
  rewrite match_here_unfold. intros H.
  apply star_sound in H as (a & b & -> & Ha & H).
  unfold after_title in H. rewrite take_app_diff in H.
  cbn [rmatch] in H. destruct b as [|c b]; [discriminate|].
  destruct (cls_match rt (CLit 0x2C) c); [|discriminate].
  apply star_sound in H as (w & s1 & -> & _ & H).
  apply marker_cont in H as (s' & H).
  apply (after_marker_groups whole) in H as (p & -> & Hp).
  exists a, p. split; [reflexivity|]. split; [now apply any_no_lf|exact Hp].
Qed.

Lemma parse_page_iff s :
  (exists t p, _parse_citation_string rt s = (t, Some p)) <-> comma_marker rt s = true.
Proof.
  split.
  - intros (t & p & H). destruct (comma_marker rt s) eqn:C; [reflexivity|].
    rewrite parse_no_marker in H by exact C. discriminate.
  - intros C. apply comma_marker_split in C as (a & b & -> & Hm).
    destruct (search_complete citation_re (a ++ 0x2C%N :: b) a (0x2C%N :: b)
                (match_complete _ b Hm)) as [f Hf].
    unfold _parse_citation_string, re_search. rewrite Hf. eauto.
Qed.

Lemma parse_page_clean s t p :
  _parse_citation_string rt s = (t, Some p) ->
  trimmed rt t /\ trimmed rt p /\ no_lf t /\ no_lf p.
Proof.
  unfold _parse_citation_string, re_search.
  destruct (search_from rt citation_re s s) as [f|] eqn:E; [|discriminate].
  apply search_found in E as (b & _ & Hb).
  apply match_groups in Hb as (t0 & p0 & -> & Ht & Hp).
  cbn [group Nat.eqb from_option id]. intros [= <- <-].
  split; [apply strip_trimmed|]. split; [apply strip_trimmed|].
  assert (L : forall x, no_lf x -> no_lf (strip rt x)).
  { intros x Hx. destruct (strip_segment rt x) as (u & v & Ex & _). rewrite Ex in Hx.
    apply Forall_app in Hx as [_ Hx]. now apply Forall_app in Hx as [Hx _]. }
  split; now apply L.
Qed.
End ParseComplete.

(** X14. [_parse_citation_string] reports a page exactly for the citation
    strings in which some comma is followed, after optional whitespace, by a
    page marker ("стор" or "page" in any letter case); every other string
    comes back whole and without a page.  A title and a page that it
    reports never start or end with whitespace and hold no line feed. *)
Theorem parse_reports_page_iff_marker (rt : Runtime) (s : str) :
  ((exists t p, _parse_citation_string rt s = (t, Some p)) <-> comma_marker rt s = true) /\
  ((exists t, _parse_citation_string rt s = (t, None)) <-> comma_marker rt s = false) /\
  (forall t, _parse_citation_string rt s = (t, None) -> t = s) /\
  (forall t p, _parse_citation_string rt s = (t, Some p) ->
               trimmed rt t /\ trimmed rt p /\ no_lf t /\ no_lf p).
Proof.
  split; [apply parse_page_iff|]. split; [|split].
  - split.
    + intros [t H]. destruct (comma_marker rt s) eqn:C; [|reflexivity].
      apply parse_page_iff in C as (t' & p & H'). congruence.
    + intros C. exists s. now apply parse_no_marker.
  - intros t H. destruct (comma_marker rt s) eqn:C.
    + apply parse_page_iff in C as (t' & p & H'). congruence.
    + rewrite parse_no_marker in H by exact C. congruence.
  - apply parse_page_clean.
Qed.


(** ** src/rag_engine.py: the context and the answer *)

Section Context.
Variable token_count : str -> nat.
Variable max_context_tokens : nat.
Implicit Types (docs kept : list Document).

Lemma removelast_take docs : removelast docs = take (length docs - 1) docs.
Proof. rewrite removelast_firstn_len. f_equal. lia. Qed.

(** The loop stops at the longest prefix of the list that fits, or at the
    empty list. *)
Lemma pop_until_fits_spec fuel docs :
  (length docs <= fuel)%nat ->
  let kept := pop_until_fits token_count max_context_tokens fuel docs in
  (exists n, kept = take n docs) /\
  (kept = [] \/ (token_count (_format_docs kept) <= max_context_tokens)%nat) /\
  (forall m, (length kept < m <= length docs)%nat ->
             (max_context_tokens < token_count (_format_docs (take m docs)))%nat).
Proof.
  revert docs. induction fuel as [|fuel IH]; intros docs Hf kept.
  { destruct docs; [|cbn in Hf; lia]. subst kept. cbn.
    split; [now exists 0%nat|]. split; [now left|]. intros m Hm. cbn in Hm. lia. }
  subst kept. cbn [pop_until_fits]. destruct docs as [|d docs'] eqn:Ed.
  { split; [now exists 0%nat|]. split; [now left|]. intros m Hm. cbn in Hm. lia. }
  rewrite <- Ed in *.
  destruct (Nat.ltb_spec max_context_tokens (token_count (_format_docs docs))) as [L|L].
  - assert (Hl : length (removelast docs) = (length docs - 1)%nat).
    { rewrite removelast_take, length_take. lia. }
    destruct (IH (removelast docs)) as ((n & En) & Hfit & Hmax); [lia|].
    split; [|split; [exact Hfit|]].
    + exists (n `min` (length docs - 1))%nat.
      rewrite En, removelast_take. apply take_take.
    + intros m Hm. destruct (decide (m = length docs)) as [->|Hne].
      * now rewrite firstn_all.
      * specialize (Hmax m ltac:(lia)).
        rewrite removelast_take, take_take in Hmax.
        now replace (m `min` (length docs - 1))%nat with m in Hmax by lia.
  - split; [exists (length docs); now rewrite firstn_all|].
    split; [now right|]. intros m Hm. lia.
Qed.

Lemma safe_context_spec docs :
  let r := _safe_context_builder token_count max_context_tokens docs in
  r.1 = _format_docs r.2 /\
  (exists n, r.2 = take n docs) /\
  (r.2 = [] \/ (token_count r.1 <= max_context_tokens)%nat) /\
  (forall m, (length r.2 < m <= length docs)%nat ->
             (max_context_tokens < token_count (_format_docs (take m docs)))%nat).
Proof.
  unfold _safe_context_builder.
  destruct (Nat.leb_spec (token_count (_format_docs docs)) max_context_tokens) as [L|L];
    cbn [fst snd].
  - split; [reflexivity|]. split; [exists (length docs); now rewrite firstn_all|].
    split; [now right|]. intros m Hm. lia.
  - split; [reflexivity|]. apply pop_until_fits_spec. lia.
Qed.
End Context.

(** X15. [_safe_context_builder] keeps the longest prefix of the retrieved
    chunks whose formatted text fits the token limit: the chunks it leaves in
    the list are a prefix of the list it was given, the context it returns
    is the formatted text of exactly these chunks, that context is within
    the limit unless no chunk is left, and every longer prefix is over the
    limit.  The loop ends for every tokenizer. *)
Theorem safe_context_is_longest_fitting_prefix
    (token_count : str -> nat) (max_context_tokens : nat) (docs : list Document) :
  let r := _safe_context_builder token_count max_context_tokens docs in
  r.1 = _format_docs r.2 /\
  (exists n, r.2 = take n docs) /\
  (r.2 = [] \/ (token_count r.1 <= max_context_tokens)%nat) /\
  (forall m, (length r.2 < m <= length docs)%nat ->
             (max_context_tokens < token_count (_format_docs (take m docs)))%nat).
Proof.
  unfold _safe_context_builder.
  destruct (Nat.leb_spec (token_count (_format_docs docs)) max_context_tokens) as [L|L];
    cbn [fst snd].
  - split; [reflexivity|]. split; [exists (length docs); now rewrite firstn_all|].
    split; [now right|]. intros m Hm. lia.
  - split; [reflexivity|]. apply pop_until_fits_spec. lia.
Qed.

Section Answer.
Variable token_count : str -> nat.
Variable max_context_tokens : nat.
Context {F : Type}.
Variable search : str -> option (list (Document * F)).
Variable invoke : str -> str -> llm_error + str.

(** When the model answers, the dictionary holds its answer and the list
    that [_safe_context_builder] has shortened. *)
Lemma get_answer_success query found text :
  search query = Some found -> found <> [] ->
  invoke (_safe_context_builder token_count max_context_tokens (List.map fst found)).1
    query = inr text ->
  get_answer token_count max_context_tokens search invoke query =
  {| answer := text;
     source_documents :=
       (_safe_context_builder token_count max_context_tokens (List.map fst found)).2 |}.
Proof.
  intros H Hne Hi. unfold get_answer. rewrite H.
  destruct (List.map fst found) as [|d ds] eqn:Ed; [now destruct found|].
  rewrite <- Ed in Hi |- *.
  destruct (_safe_context_builder token_count max_context_tokens (List.map fst found))
    as [ctx kept]. cbn [fst snd] in *. now rewrite Hi.
Qed.

Lemma safe_context_fits docs :
  (token_count (_format_docs docs) <= max_context_tokens)%nat ->
  _safe_context_builder token_count max_context_tokens docs = (_format_docs docs, docs).
Proof.
  intros H. unfold _safe_context_builder.
  now replace (token_count (_format_docs docs) <=? max_context_tokens)%nat with true
    by (symmetry; apply Nat.leb_le, H).
Qed.

Lemma get_answer_failure query :
  (search query = None \/ search query = Some [] \/
   exists found e,
     search query = Some found /\
     invoke (_safe_context_builder token_count max_context_tokens (List.map fst found)).1
       query = inl e) ->
  source_documents (get_answer token_count max_context_tokens search invoke query) = [].
Proof.
  unfold get_answer. intros [->|[->|(found & e & -> & Hi)]]; try reflexivity.
  destruct (List.map fst found) as [|d ds] eqn:Ed; [reflexivity|].
  rewrite <- Ed in Hi |- *.
  destruct (_safe_context_builder token_count max_context_tokens (List.map fst found))
    as [ctx kept]. cbn [fst] in Hi. rewrite Hi. destruct e; reflexivity.
Qed.
End Answer.

(** X16. The source documents that [get_answer] returns are the chunks the
    model saw.  Whenever the search finds chunks and the model answers the
    context built from them, the answer returned is that answer and the
    source documents are exactly the chunks that [_safe_context_builder]
    left in the list (it shortens the very list that is returned): a prefix
    of the chunks found, the context that the model was given is the
    formatted text of exactly these chunks, and where the context of all the
    chunks found fits the limit, all of them are returned.  When the search
    raises or finds nothing, or when the model call raises, no source
    document is returned. *)
Theorem answer_sources_are_the_context
    (token_count : str -> nat) (max_context_tokens : nat) (F : Type)
    (search : str -> option (list (Document * F)))
    (invoke : str -> str -> llm_error + str) (query : str) :
  let r := get_answer token_count max_context_tokens search invoke query in
  let context found :=
    _safe_context_builder token_count max_context_tokens (List.map fst found) in
  (forall found text,
      search query = Some found -> found <> [] ->
      invoke (context found).1 query = inr text ->
      answer r = text /\
      source_documents r = (context found).2 /\
      (context found).1 = _format_docs (source_documents r) /\
      (exists n, source_documents r = take n (List.map fst found)) /\
      ((token_count (_format_docs (List.map fst found)) <= max_context_tokens)%nat ->
       source_documents r = List.map fst found)) /\
  ((search query = None \/ search query = Some [] \/
    exists found e,
      search query = Some found /\ invoke (context found).1 query = inl e) ->
   source_documents r = []).
Proof.
  intros r context. split; [|apply get_answer_failure].
  intros found text Hs Hne Hi. unfold r.
  rewrite (get_answer_success token_count max_context_tokens search invoke
             query found text Hs Hne Hi).
  cbv beta iota delta [answer source_documents].
  pose proof (safe_context_spec token_count max_context_tokens (List.map fst found))
    as (E1 & E2 & _).
  split; [reflexivity|]. split; [reflexivity|]. split; [exact E1|]. split; [exact E2|].
  intros Hf. unfold context. now rewrite safe_context_fits.
Qed.

Lemma answer_sources_are_the_context_witness :
  let d1 := chunk "Розділ 1, Стор. 5" "book.pdf" in
  let d2 := chunk "Розділ 2, Стор. 7" "book.pdf" in
  let search : str -> option (list (Document * nat)) :=
    fun _ => Some [(d1, 1%nat); (d2, 2%nat)] in
  let invoke : str -> str -> llm_error + str := fun _ _ => inr (py "Відповідь.") in
  let r := get_answer (@length N) 60 search invoke (py "Що таке розділ?") in
  answer r = py "Відповідь." /\
  source_documents r = [d1] /\
  _format_docs [d1] = _format_docs (source_documents r) /\
  (exists n, source_documents r = take n [d1; d2]).
Proof.
  intros d1 d2 search invoke r.
  assert (C : _safe_context_builder (@length N) 60 [d1; d2] = (_format_docs [d1], [d1]))
    by (vm_compute; reflexivity).
  destruct (proj1 (answer_sources_are_the_context (@length N) 60 nat search invoke
                     (py "Що таке розділ?"))
              [(d1, 1%nat); (d2, 2%nat)] (py "Відповідь.") eq_refl
              ltac:(discriminate) eq_refl) as (H1 & H2 & H3 & H4 & _).
  fold r in H1, H2, H3, H4. cbn [List.map fst] in H2, H3, H4. rewrite C in H2, H3.
  cbn [fst snd] in H2, H3.
  split; [exact H1|]. split; [exact H2|]. split; [exact H3|exact H4].
Defined.

Section Chat.
Variable rt : Runtime.
Variable token_count : str -> nat.
Variable max_context_tokens : nat.
Context {F : Type}.
Variable search : str -> option (list (Document * F)).
Variable invoke : str -> str -> llm_error + str.

Lemma answer_query_unfold query :
  answer_query token_count max_context_tokens search invoke rt query =
  merge rt (answer (get_answer token_count max_context_tokens search invoke query))
    (source_documents (get_answer token_count max_context_tokens search invoke query)).
Proof. reflexivity. Qed.

Lemma merge_nil answer : merge rt answer [] = Ok answer.
Proof. unfold merge, process_sources. cbn [bind]. now rewrite app_nil_r. Qed.

Lemma answer_query_search_raises query :
  search query = None ->
  answer_query token_count max_context_tokens search invoke rt query
  = Ok (py "Помилка доступу до бази знань.").
Proof.
  intros H. rewrite answer_query_unfold. unfold get_answer. rewrite H.
  cbv beta iota delta [answer source_documents]. apply merge_nil.
Qed.

Lemma answer_query_nothing_found query :
  search query = Some [] ->
  answer_query token_count max_context_tokens search invoke rt query
  = Ok (py "Я не знайшов інформації за вашим запитом у завантажених документах.").
Proof.
  intros H. rewrite answer_query_unfold. unfold get_answer. rewrite H.
  cbv beta iota delta [answer source_documents List.map]. apply merge_nil.
Qed.

Lemma answer_query_model_raises query found e :
  search query = Some found -> found <> [] ->
  invoke (_safe_context_builder token_count max_context_tokens (List.map fst found)).1
    query = inl e ->
  answer_query token_count max_context_tokens search invoke rt query =
  Ok match e with
     | RateLimitError => py "Перевищено ліміт запитів до OpenAI. Спробуйте пізніше."
     | APIConnectionError => py "Проблеми з підключенням до сервера AI. Перевірте інтернет."
     | OtherError message =>
         py "Сталася технічна помилка при генерації відповіді: " ++ message
     end.
Proof.
  intros H Hne Hi. rewrite answer_query_unfold. unfold get_answer. rewrite H.
  destruct (List.map fst found) as [|d ds] eqn:Ed; [now destruct found|].
  rewrite <- Ed in Hi |- *.
  destruct (_safe_context_builder token_count max_context_tokens (List.map fst found))
    as [ctx kept]. cbn [fst] in Hi. rewrite Hi.
  destruct e; cbv beta iota delta [answer source_documents]; apply merge_nil.
Qed.

Lemma answer_query_success query found text :
  search query = Some found -> found <> [] ->
  invoke (_safe_context_builder token_count max_context_tokens (List.map fst found)).1
    query = inr text ->
  answer_query token_count max_context_tokens search invoke rt query =
  merge rt text
    (_safe_context_builder token_count max_context_tokens (List.map fst found)).2.
Proof.
  intros H Hne Hi. rewrite answer_query_unfold. unfold get_answer. rewrite H.
  destruct (List.map fst found) as [|d ds] eqn:Ed; [now destruct found|].
  rewrite <- Ed in Hi |- *.
  destruct (_safe_context_builder token_count max_context_tokens (List.map fst found))
    as [ctx kept]. cbn [fst snd] in *. rewrite Hi. reflexivity.
Qed.
End Chat.

(** X17. What the chat loop prints for a query.  When the search raises,
    when it finds nothing, and when the model call raises, the text is the
    message of that failure alone, with no sources block after it and no
    exception from the citation code.  When the model answers, the text is
    its answer merged with the citations of the chunks that were left in
    the context, not of all the chunks that the search found. *)
Theorem chat_prints_error_without_sources (rt : Runtime)
    (token_count : str -> nat) (max_context_tokens : nat) (F : Type)
    (search : str -> option (list (Document * F)))
    (invoke : str -> str -> llm_error + str) (query : str) :
  let ask := answer_query token_count max_context_tokens search invoke rt in
  let context found :=
    _safe_context_builder token_count max_context_tokens (List.map fst found) in
  (search query = None -> ask query = Ok (py "Помилка доступу до бази знань.")) /\
  (search query = Some [] ->
   ask query = Ok (py "Я не знайшов інформації за вашим запитом у завантажених документах.")) /\
  (forall found e,
      search query = Some found -> found <> [] ->
      invoke (context found).1 query = inl e ->
      ask query =
      Ok match e with
         | RateLimitError => py "Перевищено ліміт запитів до OpenAI. Спробуйте пізніше."
         | APIConnectionError => py "Проблеми з підключенням до сервера AI. Перевірте інтернет."
         | OtherError message =>
             py "Сталася технічна помилка при генерації відповіді: " ++ message
         end) /\
  (forall found text,
      search query = Some found -> found <> [] ->
      invoke (context found).1 query = inr text ->
      ask query = merge rt text (context found).2).
Proof.
  intros ask context. split; [|split; [|split]].
  - apply answer_query_search_raises.
  - apply answer_query_nothing_found.
  - intros found e. apply answer_query_model_raises.
  - intros found text. apply answer_query_success.
Qed.

Section Format.
Implicit Types (doc : Document) (s : str).

Lemma replace_lf_free s : no_lf (replace_char LF 0x20 s).
Proof.
  unfold replace_char. apply Forall_forall. intros c Hc.
  apply list_elem_of_In, in_map_iff in Hc as (x & <- & _).
  destruct (N.eqb_spec x LF) as [E|E]; [reflexivity|]. now apply N.eqb_neq.
Qed.

Lemma count_lf_app s1 s2 : count_lf (s1 ++ s2) = (count_lf s1 + count_lf s2)%nat.
Proof. unfold count_lf. now rewrite List.filter_app, length_app. Qed.

Lemma count_lf_free s : no_lf s -> count_lf s = 0%nat.
Proof.
  unfold count_lf. induction 1 as [|c s Hc _ IH]; [reflexivity|].
  cbn [List.filter]. rewrite N.eqb_sym in Hc. now rewrite Hc.
Qed.

Lemma format_doc_shape doc :
  format_doc doc =
  (py "[Джерело: " ++ context_ref doc ++ py "] -") ++
  LF :: replace_char LF 0x20 (page_content doc).
Proof. unfold format_doc, context_ref. cbv zeta. now rewrite !app_assoc. Qed.

Lemma count_lf_cons s : count_lf (LF :: s) = S (count_lf s).
Proof. reflexivity. Qed.

Lemma format_doc_lf doc : no_lf (context_ref doc) -> count_lf (format_doc doc) = 1%nat.
Proof.
  intros H. rewrite format_doc_shape, count_lf_app, count_lf_cons.
  rewrite (count_lf_free (replace_char LF 0x20 (page_content doc)))
    by apply replace_lf_free.
  rewrite !count_lf_app, (count_lf_free _ H).
  rewrite !count_lf_free by (apply no_lf_check; vm_compute; reflexivity). reflexivity.
Qed.

Lemma format_docs_lf docs :
  Forall (fun doc => no_lf (context_ref doc)) docs ->
  (count_lf (_format_docs docs) + 2 = 3 * length docs)%nat \/ docs = [].
Proof.
  unfold _format_docs. induction 1 as [|doc docs Hd _ IH]; [now right|]. left.
  cbn [List.map join length]. destruct docs as [|doc' docs].
  - cbn [List.map length]. rewrite (format_doc_lf doc Hd). reflexivity.
  - destruct IH as [IH|]; [|discriminate]. cbn [List.map] in *.
    rewrite !count_lf_app, (format_doc_lf doc Hd).
    change (count_lf [LF; LF]) with 2%nat. cbn [length] in *. lia.
Qed.
End Format.

(** X18. The layout of the context.  Every chunk is shown on exactly two
    lines, the line with its citation reference (or "Unknown Source" where
    the chunk has none) and the line with its text, in which every line feed
    has been replaced by a space; the chunks are set apart by one empty
    line.  So the context of [n >= 1] chunks holds [3 n - 2] line feeds,
    whatever the texts of the chunks. *)
Theorem context_layout (docs : list Document) :
  Forall (fun doc => no_lf (context_ref doc)) docs ->
  docs <> [] ->
  (count_lf (_format_docs docs) + 2 = 3 * length docs)%nat /\
  Forall (fun doc =>
      exists text,
        format_doc doc = py "[Джерело: " ++ context_ref doc ++ py "] -" ++ LF :: text /\
        no_lf text /\ length text = length (page_content doc)) docs.
Proof.
  intros H Hne. split.
  - destruct (format_docs_lf docs H) as [E|E]; [exact E|contradiction].
  - apply Forall_forall. intros doc _. exists (replace_char LF 0x20 (page_content doc)).
    split; [reflexivity|]. split; [apply replace_lf_free|apply length_map].
Qed.

Lemma context_layout_witness :
  let d1 := {| page_content := py "перший рядок" ++ LF :: py "другий рядок";
               metadata := {| source := Some (py "book.pdf"); section := None;
                              citation_ref := None; page_number := None |} |} in
  let d2 := chunk "Розділ 1, Стор. 5" "book.pdf" in
  Forall (fun doc => no_lf (context_ref doc)) [d1; d2] /\
  [d1; d2] <> [] /\
  (count_lf (_format_docs [d1; d2]) + 2 = 3 * length [d1; d2])%nat /\
  Forall (fun doc =>
      exists text,
        format_doc doc = py "[Джерело: " ++ context_ref doc ++ py "] -" ++ LF :: text /\
        no_lf text /\ length text = length (page_content doc)) [d1; d2].
Proof.
  intros d1 d2.
  assert (H : Forall (fun doc => no_lf (context_ref doc)) [d1; d2])
    by (repeat (apply List.Forall_cons; [apply no_lf_check; vm_compute; reflexivity|]);
        apply List.Forall_nil).
  split; [exact H|]. split; [discriminate|].
  exact (context_layout [d1; d2] H ltac:(discriminate)).
Defined.


(** ** src/vector_store.py *)

Section StoreFacts.
Variable rt : Runtime.
Implicit Types (path b d : str) (m : VectorStoreManager).

(** A relative component is appended after the directory, with a slash
    where the directory does not bring one. *)
Lemma join2_relative path d :
  starts_with [0x2F%N] d = false ->
  join2 path d =
  (if bool_decide (path = []) || bool_decide (last path = Some 0x2F%N)
   then path else path ++ [0x2F%N]) ++ d.
Proof.
  intros H. unfold join2. rewrite H.
  destruct (bool_decide (path = []) || bool_decide (last path = Some 0x2F%N));
    [reflexivity|]. now rewrite <- app_assoc.
Qed.

Lemma init_inv cn mt base k e m :
  init rt cn mt base k e = Ok m ->
  (model_type m = py "openai" /\ key_at_hand k e /\
   persist_directory m = path_join base [cn; py "openai_v3"]) \/
  (model_type m = py "hf" /\
   persist_directory m = path_join base [cn; py "hf_minilm"]).
Proof.
  unfold init. cbv zeta.
  destruct (bool_decide_reflect (str_lower rt mt = py "openai")) as [E|E].
  - assert (K : forall key : option str,
               match key with Some (_ :: _) => True | _ => False end ->
               key = match k with Some ((_ :: _) as x) => Some x | _ => e end ->
               key_at_hand k e).
    { intros key Hk ->. destruct k as [[|c s]|].
      - right. split; [now right|]. destruct e as [[|c s]|]; try contradiction.
        eexists. split; [reflexivity|discriminate].
      - left. eexists. split; [reflexivity|discriminate].
      - right. split; [now left|]. destruct e as [[|c s]|]; try contradiction.
        eexists. split; [reflexivity|discriminate]. }
    destruct (match k with Some ((_ :: _) as x) => Some x | _ => e end) as [[|c s]|] eqn:Ek;
      cbn [bind]; try discriminate.
    intros [= <-]. left. cbn [model_type persist_directory].
    split; [exact E|]. split; [|reflexivity].
    apply (K (Some (c :: s)) I). reflexivity.
  - destruct (bool_decide_reflect (str_lower rt mt = py "hf")) as [E'|E'];
      cbn [bind]; [|discriminate].
    intros [= <-]. right. cbn [model_type persist_directory]. split; [exact E'|reflexivity].
Qed.

Lemma init_ok cn mt base k e :
  (str_lower rt mt = py "hf" \/ (str_lower rt mt = py "openai" /\ key_at_hand k e)) ->
  exists m, init rt cn mt base k e = Ok m.
Proof.
  unfold init. cbv zeta. intros [E|[E K]].
  - rewrite bool_decide_eq_false_2 by (rewrite E; vm_compute; discriminate).
    rewrite bool_decide_eq_true_2 by exact E. cbn [bind]. eauto.
  - rewrite bool_decide_eq_true_2 by exact E.
    destruct K as [(x & -> & Hx)|([->| ->] & x & -> & Hx)];
      destruct x as [|c s]; try congruence; cbn [bind]; eauto.
Qed.

Lemma init_raises cn mt base k e :
  (exists m, init rt cn mt base k e = Ok m) \/ init rt cn mt base k e = Raise ValueError.
Proof.
  unfold init. cbv zeta.
  destruct (bool_decide (str_lower rt mt = py "openai")).
  - destruct (match k with Some ((_ :: _) as x) => Some x | _ => e end) as [[|c s]|];
      cbn [bind]; eauto.
  - destruct (bool_decide (str_lower rt mt = py "hf")); cbn [bind]; eauto.
Qed.

Lemma model_dirs_differ base cn :
  path_join base [cn; py "openai_v3"] <> path_join base [cn; py "hf_minilm"].
Proof.
  unfold path_join. cbn [fold_left].
  rewrite (join2_relative _ (py "openai_v3")) by reflexivity.
  rewrite (join2_relative _ (py "hf_minilm")) by reflexivity.
  intros H. apply app_inv_head in H. vm_compute in H. discriminate.
Qed.
End StoreFacts.

(** X19. The arguments that [VectorStoreManager.__init__] accepts: the
    model type is compared in lower case; "hf" needs no key; "openai" needs
    a non-empty key, the argument or, where the argument is missing or
    empty, the environment variable.  Every other call raises
    [ValueError]. *)
Theorem store_init_validates (rt : Runtime)
    (cn mt base : str) (api_key env_key : option str) :
  ((exists m, init rt cn mt base api_key env_key = Ok m) <->
   (str_lower rt mt = py "hf" \/
    (str_lower rt mt = py "openai" /\ key_at_hand api_key env_key))) /\
  (~ (str_lower rt mt = py "hf" \/
      (str_lower rt mt = py "openai" /\ key_at_hand api_key env_key)) ->
   init rt cn mt base api_key env_key = Raise ValueError).
Proof.
  assert (Hinv : (exists m, init rt cn mt base api_key env_key = Ok m) ->
                 str_lower rt mt = py "hf" \/
                 (str_lower rt mt = py "openai" /\ key_at_hand api_key env_key)).
  { intros [m Hm]. pose proof Hm as Hm'. apply init_inv in Hm as [(E & K & _)|(E & _)].
    - right. split; [|exact K]. unfold init in Hm'. cbv zeta in Hm'.
      destruct (bool_decide_reflect (str_lower rt mt = py "openai")) as [E1|E1];
        [exact E1|].
      destruct (bool_decide (str_lower rt mt = py "hf")); cbn [bind] in Hm';
        [|discriminate].
      injection Hm' as <-. cbn [model_type] in E. congruence.
    - left. unfold init in Hm'. cbv zeta in Hm'.
      destruct (bool_decide_reflect (str_lower rt mt = py "openai")) as [E1|E1].
      + destruct (match api_key with Some ((_ :: _) as x) => Some x | _ => env_key end)
          as [[|c s]|]; cbn [bind] in Hm'; try discriminate.
        injection Hm' as <-. cbn [model_type] in E. rewrite E1 in E.
        vm_compute in E. discriminate.
      + destruct (bool_decide_reflect (str_lower rt mt = py "hf")) as [E2|E2];
          [exact E2|discriminate]. }
  split; [split; [exact Hinv|apply init_ok]|].
  intros H. destruct (init_raises rt cn mt base api_key env_key) as [Hm|Hr];
    [now apply Hinv in Hm|exact Hr].
Qed.

(** X20. The indexes of the two embedding models never share a
    directory: two managers made for the same base directory and collection
    have the same [persist_directory] exactly when they have the same model
    type. *)
Theorem store_directories_separate_models (rt : Runtime)
    (cn base mt1 mt2 : str) (k1 e1 k2 e2 : option str) (m1 m2 : VectorStoreManager) :
  init rt cn mt1 base k1 e1 = Ok m1 ->
  init rt cn mt2 base k2 e2 = Ok m2 ->
  (persist_directory m1 = persist_directory m2 <-> model_type m1 = model_type m2).
Proof.
  intros H1 H2.
  apply init_inv in H1 as [(T1 & _ & D1)|(T1 & D1)];
    apply init_inv in H2 as [(T2 & _ & D2)|(T2 & D2)];
    rewrite T1, T2, D1, D2; split; intros H; try reflexivity.
  - now apply model_dirs_differ in H.
  - vm_compute in H. discriminate.
  - symmetry in H. now apply model_dirs_differ in H.
  - vm_compute in H. discriminate.
Qed.

Lemma store_directories_separate_models_witness :
  let m1 := {| collection_name := py "educational_material"; model_type := py "openai";
               persist_directory := py "./chroma_storage/educational_material/openai_v3" |} in
  let m2 := {| collection_name := py "educational_material"; model_type := py "hf";
               persist_directory := py "./chroma_storage/educational_material/hf_minilm" |} in
  init py_default (py "educational_material") (py "OpenAI") (py "./chroma_storage")
    (Some (py "sk-test")) None = Ok m1 /\
  init py_default (py "educational_material") (py "HF") (py "./chroma_storage")
    None None = Ok m2 /\
  (persist_directory m1 = persist_directory m2 <-> model_type m1 = model_type m2).
Proof.
  intros m1 m2.
  assert (H1 : init py_default (py "educational_material") (py "OpenAI")
                 (py "./chroma_storage") (Some (py "sk-test")) None = Ok m1)
    by (vm_compute; reflexivity).
  assert (H2 : init py_default (py "educational_material") (py "HF")
                 (py "./chroma_storage") None None = Ok m2)
    by (vm_compute; reflexivity).
  split; [exact H1|]. split; [exact H2|].
  exact (store_directories_separate_models py_default (py "educational_material")
           (py "./chroma_storage") (py "OpenAI") (py "HF")
           (Some (py "sk-test")) None None None m1 m2 H1 H2).
Defined.

Section Similarity.
Context {F : Type}.
Variable fsub : F -> F -> F.
Variable fge : F -> F -> bool.
Variable one : F.
Implicit Types (res : list (Document * F)) (threshold : F).

Lemma filter_results_spec res threshold :
  filter_results fsub fge one res threshold =
  List.filter (fun ds => fge ds.2 threshold)
    (List.map (fun dd => (dd.1, fsub one dd.2)) res).
Proof.
  induction res as [|[doc distance] res IH]; [reflexivity|].
  cbn [filter_results List.map List.filter fst snd].
  destruct (fge (fsub one distance) threshold); now rewrite IH.
Qed.

Lemma filter_results_sublist res threshold :
  (filter_results fsub fge one res threshold).*1 `sublist_of` res.*1.
Proof.
  induction res as [|[doc distance] res IH]; [constructor|].
  cbn [filter_results]. destruct (fge (fsub one distance) threshold).
  - rewrite !fmap_cons. now apply sublist_skip.
  - rewrite fmap_cons. now apply sublist_cons.
Qed.

Lemma filter_results_pass res threshold doc s :
  (doc, s) ∈ filter_results fsub fge one res threshold ->
  fge s threshold = true /\ exists distance, (doc, distance) ∈ res /\ s = fsub one distance.
Proof.
  induction res as [|[doc' distance] res IH]; cbn [filter_results]; [inversion 1|].
  destruct (fge (fsub one distance) threshold) eqn:E.
  - intros H. apply elem_of_cons in H as [[= -> ->]|H].
    + split; [exact E|]. exists distance. split; [left|reflexivity].
    + destruct (IH H) as (H1 & dist & H2 & H3). split; [exact H1|].
      exists dist. split; [now right|exact H3].
  - intros H. destruct (IH H) as (H1 & dist & H2 & H3). split; [exact H1|].
    exists dist. split; [now right|exact H3].
Qed.

Lemma filter_results_keeps res threshold doc distance :
  (doc, distance) ∈ res -> fge (fsub one distance) threshold = true ->
  (doc, fsub one distance) ∈ filter_results fsub fge one res threshold.
Proof.
  induction res as [|[doc' distance'] res IH]; [inversion 1|].
  intros H E. cbn [filter_results]. apply elem_of_cons in H as [[= <- <-]|H].
  - rewrite E. left.
  - destruct (fge (fsub one distance') threshold); [right|]; now apply IH.
Qed.
End Similarity.

(** X21. [search_similarity] returns the chunks that the index returned
    for the query whose similarity [1.0 - distance] reaches the threshold,
    and only these, each with that similarity, in the order of the index;
    it adds no chunk and changes no order.  (The subtraction and the
    comparison are the interpreter's floating point operations.) *)
Theorem search_similarity_filters (F : Type) (fsub : F -> F -> F) (fge : F -> F -> bool)
    (one : F) (similarity_search_with_score : str -> nat -> list (Document * F))
    (query : str) (k : nat) (threshold : F) :
  let found := similarity_search_with_score query k in
  let res := search_similarity fsub fge one similarity_search_with_score query k threshold in
  res.*1 `sublist_of` found.*1 /\
  (forall doc s, (doc, s) ∈ res <->
                 fge s threshold = true /\
                 exists distance, (doc, distance) ∈ found /\ s = fsub one distance).
Proof.
  intros found res. split; [apply filter_results_sublist|].
  intros doc s. split; [apply filter_results_pass|].
  intros (E & distance & H & ->). now apply filter_results_keeps.
Qed.

(** ** src/ingestion.py: extensions and loaders *)

Section Rfind.
Implicit Types (p a b : str) (c : char) (i last : Z).

Lemma rfind_from_absent c p i last :
  Forall (fun x => (x =? c)%N = false) p -> rfind_from c p i last = last.
Proof.
  intros H. revert i. induction H as [|x p Hx _ IH]; intros i; [reflexivity|].
  cbn [rfind_from]. now rewrite Hx, IH.
Qed.

Lemma rfind_from_last c a b i last :
  Forall (fun x => (x =? c)%N = false) b ->
  rfind_from c (a ++ c :: b) i last = (i + Z.of_nat (length a))%Z.
Proof.
  intros H. revert i last. induction a as [|x a IH]; intros i last; cbn [app rfind_from].
  - rewrite N.eqb_refl, rfind_from_absent by exact H. cbn [length]. lia.
  - rewrite IH. cbn [length]. lia.
Qed.

Lemma last_occurrence c p :
  Forall (fun x => (x =? c)%N = false) p \/
  exists a b, p = a ++ c :: b /\ Forall (fun x => (x =? c)%N = false) b.
Proof.
  induction p as [|x p IH]; [left; constructor|].
  destruct IH as [H|(a & b & -> & Hb)].
  - destruct (N.eqb_spec x c) as [->|Hx].
    + right. exists [], p. auto.
    + left. constructor; [now apply N.eqb_neq|exact H].
  - right. exists (x :: a), b. auto.
Qed.

Lemma rfind_cases c p :
  (rfind c p = (-1)%Z /\ Forall (fun x => (x =? c)%N = false) p) \/
  exists a b, p = a ++ c :: b /\ Forall (fun x => (x =? c)%N = false) b /\
              rfind c p = Z.of_nat (length a).
Proof.
  unfold rfind. destruct (last_occurrence c p) as [H|(a & b & -> & Hb)].
  - left. split; [now apply rfind_from_absent|exact H].
  - right. exists a, b. split; [reflexivity|]. split; [exact Hb|].
    now rewrite rfind_from_last by exact Hb.
Qed.
End Rfind.

Section Splitext.
Implicit Types (p root e a b : str).

Lemma splitext_split p :
  (splitext p).1 ++ (splitext p).2 = p /\
  ((splitext p).2 = [] \/
   exists e, (splitext p).2 = 0x2E%N :: e /\ no_dot e /\ no_slash e).
Proof.
  unfold splitext. cbv zeta.
  destruct ((rfind 0x2F p <? rfind 0x2E p)%Z && _) eqn:C; cbn [fst snd];
    [|split; [apply app_nil_r|now left]].
  split; [apply take_drop|]. right.
  apply andb_true_iff in C as [C _]. apply Z.ltb_lt in C.
  destruct (rfind_cases 0x2E p) as [[Ed _]|(a & b & -> & Hb & Ed)].
  { destruct (rfind_cases 0x2F p) as [[Es _]|(a' & b' & _ & _ & Es)]; lia. }
  rewrite Ed, Nat2Z.id, drop_app_length. exists b. split; [reflexivity|].
  split; [exact Hb|].
  destruct (rfind_cases 0x2F (a ++ 0x2E%N :: b)) as [[_ Hs]|(a' & b' & E & Hs & Es)].
  - apply Forall_app in Hs as [_ Hs]. now inversion Hs.
  - rewrite Es, Ed in C. apply Nat2Z.inj_lt in C.
    apply (f_equal (drop (S (length a')))) in E.
    rewrite drop_app_le in E by lia.
    change (a' ++ 0x2F%N :: b') with (a' ++ [0x2F%N] ++ b') in E.
    rewrite app_assoc in E.
    replace (S (length a')) with (length (a' ++ [0x2F%N])) in E at 2
      by (rewrite length_app; cbn [length]; lia).
    rewrite drop_app_length in E. subst b'.
    apply Forall_app in Hs as [_ Hs]. now inversion Hs.
Qed.

Lemma splitext_join root e :
  named root -> no_dot e -> no_slash e ->
  splitext (root ++ 0x2E%N :: e) = (root, 0x2E%N :: e).
Proof.
  unfold named. intros Hn Hd Hs. unfold splitext. cbv zeta.
  assert (Ed : rfind 0x2E (root ++ 0x2E%N :: e) = Z.of_nat (length root))
    by (unfold rfind; now rewrite rfind_from_last by exact Hd).
  assert (Hs' : Forall (fun x => (x =? 0x2F)%N = false) (0x2E%N :: e))
    by (constructor; [reflexivity|exact Hs]).
  rewrite Ed, Nat2Z.id, take_app_length, drop_app_length.
  destruct (rfind_cases 0x2F root) as [[_ Hr]|(a & b & -> & Hb & _)].
  - assert (Es : rfind 0x2F (root ++ 0x2E%N :: e) = (-1)%Z).
    { unfold rfind. apply rfind_from_absent, Forall_app. auto. }
    rewrite Es. rewrite (after_last_id _ _ Hr) in Hn.
    unfold slice. change (Z.to_nat (-1 + 1)) with 0%nat. rewrite drop_0.
    replace (Z.to_nat (Z.of_nat (length root) - (-1 + 1))) with (length root) by lia.
    rewrite take_app_length, Hn.
    now replace (-1 <? Z.of_nat (length root))%Z with true by (symmetry; apply Z.ltb_lt; lia).
  - assert (Es : rfind 0x2F ((a ++ 0x2F%N :: b) ++ 0x2E%N :: e) = Z.of_nat (length a)).
    { unfold rfind. rewrite <- app_assoc, <- app_comm_cons.
      apply rfind_from_last, Forall_app. auto. }
    rewrite Es. rewrite (after_last_app _ a b Hb) in Hn.
    unfold slice.
    replace (Z.to_nat (Z.of_nat (length a) + 1)) with (length (a ++ [0x2F%N]))
      by (rewrite length_app; cbn [length]; lia).
    replace (Z.to_nat (Z.of_nat (length (a ++ 0x2F%N :: b)) - (Z.of_nat (length a) + 1)))
      with (length b) by (rewrite length_app; cbn [length]; lia).
    replace ((a ++ 0x2F%N :: b) ++ 0x2E%N :: e) with ((a ++ [0x2F%N]) ++ b ++ 0x2E%N :: e)
      by (now rewrite <- !app_assoc).
    rewrite drop_app_length, take_app_length, Hn.
    replace (Z.of_nat (length a) <? Z.of_nat (length (a ++ 0x2F%N :: b)))%Z with true
      by (symmetry; apply Z.ltb_lt; rewrite length_app; cbn [length]; lia).
    now rewrite <- !app_assoc.
Qed.
End Splitext.

(** [os.path.splitext] cuts a path in two parts that give the path
    back when joined; the extension is empty or a dot followed by characters
    that are neither dots nor slashes.  In the other direction, a root whose
    last component has a character other than a dot, followed by a dot and
    such characters, is split into exactly that root and that extension. *)
Lemma splitext_round_trip :
  (forall p,
      (splitext p).1 ++ (splitext p).2 = p /\
      ((splitext p).2 = [] \/
       exists e, (splitext p).2 = 0x2E%N :: e /\ no_dot e /\ no_slash e)) /\
  (forall root e,
      named root -> no_dot e -> no_slash e ->
      splitext (root ++ 0x2E%N :: e) = (root, 0x2E%N :: e)).
Proof. split; [apply splitext_split|apply splitext_join]. Qed.

Section Loader.
Variable rt : Runtime.
Implicit Types (p root e : str) (load : loader -> option (list RawDocument))
  (split : list Document -> list Document).

Lemma choose_loader_ext p :
  choose_loader rt p =
  let ext := str_lower rt (splitext p).2 in
  if bool_decide (ext = py ".pdf") then Some PyPDFLoader
  else if bool_decide (ext = py ".docx") || bool_decide (ext = py ".doc")
       then Some UnstructuredWordDocumentLoader
       else None.
Proof. reflexivity. Qed.

Lemma no_extension_no_loader p : (splitext p).2 = [] -> choose_loader rt p = None.
Proof. intros H. rewrite choose_loader_ext, H. vm_compute. reflexivity. Qed.

Lemma hidden_file_no_extension p name :
  no_slash name -> no_dot name ->
  (splitext (p ++ 0x2F%N :: 0x2E%N :: name)).2 = [] /\ (splitext (0x2E%N :: name)).2 = [].
Proof.
  intros Hs Hd.
  assert (G : forall a, (a = [] \/ exists a', a = a' ++ [0x2F%N]) ->
                        (splitext (a ++ 0x2E%N :: name)).2 = []).
  { intros a Ha. unfold splitext. cbv zeta.
    assert (Ed : rfind 0x2E (a ++ 0x2E%N :: name) = Z.of_nat (length a))
      by (unfold rfind; now rewrite rfind_from_last by exact Hd).
    assert (Hs' : Forall (fun x => (x =? 0x2F)%N = false) (0x2E%N :: name))
      by (constructor; [reflexivity|exact Hs]).
    rewrite Ed. destruct Ha as [->|[a' ->]].
    - assert (Es : rfind 0x2F ([] ++ 0x2E%N :: name) = (-1)%Z)
        by (unfold rfind; now apply rfind_from_absent).
      rewrite Es. reflexivity.
    - assert (Es : rfind 0x2F ((a' ++ [0x2F%N]) ++ 0x2E%N :: name) = Z.of_nat (length a')).
      { unfold rfind. rewrite <- app_assoc. apply rfind_from_last. exact Hs'. }
      rewrite Es. unfold slice.
      replace (Z.to_nat (Z.of_nat (length (a' ++ [0x2F%N])) - (Z.of_nat (length a') + 1)))
        with 0%nat by (rewrite length_app; cbn [length]; lia).
      rewrite take_0. cbn [existsb]. now rewrite andb_false_r. }
  split.
  - replace (p ++ 0x2F%N :: 0x2E%N :: name) with ((p ++ [0x2F%N]) ++ 0x2E%N :: name)
      by (now rewrite <- app_assoc).
    apply G. right. now exists p.
  - apply (G []). now left.
Qed.
End Loader.

(** X22. The choice of the loader.  A path whose extension is ".pdf" in
    any letter case is read with the PDF loader, one whose extension is
    ".docx" or ".doc" with the Word loader, and the result is the tagged and
    split documents; for every other path, among them a path without
    extension and a hidden file named ".pdf", [load_and_process] returns the
    empty list whatever the loaders would return, and so it does when the
    loader raises. *)
Theorem loader_follows_extension (rt : Runtime)
    (load : loader -> option (list RawDocument))
    (split : list Document -> list Document) :
  (forall root e,
      named root -> no_dot e -> no_slash e ->
      let p := root ++ 0x2E%N :: e in
      (str_lower rt (0x2E%N :: e) = py ".pdf" ->
       load_and_process_file rt p load split = load_and_process rt p (load PyPDFLoader) split) /\
      ((str_lower rt (0x2E%N :: e) = py ".docx" \/ str_lower rt (0x2E%N :: e) = py ".doc") ->
       load_and_process_file rt p load split
       = load_and_process rt p (load UnstructuredWordDocumentLoader) split) /\
      (str_lower rt (0x2E%N :: e) <> py ".pdf" ->
       str_lower rt (0x2E%N :: e) <> py ".docx" ->
       str_lower rt (0x2E%N :: e) <> py ".doc" ->
       load_and_process_file rt p load split = [])) /\
  (forall p, (splitext p).2 = [] -> load_and_process_file rt p load split = []) /\
  (forall dir name,
      no_slash name -> no_dot name ->
      load_and_process_file rt (dir ++ 0x2F%N :: 0x2E%N :: name) load split = []) /\
  (forall p l, choose_loader rt p = Some l -> load l = None ->
               load_and_process_file rt p load split = []).
Proof.
  split; [|split; [|split]].
  - intros root e Hn Hd Hs p. unfold load_and_process_file.
    rewrite choose_loader_ext. unfold p. rewrite (splitext_join root e Hn Hd Hs).
    cbn [snd]. cbv zeta. split; [|split].
    + intros ->. reflexivity.
    + intros [-> | ->]; reflexivity.
    + intros H1 H2 H3. now rewrite !bool_decide_eq_false_2 by assumption.
  - intros p H. unfold load_and_process_file. now rewrite no_extension_no_loader.
  - intros dir name Hs Hd. unfold load_and_process_file.
    rewrite no_extension_no_loader; [reflexivity|].
    apply (hidden_file_no_extension dir name Hs Hd).
  - intros p l Hl Hn. unfold load_and_process_file. rewrite Hl.
    unfold load_and_process. now rewrite Hn.
Qed.
